(** * The shared-memory lock manager (libpod/lock/shm/shm_lock.c)

    A shallow embedding of [shm_lock.c] and [shm_lock.h]: the segment
    header, the lock groups with their 32-bit occupancy bitmaps, the
    allocation operations on the bitmaps, the per-slot lock operations,
    and the creation and opening of the segment.

    Integers of the C code are values of [Z]; where the code computes in
    a fixed width the wrap-around is written out ([uint32], [to_size_t]).
    A pointer that may be NULL is an [option]. A function that mutates the
    segment through its pointer returns the new segment next to its
    return value. *)

From Stdlib Require Import ZArith Lia Bool Ascii String.
From stdpp Require Import base option numbers list strings.

Local Open Scope Z_scope.

(** ** C integer types *)

Definition uint32 (z : Z) : Z := z mod 2 ^ 32.

(** [errno.h] is not part of the repository; the values are those of
    Linux (asm-generic). *)
Definition EPERM : Z := 1.
Definition ENOENT : Z := 2.
Definition EBADF : Z := 9.
Definition EAGAIN : Z := 11.
Definition EFAULT : Z := 14.
Definition EBUSY : Z := 16.
Definition EEXIST : Z := 17.
Definition EINVAL : Z := 22.
Definition ENOSPC : Z := 28.
Definition ERANGE : Z := 34.
Definition EOWNERDEAD : Z := 130.
Definition ENOTRECOVERABLE : Z := 131.

(** [shm_lock.h] *)
Definition MAGIC : Z := 0x87D1.
Definition BITMAP_SIZE : Z := 4 * 8.   (* sizeof(bitmap_t) * 8 *)

(** ** Outcome of a call

    A call returns, or blocks the calling execution context on the
    platform's blocking acquire, or runs into behaviour the C language
    leaves undefined (an access outside an array of the segment). *)

Inductive outcome (A : Type) : Type :=
  | Returns (a : A)
  | Blocks
  | Undefined.
Arguments Returns {A} a.
Arguments Blocks {A}.
Arguments Undefined {A}.

#[global] Instance outcome_ret : MRet outcome := fun _ a => Returns a.
#[global] Instance outcome_bind : MBind outcome := fun _ _ f m =>
  match m with
  | Returns a => f a
  | Blocks => Blocks
  | Undefined => Undefined
  end.
#[global] Instance outcome_fmap : FMap outcome := fun _ _ f m =>
  match m with
  | Returns a => Returns (f a)
  | Blocks => Blocks
  | Undefined => Undefined
  end.

(** ** The platform's lock primitive *)

(** An execution context (a process, or a thread of one). *)
Definition ctx := nat.

(** Modelled from the spec: the platform-native lock primitive
    ([pthread_mutex_t] and the [pthread_mutex_*] calls are not part of
    the repository). Section 4.4 of the specification gives the per-lock
    states Unlocked, LockedConsistent and LockedAbandoned; section 4.1
    says every lock is shared across processes, non-recursive (a second
    acquire by the holder blocks) and recoverable. Two further states are
    those of a recoverable lock between the acquisition that reports the
    abandonment and the call that marks it consistent
    ([LockedRecovering]), and after a release without that call
    ([Unusable]). Of a lock that has become unusable the model keeps the
    error an acquisition reports and nothing else: the specification
    does not say what further calls leave in it. *)
Inductive lock_state : Type :=
  | Unlocked
  | LockedConsistent (holder : ctx)
  | LockedAbandoned
  | LockedRecovering (holder : ctx)
  | Unusable.

#[global] Instance lock_state_eq_dec : EqDecision lock_state.
Proof. solve_decision. Defined.

(** Modelled from the spec: the lock itself, its state and a queue.
    [pending] queues what the platform will answer to the next calls on
    this lock beside its state: [Some e] makes the next call fail with
    the error number [e], a positive integer, and leave the state alone
    ([EAGAIN] for a transient condition), [None] lets the next call
    proceed on the state. With an empty queue every call proceeds on the
    state. *)
Record pthread_mutex_t : Type := {
  state : lock_state;
  pending : list (option positive)
}.

(** A queued transient condition. *)
Definition transient : option positive := Some (Z.to_pos EAGAIN).

#[global] Instance pthread_mutex_eq_dec : EqDecision pthread_mutex_t.
Proof. solve_decision. Defined.

(** What [pthread_mutex_init] leaves behind. *)
Definition mutex_initial : pthread_mutex_t :=
  {| state := Unlocked; pending := [] |}.

(** Modelled from the spec: one call on the primitive. A queued error is
    delivered first, otherwise [act] decides on the lock state. *)
Definition platform_call (mutex : pthread_mutex_t)
    (act : lock_state -> outcome (Z * lock_state))
    : outcome (Z * pthread_mutex_t) :=
  match pending mutex with
  | Some e :: rest =>
      Returns (Z.pos e, {| state := state mutex; pending := rest |})
  | None :: rest =>
      '(r, s) ← act (state mutex);
      Returns (r, {| state := s; pending := rest |})
  | [] =>
      '(r, s) ← act (state mutex);
      Returns (r, {| state := s; pending := [] |})
  end.

(** Modelled from the spec: the blocking acquire. A free lock is taken;
    a held lock blocks the caller, the holder included (the lock is not
    recursive); an abandoned lock is taken and reported with
    [EOWNERDEAD]. *)
Definition pthread_mutex_lock (self : ctx) (mutex : pthread_mutex_t)
    : outcome (Z * pthread_mutex_t) :=
  platform_call mutex (fun s =>
    match s with
    | Unlocked => Returns (0, LockedConsistent self)
    | LockedConsistent _ => Blocks
    | LockedAbandoned => Returns (EOWNERDEAD, LockedRecovering self)
    | LockedRecovering _ => Blocks
    | Unusable => Returns (ENOTRECOVERABLE, Unusable)
    end).

(** Modelled from the spec: the non-blocking acquire, which answers
    [EBUSY] where the blocking one blocks. *)
Definition pthread_mutex_trylock (self : ctx) (mutex : pthread_mutex_t)
    : outcome (Z * pthread_mutex_t) :=
  platform_call mutex (fun s =>
    match s with
    | Unlocked => Returns (0, LockedConsistent self)
    | LockedConsistent h => Returns (EBUSY, LockedConsistent h)
    | LockedAbandoned => Returns (EOWNERDEAD, LockedRecovering self)
    | LockedRecovering h => Returns (EBUSY, LockedRecovering h)
    | Unusable => Returns (ENOTRECOVERABLE, Unusable)
    end).

(** Modelled from the spec: marking the lock consistent, for the
    context that took it abandoned; [EINVAL] otherwise. *)
Definition pthread_mutex_consistent (self : ctx) (mutex : pthread_mutex_t)
    : outcome (Z * pthread_mutex_t) :=
  platform_call mutex (fun s =>
    match s with
    | LockedRecovering h =>
        if decide (h = self) then Returns (0, LockedConsistent self)
        else Returns (EINVAL, s)
    | _ => Returns (EINVAL, s)
    end).

(** Modelled from the spec: the release by the holder; [EPERM] for a
    caller that does not hold the lock. A lock released before it was
    marked consistent stays unusable. *)
Definition pthread_mutex_unlock (self : ctx) (mutex : pthread_mutex_t)
    : outcome (Z * pthread_mutex_t) :=
  platform_call mutex (fun s =>
    match s with
    | LockedConsistent h =>
        if decide (h = self) then Returns (0, Unlocked)
        else Returns (EPERM, s)
    | LockedRecovering h =>
        if decide (h = self) then Returns (0, Unusable)
        else Returns (EPERM, s)
    | _ => Returns (EPERM, s)
    end).

(** The holder of the lock terminates without releasing it. *)
Definition holder_terminates (mutex : pthread_mutex_t) : pthread_mutex_t :=
  match state mutex with
  | LockedConsistent _ | LockedRecovering _ =>
      {| state := LockedAbandoned; pending := pending mutex |}
  | _ => mutex
  end.

(** The context holding the lock, if one does. *)
Definition holder_of (mutex : pthread_mutex_t) : option ctx :=
  match state mutex with
  | LockedConsistent h | LockedRecovering h => Some h
  | _ => None
  end.

(** ** take_mutex and release_mutex *)

(** [do { ret_code = call(mutex); } while (ret_code == EAGAIN);]
    Every [EAGAIN] uses up one queued answer, so [S (length (pending
    mutex))] rounds always reach the end of the loop
    ([do_while_EAGAIN_fuel]); the branch for no rounds left is there for
    the recursion only. *)
Fixpoint do_while_EAGAIN_rounds (rounds : nat)
    (call : pthread_mutex_t -> outcome (Z * pthread_mutex_t))
    (mutex : pthread_mutex_t) : outcome (Z * pthread_mutex_t) :=
  match rounds with
  | O => Blocks
  | S rounds' =>
      '(ret_code, mutex') ← call mutex;
      if ret_code =? EAGAIN then do_while_EAGAIN_rounds rounds' call mutex'
      else Returns (ret_code, mutex')
  end.

Definition do_while_EAGAIN
    (call : pthread_mutex_t -> outcome (Z * pthread_mutex_t))
    (mutex : pthread_mutex_t) : outcome (Z * pthread_mutex_t) :=
  do_while_EAGAIN_rounds (S (length (pending mutex))) call mutex.

Definition take_mutex (self : ctx) (mutex : pthread_mutex_t) (trylock : bool)
    : outcome (Z * pthread_mutex_t) :=
  '(ret_code, mutex) ←
    (if negb trylock then do_while_EAGAIN (pthread_mutex_lock self) mutex
     else do_while_EAGAIN (pthread_mutex_trylock self) mutex);
  if ret_code =? EOWNERDEAD then
    '(ret_code, mutex) ← pthread_mutex_consistent self mutex;
    if negb (ret_code =? 0) then Returns (ret_code, mutex)
    else Returns (0, mutex)
  else if negb (ret_code =? 0) then Returns (ret_code, mutex)
  else Returns (0, mutex).

Definition release_mutex (self : ctx) (mutex : pthread_mutex_t)
    : outcome (Z * pthread_mutex_t) :=
  '(ret_code, mutex) ← do_while_EAGAIN (pthread_mutex_unlock self) mutex;
  if negb (ret_code =? 0) then Returns (ret_code, mutex)
  else Returns (0, mutex).

(** ** The segment *)

(** [lock_group_t]; the array of the group's locks is [group_locks]
    ([locks] in the source, the name the segment's array of groups
    has too). *)
Record lock_group_t : Type := {
  bitmap : Z;
  group_locks : list pthread_mutex_t
}.

(** [shm_struct_t] *)
Record shm_struct_t : Type := {
  magic : Z;
  unused : Z;
  segment_lock : pthread_mutex_t;
  num_bitmaps : Z;
  num_locks : Z;
  locks : list lock_group_t
}.

#[global] Instance lock_group_eq_dec : EqDecision lock_group_t.
Proof. solve_decision. Defined.
#[global] Instance shm_struct_eq_dec : EqDecision shm_struct_t.
Proof. solve_decision. Defined.

(** Element [i] of a C array held as a list; outside the array the
    access is undefined. *)
Definition array_get {A : Type} (l : list A) (i : Z) : outcome A :=
  if (i <? 0) then Undefined
  else match l !! Z.to_nat i with
       | Some a => Returns a
       | None => Undefined
       end.

Definition set_segment_lock (shm : shm_struct_t) (mutex : pthread_mutex_t)
    : shm_struct_t :=
  {| magic := magic shm; unused := unused shm; segment_lock := mutex;
     num_bitmaps := num_bitmaps shm; num_locks := num_locks shm;
     locks := locks shm |}.

Definition set_locks (shm : shm_struct_t) (groups : list lock_group_t)
    : shm_struct_t :=
  {| magic := magic shm; unused := unused shm;
     segment_lock := segment_lock shm;
     num_bitmaps := num_bitmaps shm; num_locks := num_locks shm;
     locks := groups |}.

(** [shm->locks[i].bitmap = b] *)
Definition set_bitmap (shm : shm_struct_t) (i : Z) (b : Z) : shm_struct_t :=
  match locks shm !! Z.to_nat i with
  | Some g =>
      set_locks shm
        (<[Z.to_nat i := {| bitmap := b; group_locks := group_locks g |}]>
           (locks shm))
  | None => shm
  end.

(** [shm->locks[i].locks[j] = mutex], the state a call on the lock's
    address leaves in place. *)
Definition set_slot_lock (shm : shm_struct_t) (i j : Z)
    (mutex : pthread_mutex_t) : shm_struct_t :=
  match locks shm !! Z.to_nat i with
  | Some g =>
      set_locks shm
        (<[Z.to_nat i := {| bitmap := bitmap g;
                            group_locks := <[Z.to_nat j := mutex]> (group_locks g) |}]>
           (locks shm))
  | None => shm
  end.

(** [&(shm->locks[i].locks[j])] *)
Definition slot_lock (shm : shm_struct_t) (i j : Z) : outcome pthread_mutex_t :=
  g ← array_get (locks shm) i;
  array_get (group_locks g) j.

(** ** Allocation of slots: the bitmaps *)

(** The inner loop of [allocate_semaphore]:
    [while (test_map != 0) { if ((test_map & bitmap) == 0) ...;
    test_map = test_map << 1; num_within_bitmap++; }].
    [test_map] is a [uint32_t] with one bit set, so the shift clears it
    after at most 32 rounds; 33 rounds are given. [Some] is the bit found,
    [None] is falling through the loop. *)
Fixpoint scan_bitmap (rounds : nat) (bm test_map num_within_bitmap : Z)
    : option (Z * Z) :=
  match rounds with
  | O => None
  | S rounds' =>
      if test_map =? 0 then None
      else if Z.land test_map bm =? 0 then Some (test_map, num_within_bitmap)
      else scan_bitmap rounds' bm (uint32 (Z.shiftl test_map 1))
             (num_within_bitmap + 1)
  end.

(** The loop [for (i = 0; i < shm->num_bitmaps; i++)] of
    [allocate_semaphore] from group [i] on, with [rounds] groups left,
    and the code after the loop. The counter [i] is an [int] and
    [BITMAP_SIZE * i] a [size_t]; neither wraps below [2^27] groups, the
    most a [uint32_t] count of locks allows. *)
Fixpoint allocate_scan (self : ctx) (rounds : nat) (i : Z) (shm : shm_struct_t)
    : outcome (Z * shm_struct_t) :=
  match rounds with
  | O =>
      '(ret_code, m) ← release_mutex self (segment_lock shm);
      let shm := set_segment_lock shm m in
      if negb (ret_code =? 0) then Returns (-1 * ret_code, shm)
      else Returns (-1 * ENOSPC, shm)
  | S rounds' =>
      g ← array_get (locks shm) i;
      if negb (bitmap g =? 0xFFFFFFFF) then
        match scan_bitmap 33 (bitmap g) 1 0 with
        | Some (test_map, num_within_bitmap) =>
            let sem_number := BITMAP_SIZE * i + num_within_bitmap in
            let shm := set_bitmap shm i (Z.lor (bitmap g) test_map) in
            '(ret_code, m) ← release_mutex self (segment_lock shm);
            let shm := set_segment_lock shm m in
            if negb (ret_code =? 0) then Returns (-1 * ret_code, shm)
            else Returns (sem_number, shm)
        | None => allocate_scan self rounds' (i + 1) shm
        end
      else allocate_scan self rounds' (i + 1) shm
  end.

Definition allocate_semaphore (self : ctx) (shm : option shm_struct_t)
    : outcome (Z * option shm_struct_t) :=
  match shm with
  | None => Returns (-1 * EINVAL, None)
  | Some shm =>
      '(ret_code, m) ← take_mutex self (segment_lock shm) false;
      let shm := set_segment_lock shm m in
      if negb (ret_code =? 0) then Returns (-1 * ret_code, Some shm)
      else
        '(r, shm) ← allocate_scan self (Z.to_nat (num_bitmaps shm)) 0 shm;
        Returns (r, Some shm)
  end.

(** [0x1 << index_in_bitmap] is a shift of an [int] stored into a
    [uint32_t]; for position 31 the compilers the code is built with
    give bit 31. *)
Definition bit_mask (index_in_bitmap : Z) : Z :=
  uint32 (Z.shiftl 1 index_in_bitmap).

Definition allocate_given_semaphore (self : ctx) (shm : option shm_struct_t)
    (sem_index : Z) : outcome (Z * option shm_struct_t) :=
  match shm with
  | None => Returns (-1 * EINVAL, None)
  | Some shm =>
      if sem_index >=? num_locks shm then Returns (-1 * EINVAL, Some shm)
      else
        let bitmap_index := sem_index / BITMAP_SIZE in
        let index_in_bitmap := sem_index mod BITMAP_SIZE in
        if bitmap_index >=? num_bitmaps shm then Returns (-1 * EFAULT, Some shm)
        else
          let test_map := bit_mask index_in_bitmap in
          '(ret_code, m) ← take_mutex self (segment_lock shm) false;
          let shm := set_segment_lock shm m in
          if negb (ret_code =? 0) then Returns (-1 * ret_code, Some shm)
          else
            g ← array_get (locks shm) bitmap_index;
            if negb (Z.land test_map (bitmap g) =? 0) then
              '(ret_code, m) ← release_mutex self (segment_lock shm);
              let shm := set_segment_lock shm m in
              if negb (ret_code =? 0) then Returns (-1 * ret_code, Some shm)
              else Returns (-1 * EEXIST, Some shm)
            else
              let shm := set_bitmap shm bitmap_index (Z.lor (bitmap g) test_map) in
              '(ret_code, m) ← release_mutex self (segment_lock shm);
              let shm := set_segment_lock shm m in
              if negb (ret_code =? 0) then Returns (-1 * ret_code, Some shm)
              else Returns (0, Some shm)
  end.

Definition deallocate_semaphore (self : ctx) (shm : option shm_struct_t)
    (sem_index : Z) : outcome (Z * option shm_struct_t) :=
  match shm with
  | None => Returns (-1 * EINVAL, None)
  | Some shm =>
      if sem_index >=? num_locks shm then Returns (-1 * EINVAL, Some shm)
      else
        let bitmap_index := sem_index / BITMAP_SIZE in
        let index_in_bitmap := sem_index mod BITMAP_SIZE in
        if bitmap_index >=? num_bitmaps shm then Returns (-1 * EFAULT, Some shm)
        else
          let test_map := bit_mask index_in_bitmap in
          '(ret_code, m) ← take_mutex self (segment_lock shm) false;
          let shm := set_segment_lock shm m in
          if negb (ret_code =? 0) then Returns (-1 * ret_code, Some shm)
          else
            g ← array_get (locks shm) bitmap_index;
            if Z.land test_map (bitmap g) =? 0 then
              '(ret_code, m) ← release_mutex self (segment_lock shm);
              let shm := set_segment_lock shm m in
              if negb (ret_code =? 0) then Returns (-1 * ret_code, Some shm)
              else Returns (-1 * ENOENT, Some shm)
            else
              let test_map := uint32 (Z.lnot test_map) in
              let shm := set_bitmap shm bitmap_index (Z.land (bitmap g) test_map) in
              '(ret_code, m) ← release_mutex self (segment_lock shm);
              let shm := set_segment_lock shm m in
              if negb (ret_code =? 0) then Returns (-1 * ret_code, Some shm)
              else Returns (0, Some shm)
  end.

(** The loop [for (i = 0; i < shm->num_bitmaps; i++)
    shm->locks[i].bitmap = 0;] of [deallocate_all_semaphores] from group
    [i] on, with [rounds] groups left. The counter is a [uint], as wide
    as [num_bitmaps]; a write outside the array of groups is undefined,
    which the access to element [i] stands for. *)
Fixpoint reset_bitmaps (rounds : nat) (i : Z) (shm : shm_struct_t)
    : outcome shm_struct_t :=
  match rounds with
  | O => Returns shm
  | S rounds' =>
      _ ← array_get (locks shm) i;
      reset_bitmaps rounds' (i + 1) (set_bitmap shm i 0)
  end.

Definition deallocate_all_semaphores (self : ctx) (shm : option shm_struct_t)
    : outcome (Z * option shm_struct_t) :=
  match shm with
  | None => Returns (-1 * EINVAL, None)
  | Some shm =>
      '(ret_code, m) ← take_mutex self (segment_lock shm) false;
      let shm := set_segment_lock shm m in
      if negb (ret_code =? 0) then Returns (-1 * ret_code, Some shm)
      else
        shm ← reset_bitmaps (Z.to_nat (num_bitmaps shm)) 0 shm;
        '(ret_code, m) ← release_mutex self (segment_lock shm);
        let shm := set_segment_lock shm m in
        if negb (ret_code =? 0) then Returns (-1 * ret_code, Some shm)
        else Returns (0, Some shm)
  end.

(** Kernighan's loop of [available_locks]:
    [while (test_map) { test_map = test_map & (test_map - 1); count++; }].
    Each round clears one set bit of a [uint32_t]; 33 rounds are given. *)
Fixpoint count_set_bits (rounds : nat) (test_map count : Z) : Z :=
  match rounds with
  | O => count
  | S rounds' =>
      if test_map =? 0 then count
      else count_set_bits rounds' (Z.land test_map (test_map - 1)) (count + 1)
  end.

(** The loop over the groups of [available_locks]. *)
Fixpoint available_scan (rounds : nat) (i : Z) (shm : shm_struct_t)
    (free_locks : Z) : outcome Z :=
  match rounds with
  | O => Returns free_locks
  | S rounds' =>
      g ← array_get (locks shm) i;
      if bitmap g =? 0 then
        available_scan rounds' (i + 1) shm (free_locks + 4 * 8)
      else
        let count := count_set_bits 33 (bitmap g) 0 in
        available_scan rounds' (i + 1) shm (free_locks + (4 * 8 - count))
  end.

Definition available_locks (self : ctx) (shm : option shm_struct_t)
    : outcome (Z * option shm_struct_t) :=
  match shm with
  | None => Returns (-1 * EINVAL, None)
  | Some shm =>
      '(ret_code, m) ← take_mutex self (segment_lock shm) false;
      let shm := set_segment_lock shm m in
      if negb (ret_code =? 0) then Returns (-1 * ret_code, Some shm)
      else
        free_locks ← available_scan (Z.to_nat (num_bitmaps shm)) 0 shm 0;
        '(ret_code, m) ← release_mutex self (segment_lock shm);
        let shm := set_segment_lock shm m in
        if negb (ret_code =? 0) then Returns (-1 * ret_code, Some shm)
        else Returns (free_locks, Some shm)
  end.

(** ** The per-slot lock operations *)

Definition lock_semaphore (self : ctx) (shm : option shm_struct_t)
    (sem_index : Z) : outcome (Z * option shm_struct_t) :=
  match shm with
  | None => Returns (-1 * EINVAL, None)
  | Some shm =>
      if sem_index >=? num_locks shm then Returns (-1 * EINVAL, Some shm)
      else
        let bitmap_index := sem_index / BITMAP_SIZE in
        let index_in_bitmap := sem_index mod BITMAP_SIZE in
        mutex ← slot_lock shm bitmap_index index_in_bitmap;
        '(ret_code, mutex) ← take_mutex self mutex false;
        Returns (-1 * ret_code,
                 Some (set_slot_lock shm bitmap_index index_in_bitmap mutex))
  end.

Definition unlock_semaphore (self : ctx) (shm : option shm_struct_t)
    (sem_index : Z) : outcome (Z * option shm_struct_t) :=
  match shm with
  | None => Returns (-1 * EINVAL, None)
  | Some shm =>
      if sem_index >=? num_locks shm then Returns (-1 * EINVAL, Some shm)
      else
        let bitmap_index := sem_index / BITMAP_SIZE in
        let index_in_bitmap := sem_index mod BITMAP_SIZE in
        mutex ← slot_lock shm bitmap_index index_in_bitmap;
        '(ret_code, mutex) ← release_mutex self mutex;
        Returns (-1 * ret_code,
                 Some (set_slot_lock shm bitmap_index index_in_bitmap mutex))
  end.

Definition try_lock (self : ctx) (shm : option shm_struct_t)
    (sem_index : Z) : outcome (Z * option shm_struct_t) :=
  match shm with
  | None => Returns (-1 * EINVAL, None)
  | Some shm =>
      if sem_index >=? num_locks shm then Returns (-1 * EINVAL, Some shm)
      else
        let bitmap_index := sem_index / BITMAP_SIZE in
        let index_in_bitmap := sem_index mod BITMAP_SIZE in
        mutex ← slot_lock shm bitmap_index index_in_bitmap;
        '(ret_code, mutex) ← take_mutex self mutex true;
        let shm := set_slot_lock shm bitmap_index index_in_bitmap mutex in
        if ret_code =? EBUSY then Returns (0, Some shm)
        else if negb (ret_code =? 0) then Returns (-1 * ret_code, Some shm)
        else
          '(ret_code, mutex) ← release_mutex self mutex;
          let shm := set_slot_lock shm bitmap_index index_in_bitmap mutex in
          if negb (ret_code =? 0) then Returns (-1 * ret_code, Some shm)
          else Returns (1, Some shm)
  end.

(** ** Creation and opening of the segment *)

(** What the C code takes from the platform it is compiled for: the
    width of [size_t] and the sizes of the two structs (they hold
    [pthread_mutex_t], whose size is the platform's). *)
Record platform : Type := {
  size_t_bits : Z;
  sizeof_shm_struct : Z;
  sizeof_lock_group : Z
}.

Definition to_size_t (p : platform) (z : Z) : Z := z mod 2 ^ size_t_bits p.

(** Linux on x86-64 with glibc, and on 32-bit x86. *)
Definition linux_x86_64 : platform :=
  {| size_t_bits := 64; sizeof_shm_struct := 56; sizeof_lock_group := 1288 |}.
Definition linux_i386 : platform :=
  {| size_t_bits := 32; sizeof_shm_struct := 36; sizeof_lock_group := 772 |}.

(** The sum is computed in [size_t]. Where it wraps (with a 32-bit
    [size_t], from about 5.5 million locks on) the mapping is shorter
    than the groups [setup_lock_shm] initialises; the model does not
    follow the writes beyond the mapping. *)
Definition compute_shm_size (p : platform) (num_bitmaps : Z) : Z :=
  to_size_t p (sizeof_shm_struct p
               + to_size_t p (num_bitmaps * sizeof_lock_group p)).

(** The calls on the shared-memory namespace, the descriptor and the
    mapping, in the order they are made. [shm_open path true] is the
    exclusive creation ([O_RDWR | O_CREAT | O_EXCL]), [shm_open path
    false] the opening of an existing object ([O_RDWR]). *)
Inductive os_call : Type :=
  | shm_open (path : string) (create_excl : bool)
  | ftruncate (size : Z)
  | mmap (size : Z)
  | munmap (size : Z)
  | close
  | shm_unlink (path : string).

(** What the operating system answers. None of these calls is part of
    the repository: each answer is an input of the model.
    [shm_open_answer] and [ftruncate_answer] give the return value and
    [errno]; [mmap_errno] is [Some errno] for [MAP_FAILED];
    [mapped_region] is what the mapping of an existing object shows when
    read as a [shm_struct_t]; the others are return codes, [0] for
    success, [mutex_init_answer None] for the segment lock and
    [mutex_init_answer (Some (i, j))] for lock [j] of group [i]. *)
Record os_t : Type := {
  shm_open_answer : string -> bool -> Z * Z;
  ftruncate_answer : Z -> Z * Z;
  mmap_errno : Z -> option Z;
  mapped_region : shm_struct_t;
  mutexattr_init_answer : Z;
  mutexattr_settype_answer : Z;
  mutexattr_setpshared_answer : Z;
  mutexattr_setrobust_answer : Z;
  mutex_init_answer : option (Z * Z) -> Z
}.

(** What [setup_lock_shm] and [open_lock_shm] leave: the pointer
    returned, the cell [error_code] points to ([None] when the pointer is
    NULL), and the calls made on the operating system. *)
Record lifecycle_result : Type := {
  returned : option shm_struct_t;
  error_code_cell : option Z;
  os_calls : list os_call
}.

(** [for (j = 0; j < BITMAP_SIZE; j++)] of [setup_lock_shm]: the locks
    of group [i], or the return code of the initialisation that failed. *)
Fixpoint init_group_locks (os : os_t) (i : Z) (rounds : nat) (j : Z)
    : Z + list pthread_mutex_t :=
  match rounds with
  | O => inr []
  | S rounds' =>
      let ret_code := mutex_init_answer os (Some (i, j)) in
      if negb (ret_code =? 0) then inl ret_code
      else match init_group_locks os i rounds' (j + 1) with
           | inl e => inl e
           | inr ls => inr (mutex_initial :: ls)
           end
  end.

(** [for (i = 0; i < num_bitmaps; i++)] of [setup_lock_shm]. *)
Fixpoint init_groups (os : os_t) (rounds : nat) (i : Z)
    : Z + list lock_group_t :=
  match rounds with
  | O => inr []
  | S rounds' =>
      match init_group_locks os i (Z.to_nat BITMAP_SIZE) 0 with
      | inl e => inl e
      | inr ls =>
          match init_groups os rounds' (i + 1) with
          | inl e => inl e
          | inr gs => inr ({| bitmap := 0; group_locks := ls |} :: gs)
          end
      end
  end.

(** The number of bitmaps both [setup_lock_shm] and [open_lock_shm]
    compute from [num_locks]. *)
Definition bitmaps_required (num_locks : Z) : Z :=
  let num_bitmaps := num_locks / BITMAP_SIZE in
  if negb (num_locks mod BITMAP_SIZE =? 0) then uint32 (num_bitmaps + 1)
  else num_bitmaps.

Definition setup_lock_shm (p : platform) (os : os_t) (path : option string)
    (num_locks : Z) (error_code : option Z) : lifecycle_result :=
  match error_code with
  | None => {| returned := None; error_code_cell := None; os_calls := [] |}
  | Some _ =>
    let fail e calls :=
      {| returned := None; error_code_cell := Some e; os_calls := calls |} in
    if num_locks =? 0 then fail (-1 * EINVAL) []
    else match path with
    | None => fail (-1 * EINVAL) []
    | Some path =>
      let num_bitmaps := bitmaps_required num_locks in
      let shm_size := compute_shm_size p num_bitmaps in
      let '(shm_fd, errno) := shm_open_answer os path true in
      let opened := [shm_open path true] in
      if shm_fd <? 0 then fail (-1 * errno) opened
      else
        let CLEANUP_UNLINK := [close; shm_unlink path] in
        let CLEANUP_UNMAP := munmap shm_size :: CLEANUP_UNLINK in
        let '(ret_code, errno) := ftruncate_answer os shm_size in
        let truncated := opened ++ [ftruncate shm_size] in
        if ret_code <? 0 then fail (-1 * errno) (truncated ++ CLEANUP_UNLINK)
        else
          let mapped := truncated ++ [mmap shm_size] in
          match mmap_errno os shm_size with
          | Some errno => fail (-1 * errno) (mapped ++ CLEANUP_UNLINK)
          | None =>
            let shm_num_locks := uint32 (to_size_t p (num_bitmaps * BITMAP_SIZE)) in
            let ret_code := mutexattr_init_answer os in
            if negb (ret_code =? 0) then fail (-1 * ret_code) (mapped ++ CLEANUP_UNMAP)
            else
            let ret_code := mutexattr_settype_answer os in
            if negb (ret_code =? 0) then fail (-1 * ret_code) (mapped ++ CLEANUP_UNMAP)
            else
            let ret_code := mutexattr_setpshared_answer os in
            if negb (ret_code =? 0) then fail (-1 * ret_code) (mapped ++ CLEANUP_UNMAP)
            else
            let ret_code := mutexattr_setrobust_answer os in
            if negb (ret_code =? 0) then fail (-1 * ret_code) (mapped ++ CLEANUP_UNMAP)
            else
            let ret_code := mutex_init_answer os None in
            if negb (ret_code =? 0) then fail (-1 * ret_code) (mapped ++ CLEANUP_UNMAP)
            else
            match init_groups os (Z.to_nat num_bitmaps) 0 with
            | inl ret_code => fail (-1 * ret_code) (mapped ++ CLEANUP_UNMAP)
            | inr groups =>
                {| returned :=
                     Some {| magic := MAGIC; unused := 0;
                             segment_lock := mutex_initial;
                             num_bitmaps := num_bitmaps;
                             num_locks := shm_num_locks;
                             locks := groups |};
                   error_code_cell := error_code;
                   os_calls := mapped ++ [close] |}
            end
          end
    end
  end.

(** The argument [num_locks] of the source is [num_locks'] here, beside
    the field [num_locks] of the segment. *)
Definition open_lock_shm (p : platform) (os : os_t) (path : option string)
    (num_locks' : Z) (error_code : option Z) : lifecycle_result :=
  match error_code with
  | None => {| returned := None; error_code_cell := None; os_calls := [] |}
  | Some _ =>
    let fail e calls :=
      {| returned := None; error_code_cell := Some e; os_calls := calls |} in
    if num_locks' =? 0 then fail (-1 * EINVAL) []
    else match path with
    | None => fail (-1 * EINVAL) []
    | Some path =>
      let num_bitmaps := bitmaps_required num_locks' in
      let shm_size := compute_shm_size p num_bitmaps in
      let '(shm_fd, errno) := shm_open_answer os path false in
      if shm_fd <? 0 then fail (-1 * errno) [shm_open path false]
      else
        let mapped := [shm_open path false; mmap shm_size; close] in
        match mmap_errno os shm_size with
        | Some errno => fail (-1 * errno) mapped
        | None =>
            let shm := mapped_region os in
            let CLEANUP := [munmap shm_size] in
            if negb (magic shm =? MAGIC) then
              fail (-1 * EBADF) (mapped ++ CLEANUP)
            else if negb (to_size_t p (num_locks shm)
                          =? to_size_t p (num_bitmaps * BITMAP_SIZE)) then
              fail (-1 * ERANGE) (mapped ++ CLEANUP)
            else
              {| returned := Some shm; error_code_cell := error_code;
                 os_calls := mapped |}
        end
    end
  end.

(** [close_lock_shm]: the value returned and the calls made on the
    operating system. [munmap_answer] is what [munmap] answers for a
    length, its return value and [errno]; like the answers of [os_t] it
    is an input of the model. *)
Definition close_lock_shm (p : platform) (munmap_answer : Z -> Z * Z)
    (shm : option shm_struct_t) : Z * list os_call :=
  match shm with
  | None => (-1 * EINVAL, [])
  | Some shm =>
      let shm_size := compute_shm_size p (num_bitmaps shm) in
      let '(ret_code, errno) := munmap_answer shm_size in
      if negb (ret_code =? 0) then (-1 * errno, [munmap shm_size])
      else (0, [munmap shm_size])
  end.

(** The search of [allocate_scan] alone, for the proofs: the group, the
    mask and the position the loops stop at, or [None] when they run to
    the end ([allocate_scan_search]). *)
Fixpoint first_free (rounds : nat) (i : Z) (groups : list lock_group_t)
    : outcome (option (Z * lock_group_t * Z * Z)) :=
  match rounds with
  | O => Returns None
  | S rounds' =>
      g ← array_get groups i;
      if negb (bitmap g =? 0xFFFFFFFF) then
        match scan_bitmap 33 (bitmap g) 1 0 with
        | Some (test_map, num_within_bitmap) =>
            Returns (Some (i, g, test_map, num_within_bitmap))
        | None => first_free rounds' (i + 1) groups
        end
      else first_free rounds' (i + 1) groups
  end.

(** The end of the three allocation operations: the allocation lock is
    released, and [r] is returned unless the release fails. *)
Definition release_and_return (self : ctx) (shm : shm_struct_t) (r : Z)
    : outcome (Z * shm_struct_t) :=
  '(ret_code, m) ← release_mutex self (segment_lock shm);
  let shm := set_segment_lock shm m in
  if negb (ret_code =? 0) then Returns (-1 * ret_code, shm)
  else Returns (r, shm).

(** [allocate_semaphore] called [n] times in a row: the values returned,
    up to a call that does not return. *)
Fixpoint allocate_repeatedly (self : ctx) (n : nat) (shm : option shm_struct_t)
    : list Z :=
  match n with
  | O => []
  | S n' =>
      match allocate_semaphore self shm with
      | Returns (r, shm') => r :: allocate_repeatedly self n' shm'
      | _ => []
      end
  end.

(** The shape the three allocation operations share on a valid call,
    for the proofs: the allocation lock is taken, one bitmap is written
    ([change] names the group and the new bitmap) or none, the lock is
    released, and [r] is returned unless a lock call fails. *)
Definition apply_change (shm : shm_struct_t) (change : option (Z * Z))
    : shm_struct_t :=
  match change with
  | Some (gi, b) => set_bitmap shm gi b
  | None => shm
  end.

Definition guarded_update (self : ctx) (shm : shm_struct_t)
    (change : option (Z * Z)) (r : Z) : outcome (Z * option shm_struct_t) :=
  '(ret_code, m) ← take_mutex self (segment_lock shm) false;
  let shm := set_segment_lock shm m in
  if negb (ret_code =? 0) then Returns (-1 * ret_code, Some shm)
  else
    '(r', shm) ← release_and_return self (apply_change shm change) r;
    Returns (r', Some shm).

(** What [allocate_semaphore] writes and returns on the groups [groups]
    of a segment with [n] groups. *)
Definition allocation_found (n : Z) (groups : list lock_group_t)
    : option (Z * Z) * Z :=
  match first_free (Z.to_nat n) 0 groups with
  | Returns (Some (gi, g, test_map, num_within_bitmap)) =>
      (Some (gi, Z.lor (bitmap g) test_map),
       BITMAP_SIZE * gi + num_within_bitmap)
  | _ => (None, -1 * ENOSPC)
  end.

(** ** Conditions on the calls of the lock primitive *)

(** A call that answers [EAGAIN] has used up one queued answer. *)
Definition uses_up_queue
    (call : pthread_mutex_t -> outcome (Z * pthread_mutex_t)) : Prop :=
  forall mutex mutex',
    call mutex = Returns (EAGAIN, mutex') ->
    (length (pending mutex') < length (pending mutex))%nat.

(** The return codes of a call on the lock primitive are not negative. *)
Definition answers_nonneg
    (call : pthread_mutex_t -> outcome (Z * pthread_mutex_t)) : Prop :=
  forall mutex rc mutex', call mutex = Returns (rc, mutex') -> 0 <= rc.

(** ** Well-formed segments *)

(** A group as [lock_group_t] lays it out: a 32-bit bitmap and
    [BITMAP_SIZE] locks. *)
Definition group_ok (g : lock_group_t) : Prop :=
  0 <= bitmap g < 2 ^ 32 /\ length (group_locks g) = Z.to_nat BITMAP_SIZE.

(** A segment as section 3 of the specification has it: [num_bitmaps]
    groups follow the header, and [num_locks] is [num_bitmaps] times the
    group size, within a [uint32_t]. *)
Record segment_ok (shm : shm_struct_t) : Prop := {
  ok_num_bitmaps : 0 <= num_bitmaps shm;
  ok_num_locks : num_locks shm = num_bitmaps shm * BITMAP_SIZE;
  ok_num_locks_range : num_locks shm < 2 ^ 32;
  ok_length : Z.of_nat (length (locks shm)) = num_bitmaps shm;
  ok_groups : Forall group_ok (locks shm)
}.

(** The allocation bitmaps of the groups, in order. *)
Definition bitmaps (shm : shm_struct_t) : list Z := bitmap <$> locks shm.

(** [f] applied to the segment a call leaves, the return value kept. *)
Definition with_segment (f : shm_struct_t -> shm_struct_t)
    (res : Z * option shm_struct_t) : Z * option shm_struct_t :=
  (res.1, f <$> res.2).



(** The header fields the allocation and lock operations never write. *)
Definition same_header (shm shm' : shm_struct_t) : Prop :=
  magic shm' = magic shm /\ unused shm' = unused shm
  /\ num_bitmaps shm' = num_bitmaps shm /\ num_locks shm' = num_locks shm.

(** The number of bits set among the positions below [n], and the
    population count of a 32-bit bitmap: the count the specification
    gives for [availableCount], beside the loop of [available_locks]. *)
Fixpoint popcount_upto (n : nat) (bm : Z) : Z :=
  match n with
  | O => 0
  | S n' => popcount_upto n' bm + (if Z.testbit bm (Z.of_nat n') then 1 else 0)
  end.

Definition popcount (bm : Z) : Z := popcount_upto 32 bm.

(** The sum over the groups of 32 less the population count of the
    bitmap. *)
Definition free_slots (groups : list lock_group_t) : Z :=
  foldr (fun g acc => (32 - popcount (bitmap g)) + acc) 0 groups.

(** ** Segments to run the operations on *)

(** An operating system on which every call succeeds and the mapping
    shows the segment [region]. *)
Definition os_mapping (region : shm_struct_t) : os_t :=
  {| shm_open_answer := fun _ _ => (3, 0);
     ftruncate_answer := fun _ => (0, 0);
     mmap_errno := fun _ => None;
     mapped_region := region;
     mutexattr_init_answer := 0;
     mutexattr_settype_answer := 0;
     mutexattr_setpshared_answer := 0;
     mutexattr_setrobust_answer := 0;
     mutex_init_answer := fun _ => 0 |}.

(** The same with nothing of interest in the mapping, for the creation
    of a segment. *)
Definition willing_os : os_t :=
  os_mapping {| magic := 0; unused := 0; segment_lock := mutex_initial;
                num_bitmaps := 0; num_locks := 0; locks := [] |}.

(** The segment [setup_lock_shm] makes for [num_bitmaps] groups. *)
Definition fresh_segment (num_bitmaps : Z) : shm_struct_t :=
  {| magic := MAGIC; unused := 0; segment_lock := mutex_initial;
     num_bitmaps := num_bitmaps;
     num_locks := uint32 (num_bitmaps * BITMAP_SIZE);
     locks := replicate (Z.to_nat num_bitmaps)
                {| bitmap := 0;
                   group_locks := replicate (Z.to_nat BITMAP_SIZE) mutex_initial |} |}.

(** The segment of 64 locks with group 0 full and the slots 32, 33, 34
    of group 1 allocated; and with both groups full. *)
Definition partly_allocated_segment : shm_struct_t :=
  set_bitmap (set_bitmap (fresh_segment 2) 0 0xFFFFFFFF) 1 7.
Definition full_segment : shm_struct_t :=
  set_bitmap (set_bitmap (fresh_segment 2) 0 0xFFFFFFFF) 1 0xFFFFFFFF.


(** The names section 6 of the specification allows: one leading
    separator, no further separator, at most 255 bytes with the
    terminating null. This is the specification's condition; the code
    has no such check. *)
Fixpoint has_separator (s : string) : bool :=
  match s with
  | EmptyString => false
  | String c rest => Ascii.eqb c "/"%char || has_separator rest
  end.

Definition name_well_formed (name : string) : bool :=
  match name with
  | EmptyString => false
  | String c rest =>
      Ascii.eqb c "/"%char && negb (has_separator rest)
      && (Z.of_nat (String.length name) + 1 <=? 255)
  end.

(** ** Further notions for the statements *)

(** The groups with every bitmap reset, the locks as they are: what the
    loop of [deallocate_all_semaphores] leaves. *)
Definition clear_bitmaps (groups : list lock_group_t) : list lock_group_t :=
  (fun g => {| bitmap := 0; group_locks := group_locks g |}) <$> groups.

(** The locks of the slots, group by group. *)
Definition slot_locks (shm : shm_struct_t) : list (list pthread_mutex_t) :=
  group_locks <$> locks shm.

(** The allocation lock as it is while [self] is inside an allocation
    operation. *)
Definition held_by (self : ctx) : pthread_mutex_t :=
  {| state := LockedConsistent self; pending := [] |}.

(** The segment of 64 locks with three slots of group 1 allocated, whose
    allocation lock can no longer be recovered. *)
Definition unusable_lock_segment : shm_struct_t :=
  set_segment_lock partly_allocated_segment
    {| state := Unusable; pending := [] |}.

(** The same segment while context 2 is inside an allocation operation. *)
Definition busy_segment : shm_struct_t :=
  set_segment_lock partly_allocated_segment (held_by 2%nat).

(** The segment of 64 locks in which the holder of the lock of slot 40
    has terminated without releasing it. *)
Definition abandoned_slot_segment : shm_struct_t :=
  set_slot_lock (fresh_segment 2) 1 8 (holder_terminates (held_by 2%nat)).

(** The allocation operations, each called on the segment [shm] with
    the index [i] where it takes one. *)
Definition allocation_calls (self : ctx) (shm : shm_struct_t) (i : Z)
    : list (outcome (Z * option shm_struct_t)) :=
  [allocate_semaphore self (Some shm);
   allocate_given_semaphore self (Some shm) i;
   deallocate_semaphore self (Some shm) i;
   deallocate_all_semaphores self (Some shm);
   available_locks self (Some shm)].

(** An operating system on which the mapping fails for want of memory
    (ENOMEM is 12), and one on which the initialisation of lock 5 of
    group 1 fails with that error; every other call succeeds. *)
Definition os_without_memory : os_t :=
  {| shm_open_answer := fun _ _ => (3, 0);
     ftruncate_answer := fun _ => (0, 0);
     mmap_errno := fun _ => Some 12;
     mapped_region := mapped_region willing_os;
     mutexattr_init_answer := 0;
     mutexattr_settype_answer := 0;
     mutexattr_setpshared_answer := 0;
     mutexattr_setrobust_answer := 0;
     mutex_init_answer := fun _ => 0 |}.


(** The allocation bit of slot [i]. *)
Definition slot_allocated (shm : shm_struct_t) (i : Z) : bool :=
  match locks shm !! Z.to_nat (i / BITMAP_SIZE) with
  | Some g => Z.testbit (bitmap g) (i mod BITMAP_SIZE)
  | None => false
  end.

(** The slots below [n] are allocated and no other. *)
Definition prefix_allocated (n : Z) (shm : shm_struct_t) : Prop :=
  forall i, 0 <= i < num_locks shm -> slot_allocated shm i = (i <? n).

(** The segment of 64 locks in which the lock of slot 40 answers [EPERM]
    to the call that follows its acquisition. *)
Definition faulty_slot_segment : shm_struct_t :=
  set_slot_lock (fresh_segment 2) 1 8
    {| state := Unlocked; pending := [None; Some (Z.to_pos EPERM)] |}.





(** ** Proof tactics *)

(** Evaluation of the conditions of [segment_ok] on a given segment. *)
Ltac segment_ok_by_evaluation :=
  split;
  [ vm_compute; congruence
  | vm_compute; congruence
  | vm_compute; congruence
  | vm_compute; congruence
  | lazymatch goal with
    | |- Forall ?P ?l =>
        let l' := eval vm_compute in l in change (Forall P l')
    end;
    repeat (apply List.Forall_cons;
            [split; [vm_compute; split; congruence | vm_compute; congruence]|]);
    apply List.Forall_nil ].

(** Case analysis along the code of an operation that returned. *)
Ltac along_the_code H :=
  repeat match type of H with
    | context [mbind _ ?m] =>
        lazymatch m with
        | Returns _ => cbn [mbind outcome_bind] in H
        | _ => let E := fresh "E" in
               destruct m as [[]| |] eqn:E; cbn [mbind outcome_bind] in H;
               try discriminate H
        end
    | context [if ?c then _ else _] =>
        let E := fresh "E" in destruct c eqn:E
    end.

(** * Properties *)

(** ** The retry loops *)

Lemma platform_call_queued_error mutex act e rest :
  pending mutex = Some e :: rest ->
  platform_call mutex act
  = Returns (Z.pos e, {| state := state mutex; pending := rest |}).
Proof. intros Hq. unfold platform_call. now rewrite Hq. Qed.

Lemma platform_call_uses_up_queue act :
  (forall s s', act s <> Returns (EAGAIN, s')) ->
  uses_up_queue (fun mutex => platform_call mutex act).
Proof.
  intros Hact [s q] mutex'. unfold platform_call. simpl.
  destruct q as [|[e|] rest]; simpl.
  - destruct (act s) as [[r s']| |] eqn:Ha; simpl; try discriminate.
    intros [= -> <-]. now apply Hact in Ha.
  - intros [= _ <-]. simpl. lia.
  - destruct (act s) as [[r s']| |] eqn:Ha; simpl; try discriminate.
    intros [= -> <-]. now apply Hact in Ha.
Qed.

Lemma lock_uses_up_queue self : uses_up_queue (pthread_mutex_lock self).
Proof.
  apply platform_call_uses_up_queue. intros [] s'; discriminate.
Qed.

Lemma trylock_uses_up_queue self : uses_up_queue (pthread_mutex_trylock self).
Proof.
  apply platform_call_uses_up_queue. intros [] s'; discriminate.
Qed.

Lemma unlock_uses_up_queue self : uses_up_queue (pthread_mutex_unlock self).
Proof.
  apply platform_call_uses_up_queue.
  intros [] s'; try discriminate; case_decide; discriminate.
Qed.

Section retry.
Variable call : pthread_mutex_t -> outcome (Z * pthread_mutex_t).
Hypothesis call_uses_up_queue : uses_up_queue call.

Lemma do_while_EAGAIN_rounds_stable n :
  forall rounds mutex,
    (length (pending mutex) < n)%nat -> (n <= rounds)%nat ->
    do_while_EAGAIN_rounds rounds call mutex
    = do_while_EAGAIN_rounds n call mutex.
Proof.
  induction n as [|n IH]; intros rounds mutex Hlen Hle; [lia|].
  destruct rounds as [|rounds]; [lia|]. simpl.
  destruct (call mutex) as [[r mutex']| |] eqn:Hc; simpl; try reflexivity.
  destruct (r =? EAGAIN) eqn:Hr; [|reflexivity].
  apply Z.eqb_eq in Hr. subst r. apply call_uses_up_queue in Hc.
  apply IH; lia.
Qed.

(** The loop ends within the rounds [do_while_EAGAIN] gives it: more
    rounds change nothing. *)
Lemma do_while_EAGAIN_fuel rounds mutex :
  (length (pending mutex) < rounds)%nat ->
  do_while_EAGAIN_rounds rounds call mutex = do_while_EAGAIN call mutex.
Proof.
  intros Hlen. unfold do_while_EAGAIN.
  apply do_while_EAGAIN_rounds_stable; lia.
Qed.

(** A transient answer is retried. *)
Lemma do_while_EAGAIN_again mutex mutex' :
  call mutex = Returns (EAGAIN, mutex') ->
  do_while_EAGAIN call mutex = do_while_EAGAIN call mutex'.
Proof.
  intros Hc. unfold do_while_EAGAIN at 1.
  cbn [do_while_EAGAIN_rounds]. rewrite Hc. cbn.
  apply do_while_EAGAIN_fuel. now apply call_uses_up_queue.
Qed.
End retry.

(** Transient answers at the head of the queue are retried through. *)
Lemma do_while_EAGAIN_transient act s k rest :
  (forall s s', act s <> Returns (EAGAIN, s')) ->
  let call := fun mutex => platform_call mutex act in
  do_while_EAGAIN call
    {| state := s; pending := replicate k transient ++ rest |}
  = do_while_EAGAIN call {| state := s; pending := rest |}.
Proof.
  intros Hact call. induction k as [|k IH]; [reflexivity|].
  rewrite <- IH.
  apply do_while_EAGAIN_again.
  - now apply platform_call_uses_up_queue.
  - reflexivity.
Qed.

Lemma do_while_EAGAIN_once call mutex r mutex' :
  call mutex = Returns (r, mutex') -> r <> EAGAIN ->
  do_while_EAGAIN call mutex = Returns (r, mutex').
Proof.
  intros Hc Hr. unfold do_while_EAGAIN. simpl. rewrite Hc. simpl.
  apply Z.eqb_neq in Hr. now rewrite Hr.
Qed.

(** ** take_mutex and release_mutex on a lock without queued answers *)

Lemma take_mutex_unlocked self trylock :
  take_mutex self mutex_initial trylock
  = Returns (0, {| state := LockedConsistent self; pending := [] |}).
Proof. destruct trylock; reflexivity. Qed.

Lemma release_mutex_held self :
  release_mutex self {| state := LockedConsistent self; pending := [] |}
  = Returns (0, mutex_initial).
Proof.
  unfold release_mutex.
  erewrite do_while_EAGAIN_once with (r := 0); [reflexivity| |discriminate].
  unfold pthread_mutex_unlock, platform_call. simpl.
  now rewrite decide_True.
Qed.

Lemma take_mutex_busy self h :
  take_mutex self {| state := LockedConsistent h; pending := [] |} true
  = Returns (EBUSY, {| state := LockedConsistent h; pending := [] |}).
Proof. reflexivity. Qed.

(** ** Recovery of an abandoned lock *)

Lemma lock_never_EAGAIN self s s' :
  match s with
  | Unlocked => Returns (0, LockedConsistent self)
  | LockedConsistent _ => Blocks
  | LockedAbandoned => Returns (EOWNERDEAD, LockedRecovering self)
  | LockedRecovering _ => Blocks
  | Unusable => Returns (ENOTRECOVERABLE, Unusable)
  end <> Returns (EAGAIN, s').
Proof. destruct s; discriminate. Qed.

Lemma trylock_never_EAGAIN self s s' :
  match s with
  | Unlocked => Returns (0, LockedConsistent self)
  | LockedConsistent h => Returns (EBUSY, LockedConsistent h)
  | LockedAbandoned => Returns (EOWNERDEAD, LockedRecovering self)
  | LockedRecovering h => Returns (EBUSY, LockedRecovering h)
  | Unusable => Returns (ENOTRECOVERABLE, Unusable)
  end <> Returns (EAGAIN, s').
Proof. destruct s; discriminate. Qed.

Lemma unlock_never_EAGAIN self s s' :
  match s with
  | LockedConsistent h =>
      if decide (h = self) then Returns (0, Unlocked)
      else Returns (EPERM, s)
  | LockedRecovering h =>
      if decide (h = self) then Returns (0, Unusable)
      else Returns (EPERM, s)
  | _ => Returns (EPERM, s)
  end <> Returns (EAGAIN, s').
Proof. destruct s; try discriminate; case_decide; discriminate. Qed.

(** The first part of [take_mutex] on an abandoned lock: after any
    number of transient answers the acquisition reports the dead owner
    and the caller holds the lock, not yet consistent. *)
Lemma acquire_abandoned self trylock k rest :
  let mutex := {| state := LockedAbandoned;
                  pending := replicate k transient ++ None :: rest |} in
  (if negb trylock then do_while_EAGAIN (pthread_mutex_lock self) mutex
   else do_while_EAGAIN (pthread_mutex_trylock self) mutex)
  = Returns (EOWNERDEAD, {| state := LockedRecovering self; pending := rest |}).
Proof.
  intros mutex. subst mutex. destruct trylock; cbn [negb].
  - unfold pthread_mutex_trylock.
    rewrite do_while_EAGAIN_transient by apply trylock_never_EAGAIN.
    reflexivity.
  - unfold pthread_mutex_lock.
    rewrite do_while_EAGAIN_transient by apply lock_never_EAGAIN.
    reflexivity.
Qed.

Lemma acquire_abandoned_quiet self trylock k :
  let mutex := {| state := LockedAbandoned;
                  pending := replicate k transient ++ [] |} in
  (if negb trylock then do_while_EAGAIN (pthread_mutex_lock self) mutex
   else do_while_EAGAIN (pthread_mutex_trylock self) mutex)
  = Returns (EOWNERDEAD, {| state := LockedRecovering self; pending := [] |}).
Proof.
  intros mutex. subst mutex. destruct trylock; cbn [negb].
  - unfold pthread_mutex_trylock.
    rewrite do_while_EAGAIN_transient by apply trylock_never_EAGAIN.
    reflexivity.
  - unfold pthread_mutex_lock.
    rewrite do_while_EAGAIN_transient by apply lock_never_EAGAIN.
    reflexivity.
Qed.

(** C4. An acquisition, blocking or not, that finds the lock abandoned
    by a terminated holder marks it consistent and succeeds, and the
    caller is the new holder, also after transient answers of the
    platform. When marking it consistent fails with the error [e],
    [take_mutex] returns [e] at once: the answers still queued for the
    lock ([rest]) are untouched, so no further call on the lock was
    made. *)
Theorem take_mutex_abandoned_lock
    (self h : ctx) (trylock : bool) (k : nat)
    (rest : list (option positive)) (e : positive) :
  let abandoned queue :=
    holder_terminates
      {| state := LockedConsistent h;
         pending := replicate k transient ++ queue |} in
  state (abandoned rest) = LockedAbandoned
  /\ take_mutex self (abandoned []) trylock
     = Returns (0, {| state := LockedConsistent self; pending := [] |})
  /\ take_mutex self (abandoned (None :: None :: rest)) trylock
     = Returns (0, {| state := LockedConsistent self; pending := rest |})
  /\ take_mutex self (abandoned (None :: Some e :: rest)) trylock
     = Returns (Z.pos e, {| state := LockedRecovering self; pending := rest |}).
Proof.
  intros abandoned. unfold abandoned, holder_terminates. cbn [state pending].
  split; [reflexivity|]. unfold take_mutex.
  pose proof (acquire_abandoned_quiet self trylock k) as Hq.
  pose proof (acquire_abandoned self trylock k (None :: rest)) as Hok.
  pose proof (acquire_abandoned self trylock k (Some e :: rest)) as Hfail.
  cbv zeta in Hq, Hok, Hfail. rewrite Hq, Hok, Hfail.
  cbn [mbind outcome_bind].
  replace (EOWNERDEAD =? EOWNERDEAD) with true by reflexivity.
  unfold pthread_mutex_consistent, platform_call. cbn [state pending].
  rewrite decide_True by reflexivity. cbn.
  repeat split.
Qed.

(** ** Reading and writing the arrays of the segment *)

Lemma set_locks_same shm : set_locks shm (locks shm) = shm.
Proof. now destruct shm. Qed.

Lemma set_slot_lock_same shm i j g m :
  locks shm !! Z.to_nat i = Some g ->
  group_locks g !! Z.to_nat j = Some m ->
  set_slot_lock shm i j m = shm.
Proof.
  intros Hg Hm. unfold set_slot_lock. rewrite Hg.
  rewrite (list_insert_id (group_locks g)) by assumption.
  replace {| bitmap := bitmap g; group_locks := group_locks g |} with g
    by now destruct g.
  rewrite list_insert_id by assumption. apply set_locks_same.
Qed.

Lemma set_slot_lock_twice shm i j a b :
  set_slot_lock (set_slot_lock shm i j a) i j b = set_slot_lock shm i j b.
Proof.
  unfold set_slot_lock.
  destruct (locks shm !! Z.to_nat i) as [g|] eqn:Hg; [|now rewrite Hg].
  cbn [locks set_locks].
  rewrite list_lookup_insert_eq by (eapply lookup_lt_Some; eassumption).
  cbn [bitmap group_locks magic unused segment_lock num_bitmaps num_locks].
  now rewrite !list_insert_insert_eq.
Qed.

Lemma valid_index_split shm i :
  segment_ok shm -> 0 <= i < num_locks shm ->
  0 <= i / BITMAP_SIZE < num_bitmaps shm /\ 0 <= i mod BITMAP_SIZE < 32.
Proof.
  intros Hok Hi. rewrite (ok_num_locks shm Hok) in Hi.
  unfold BITMAP_SIZE in *. split.
  - split; [apply Z.div_pos; lia|]. apply Z.div_lt_upper_bound; lia.
  - apply Z.mod_pos_bound. lia.
Qed.

Lemma group_at shm i :
  segment_ok shm -> 0 <= i < num_bitmaps shm ->
  exists g, locks shm !! Z.to_nat i = Some g /\ group_ok g.
Proof.
  intros Hok Hi.
  destruct (lookup_lt_is_Some_2 (locks shm) (Z.to_nat i)) as [g Hg].
  { pose proof (ok_length shm Hok). lia. }
  exists g. split; [assumption|].
  eapply Forall_lookup_1; [apply (ok_groups shm Hok)|eassumption].
Qed.

Lemma array_get_lookup {A} (l : list A) i a :
  0 <= i -> l !! Z.to_nat i = Some a -> array_get l i = Returns a.
Proof.
  intros Hi Ha. unfold array_get.
  destruct (i <? 0) eqn:Hneg; [apply Z.ltb_lt in Hneg; lia|].
  now rewrite Ha.
Qed.

(** A valid index names a lock of the segment. *)
Lemma slot_lock_valid shm i :
  segment_ok shm -> 0 <= i < num_locks shm ->
  exists g m,
    locks shm !! Z.to_nat (i / BITMAP_SIZE) = Some g
    /\ group_locks g !! Z.to_nat (i mod BITMAP_SIZE) = Some m
    /\ slot_lock shm (i / BITMAP_SIZE) (i mod BITMAP_SIZE) = Returns m.
Proof.
  intros Hok Hi.
  destruct (valid_index_split shm i Hok Hi) as [Hg Hj].
  destruct (group_at shm _ Hok Hg) as (g & Hlook & [_ Hlen]).
  destruct (lookup_lt_is_Some_2 (group_locks g)
              (Z.to_nat (i mod BITMAP_SIZE))) as [m Hm].
  { rewrite Hlen. unfold BITMAP_SIZE in *. lia. }
  exists g, m. repeat split; try assumption.
  unfold slot_lock. rewrite (array_get_lookup _ _ g) by (lia || assumption).
  cbn. apply array_get_lookup; [lia|assumption].
Qed.

Lemma index_checked shm i :
  i < num_locks shm -> (i >=? num_locks shm) = false.
Proof. intros. rewrite Z.geb_leb. apply Z.leb_gt. lia. Qed.

Lemma index_rejected shm i :
  num_locks shm <= i -> (i >=? num_locks shm) = true.
Proof. intros. rewrite Z.geb_leb. apply Z.leb_le. lia. Qed.

(** ** What a successful lock call means *)

Lemma platform_call_answer act mutex r mutex' :
  platform_call mutex act = Returns (r, mutex') ->
  (0 < r /\ state mutex' = state mutex
   /\ (length (pending mutex') < length (pending mutex))%nat)
  \/ act (state mutex) = Returns (r, state mutex').
Proof.
  unfold platform_call. destruct (pending mutex) as [|[e|] q] eqn:Hq.
  - destruct (act (state mutex)) as [[r0 s]| |]; cbn [mbind outcome_bind];
      try discriminate. intros [= <- <-]. now right.
  - intros [= <- <-]. left. cbn. repeat split; lia.
  - destruct (act (state mutex)) as [[r0 s]| |]; cbn [mbind outcome_bind];
      try discriminate. intros [= <- <-]. now right.
Qed.

Lemma do_while_EAGAIN_answer act mutex r mutex' :
  (forall s s', act s <> Returns (EAGAIN, s')) ->
  do_while_EAGAIN (fun m => platform_call m act) mutex = Returns (r, mutex') ->
  (0 < r /\ state mutex' = state mutex)
  \/ act (state mutex) = Returns (r, state mutex').
Proof.
  intros Hact. unfold do_while_EAGAIN.
  generalize (S (length (pending mutex))) as rounds. intros rounds.
  revert mutex. induction rounds as [|rounds IH]; intros mutex;
    cbn [do_while_EAGAIN_rounds]; [discriminate|].
  destruct (platform_call mutex act) as [[r0 m0]| |] eqn:Hcall;
    cbn [mbind outcome_bind]; try discriminate.
  apply platform_call_answer in Hcall.
  destruct (r0 =? EAGAIN) eqn:Heq.
  - apply Z.eqb_eq in Heq. subst r0.
    destruct Hcall as [(_ & Hstate & _)|Hcall]; [|now apply Hact in Hcall].
    intros H. apply IH in H. now rewrite Hstate in H.
  - intros [= <- <-]. destruct Hcall as [(Hr & Hs & _)|Hcall]; auto.
Qed.

(** [take_mutex] returns 0 only with the caller holding the lock in a
    consistent state, whatever the lock's state and queue were. *)
Lemma take_mutex_success self mutex trylock mutex' :
  take_mutex self mutex trylock = Returns (0, mutex') ->
  state mutex' = LockedConsistent self.
Proof.
  unfold take_mutex. intros H.
  assert (Hloop : forall r m,
            (if negb trylock
             then do_while_EAGAIN (pthread_mutex_lock self) mutex
             else do_while_EAGAIN (pthread_mutex_trylock self) mutex)
            = Returns (r, m) ->
            (0 < r /\ state m = state mutex)
            \/ (r = 0 /\ state m = LockedConsistent self)
            \/ (r = EOWNERDEAD /\ state m = LockedRecovering self)
            \/ (r <> 0 /\ r <> EOWNERDEAD)).
  { intros r m Hr. destruct trylock; cbn [negb] in Hr;
      (apply do_while_EAGAIN_answer in Hr;
       [|apply trylock_never_EAGAIN || apply lock_never_EAGAIN]);
      (destruct Hr as [Hr|Hr]; [now left|right]);
      destruct (state mutex); try discriminate; injection Hr as <- <-;
      try (now left); try (right; now left);
      right; right; split; discriminate. }
  destruct (if negb trylock then _ else _) as [[r m]| |];
    cbn [mbind outcome_bind] in H; try discriminate.
  specialize (Hloop r m eq_refl).
  destruct (r =? EOWNERDEAD) eqn:Hdead.
  - apply Z.eqb_eq in Hdead. subst r.
    destruct (pthread_mutex_consistent self m) as [[r2 m2]| |] eqn:Hc;
      cbn [mbind outcome_bind] in H; try discriminate.
    assert (r2 = 0 /\ m2 = mutex') as [-> ->].
    { destruct (r2 =? 0) eqn:Hz; cbn [negb] in H.
      - apply Z.eqb_eq in Hz. now injection H as <-.
      - injection H as -> <-. now rewrite Z.eqb_refl in Hz. }
    apply platform_call_answer in Hc. destruct Hc as [(Hpos & _)|Hc]; [lia|].
    destruct (state m); try discriminate.
    case_decide; [|discriminate]. now injection Hc as <-.
  - apply Z.eqb_neq in Hdead.
    assert (r = 0 /\ m = mutex') as [-> ->].
    { destruct (r =? 0) eqn:Hz; cbn [negb] in H.
      - apply Z.eqb_eq in Hz. now injection H as <-.
      - injection H as -> <-. now rewrite Z.eqb_refl in Hz. }
    destruct Hloop as [(Hpos & _)|[(_ & Hs)|[(Hd & _)|(Hnz & _)]]];
      [lia|exact Hs|discriminate Hd|contradiction].
Qed.

(** [release_mutex] returns 0 only to the holder, and leaves the lock
    without a holder. *)
Lemma release_mutex_success self mutex mutex' :
  release_mutex self mutex = Returns (0, mutex') ->
  holder_of mutex = Some self /\ holder_of mutex' = None.
Proof.
  unfold release_mutex. intros H.
  destruct (do_while_EAGAIN (pthread_mutex_unlock self) mutex)
    as [[r m]| |] eqn:Hloop; cbn [mbind outcome_bind] in H; try discriminate.
  assert (r = 0 /\ m = mutex') as [-> ->].
  { destruct (r =? 0) eqn:Hz; cbn [negb] in H.
    - apply Z.eqb_eq in Hz. now injection H as <-.
    - injection H as -> <-. now rewrite Z.eqb_refl in Hz. }
  apply do_while_EAGAIN_answer in Hloop; [|apply unlock_never_EAGAIN].
  destruct Hloop as [(Hpos & _)|Hloop]; [lia|].
  unfold holder_of.
  destruct (state mutex); try discriminate;
    (case_decide; [|discriminate]); subst; injection Hloop as <-; now split.
Qed.

(** ** The probe *)

(** [take_mutex] with [trylock] on a lock that lets the call proceed. *)
Lemma take_mutex_trylock_proceeds self s rest :
  take_mutex self {| state := s; pending := None :: rest |} true
  = match s with
    | Unlocked =>
        Returns (0, {| state := LockedConsistent self; pending := rest |})
    | LockedConsistent h =>
        Returns (EBUSY, {| state := LockedConsistent h; pending := rest |})
    | LockedRecovering h =>
        Returns (EBUSY, {| state := LockedRecovering h; pending := rest |})
    | LockedAbandoned =>
        '(ret_code, mutex) ←
          pthread_mutex_consistent self
            {| state := LockedRecovering self; pending := rest |};
        if negb (ret_code =? 0) then Returns (ret_code, mutex)
        else Returns (0, mutex)
    | Unusable =>
        Returns (ENOTRECOVERABLE, {| state := Unusable; pending := rest |})
    end.
Proof.
  unfold take_mutex. cbn [negb].
  assert (Hcall : forall r s',
            pthread_mutex_trylock self {| state := s; pending := None :: rest |}
            = Returns (r, {| state := s'; pending := rest |}) ->
            r <> EAGAIN ->
            do_while_EAGAIN (pthread_mutex_trylock self)
              {| state := s; pending := None :: rest |}
            = Returns (r, {| state := s'; pending := rest |}))
    by (intros; now apply do_while_EAGAIN_once).
  destruct s.
  - now rewrite (Hcall 0 (LockedConsistent self) eq_refl) by discriminate.
  - now rewrite (Hcall EBUSY (LockedConsistent holder) eq_refl)
      by discriminate.
  - now rewrite (Hcall EOWNERDEAD (LockedRecovering self) eq_refl)
      by discriminate.
  - now rewrite (Hcall EBUSY (LockedRecovering holder) eq_refl)
      by discriminate.
  - now rewrite (Hcall ENOTRECOVERABLE Unusable eq_refl) by discriminate.
Qed.

(** [release_mutex] by the holder, on a lock that lets the call proceed
    and on one that answers with an error. *)
Lemma release_mutex_proceeds self rest :
  release_mutex self {| state := LockedConsistent self; pending := None :: rest |}
  = Returns (0, {| state := Unlocked; pending := rest |}).
Proof.
  unfold release_mutex.
  erewrite do_while_EAGAIN_once with (r := 0); [reflexivity| |discriminate].
  unfold pthread_mutex_unlock, platform_call. cbn [pending state].
  now rewrite decide_True.
Qed.

Lemma release_mutex_refused self s e rest :
  Z.pos e <> EAGAIN ->
  release_mutex self {| state := s; pending := Some e :: rest |}
  = Returns (Z.pos e, {| state := s; pending := rest |}).
Proof.
  intros He. unfold release_mutex.
  erewrite do_while_EAGAIN_once with (r := Z.pos e);
    [reflexivity|reflexivity|assumption].
Qed.

(** C6. On a valid index [try_lock] is the acquisition without waiting
    followed, when it succeeds, by the release: whatever the state of the
    slot's lock and the answers queued on it, the probe returns 1 with
    the lock as [release_mutex] leaves it after [take_mutex] took it (the
    caller being the holder in between), the negated error of a release
    that fails, with the lock as that release leaves it, 0 when
    [take_mutex] answers [EBUSY], and the negated error of any other
    failed acquisition, with the lock as [take_mutex] leaves it. So a
    free lock is taken and released at once and the probe returns 1
    (Free), the segment being as before; both calls use up an answer
    queued on the lock; a release that is refused leaves the caller
    holding the lock. A lock that is held makes the probe return 0
    (Held), the segment and with it the holder being as before, after the
    one call of the acquisition and no release. An index not below
    [num_locks] and a NULL segment give [-EINVAL]. *)
Theorem try_lock_probe (self : ctx) (shm : shm_struct_t) (i : Z) :
  (segment_ok shm -> 0 <= i < num_locks shm ->
   forall m,
     slot_lock shm (i / BITMAP_SIZE) (i mod BITMAP_SIZE) = Returns m ->
     let put m' :=
       Some (set_slot_lock shm (i / BITMAP_SIZE) (i mod BITMAP_SIZE) m') in
     (forall held m',
        take_mutex self m true = Returns (0, held) ->
        release_mutex self held = Returns (0, m') ->
        holder_of held = Some self
        /\ try_lock self (Some shm) i = Returns (1, put m'))
     /\ (forall held rc m',
           take_mutex self m true = Returns (0, held) ->
           release_mutex self held = Returns (rc, m') -> rc <> 0 ->
           try_lock self (Some shm) i = Returns (-1 * rc, put m'))
     /\ (forall m',
           take_mutex self m true = Returns (EBUSY, m') ->
           try_lock self (Some shm) i = Returns (0, put m'))
     /\ (forall rc m',
           take_mutex self m true = Returns (rc, m') ->
           rc <> 0 -> rc <> EBUSY ->
           try_lock self (Some shm) i = Returns (-1 * rc, put m'))
     /\ (pending m = [] ->
         (state m = Unlocked ->
          exists held,
            take_mutex self m true = Returns (0, held)
            /\ holder_of held = Some self
            /\ release_mutex self held = Returns (0, m)
            /\ try_lock self (Some shm) i = Returns (1, Some shm))
         /\ (forall h, state m = LockedConsistent h ->
             try_lock self (Some shm) i = Returns (0, Some shm)))
     /\ (forall rest,
           state m = Unlocked -> pending m = None :: None :: rest ->
           try_lock self (Some shm) i
           = Returns (1, put {| state := Unlocked; pending := rest |}))
     /\ (forall e rest,
           state m = Unlocked -> pending m = None :: Some e :: rest ->
           Z.pos e <> EAGAIN ->
           try_lock self (Some shm) i
           = Returns (-1 * Z.pos e,
                      put {| state := LockedConsistent self;
                             pending := rest |}))
     /\ (forall h rest,
           state m = LockedConsistent h -> pending m = None :: rest ->
           try_lock self (Some shm) i
           = Returns (0, put {| state := LockedConsistent h;
                                pending := rest |})))
  /\ (num_locks shm <= i ->
      try_lock self (Some shm) i = Returns (-1 * EINVAL, Some shm))
  /\ try_lock self None i = Returns (-1 * EINVAL, None).
Proof.
  split; [|split; [|reflexivity]].
  2: { intros Hi. unfold try_lock. now rewrite index_rejected. }
  intros Hok Hi m Hslot put.
  destruct (slot_lock_valid shm i Hok Hi) as (g & m' & Hg & Hm & Hslot').
  rewrite Hslot in Hslot'. injection Hslot' as <-.
  assert (Hrun : try_lock self (Some shm) i
                 = ('(ret_code, mutex) ← take_mutex self m true;
                    if ret_code =? EBUSY then Returns (0, put mutex)
                    else if negb (ret_code =? 0)
                    then Returns (-1 * ret_code, put mutex)
                    else
                      '(ret_code, mutex') ← release_mutex self mutex;
                      if negb (ret_code =? 0)
                      then Returns (-1 * ret_code, put mutex')
                      else Returns (1, put mutex'))).
  { unfold try_lock. rewrite index_checked by lia. cbv zeta.
    rewrite Hslot. cbn [mbind outcome_bind].
    destruct (take_mutex self m true) as [[rc m1]| |];
      cbn [mbind outcome_bind]; [|reflexivity..].
    destruct (rc =? EBUSY); [reflexivity|].
    destruct (negb (rc =? 0)); [reflexivity|].
    destruct (release_mutex self m1) as [[rc2 m2]| |];
      cbn [mbind outcome_bind]; [|reflexivity..].
    unfold put. now rewrite set_slot_lock_twice. }
  assert (Hfree : forall held m2,
            take_mutex self m true = Returns (0, held) ->
            release_mutex self held = Returns (0, m2) ->
            try_lock self (Some shm) i = Returns (1, put m2)).
  { intros held m2 Htake Hrel. rewrite Hrun, Htake.
    cbn [mbind outcome_bind]. change (0 =? EBUSY) with false.
    cbn [Z.eqb negb]. now rewrite Hrel. }
  assert (Hrefused : forall held rc m2,
            take_mutex self m true = Returns (0, held) ->
            release_mutex self held = Returns (rc, m2) -> rc <> 0 ->
            try_lock self (Some shm) i = Returns (-1 * rc, put m2)).
  { intros held rc m2 Htake Hrel Hrc. rewrite Hrun, Htake.
    cbn [mbind outcome_bind]. change (0 =? EBUSY) with false.
    cbn [Z.eqb negb]. rewrite Hrel. cbn [mbind outcome_bind].
    apply Z.eqb_neq in Hrc. now rewrite Hrc. }
  assert (Hbusy : forall m1,
            take_mutex self m true = Returns (EBUSY, m1) ->
            try_lock self (Some shm) i = Returns (0, put m1)).
  { intros m1 Htake. rewrite Hrun, Htake. cbn [mbind outcome_bind].
    now change (EBUSY =? EBUSY) with true. }
  assert (Hsame : put m = Some shm)
    by (unfold put; now rewrite (set_slot_lock_same shm _ _ g)).
  split; [|split; [exact Hrefused|split; [exact Hbusy|split]]].
  - intros held m2 Htake Hrel. split; [|now apply Hfree with held].
    unfold holder_of. now rewrite (take_mutex_success _ _ _ _ Htake).
  - intros rc m1 Htake Hrc Hbusy'. rewrite Hrun, Htake.
    cbn [mbind outcome_bind]. apply Z.eqb_neq in Hrc, Hbusy'.
    now rewrite Hrc, Hbusy'.
  - destruct m as [st q]. cbn [pending state] in *.
    split; [|split; [|split]].
    + intros ->. split.
      * intros ->. exists (held_by self). fold mutex_initial in *.
        rewrite take_mutex_unlocked. unfold held_by.
        rewrite release_mutex_held.
        split; [reflexivity|]. split; [reflexivity|].
        split; [reflexivity|].
        rewrite (Hfree _ mutex_initial (take_mutex_unlocked self true)
                   (release_mutex_held self)).
        now rewrite Hsame.
      * intros h ->. rewrite (Hbusy _ (take_mutex_busy self h)).
        now rewrite Hsame.
    + intros rest -> ->.
      apply Hfree with {| state := LockedConsistent self;
                          pending := None :: rest |};
        [apply take_mutex_trylock_proceeds|apply release_mutex_proceeds].
    + intros e rest -> -> He.
      apply Hrefused with {| state := LockedConsistent self;
                             pending := Some e :: rest |};
        [apply take_mutex_trylock_proceeds
        |now apply release_mutex_refused|discriminate].
    + intros h rest -> ->. apply Hbusy.
      apply (take_mutex_trylock_proceeds self (LockedConsistent h)).
Qed.

Lemma uint32_small z : 0 <= z < 2 ^ 32 -> uint32 z = z.
Proof. intros. unfold uint32. now apply Z.mod_small. Qed.

(** The segment made for up to [2^27 - 1] groups is well formed. *)
Lemma fresh_segment_ok n : 0 <= n < 2 ^ 27 -> segment_ok (fresh_segment n).
Proof.
  intros Hn. unfold fresh_segment.
  split; cbn [num_bitmaps num_locks locks]; unfold BITMAP_SIZE.
  - lia.
  - apply uint32_small. lia.
  - unfold uint32. apply Z.mod_pos_bound. lia.
  - rewrite length_replicate. lia.
  - apply Forall_replicate. split; cbn [bitmap group_locks].
    + lia.
    + now rewrite length_replicate.
Qed.

Lemma try_lock_probe_witness :
  try_lock 1%nat (Some (fresh_segment 2)) 40
  = Returns (1, Some (fresh_segment 2))
  /\ (let held :=
        set_slot_lock (fresh_segment 2) 1 8
          {| state := LockedConsistent 2%nat; pending := [] |} in
      try_lock 1%nat (Some held) 40 = Returns (0, Some held))
  /\ try_lock 1%nat (Some (fresh_segment 2)) 64
     = Returns (-1 * EINVAL, Some (fresh_segment 2))
  /\ try_lock 1%nat (Some faulty_slot_segment) 40
     = Returns (-1 * EPERM,
                Some (set_slot_lock faulty_slot_segment
                        (40 / BITMAP_SIZE) (40 mod BITMAP_SIZE)
                        {| state := LockedConsistent 1%nat; pending := [] |})).
Proof.
  split; [|split; [|split]].
  - destruct (try_lock_probe 1%nat (fresh_segment 2) 40) as [H _].
    destruct (H ltac:(segment_ok_by_evaluation)
                ltac:(vm_compute; split; congruence)
                mutex_initial eq_refl) as (_ & _ & _ & _ & Hquiet & _).
    destruct (Hquiet eq_refl) as [Hfree _].
    destruct (Hfree eq_refl) as (held & _ & _ & _ & Hprobe). exact Hprobe.
  - intros held.
    destruct (try_lock_probe 1%nat held 40) as [H _].
    destruct (H ltac:(segment_ok_by_evaluation)
                ltac:(vm_compute; split; congruence)
                {| state := LockedConsistent 2%nat; pending := [] |}
                eq_refl) as (_ & _ & _ & _ & Hquiet & _).
    destruct (Hquiet eq_refl) as [_ Hheld].
    exact (Hheld 2%nat eq_refl).
  - destruct (try_lock_probe 1%nat (fresh_segment 2) 64) as (_ & H & _).
    apply H. vm_compute. congruence.
  - destruct (try_lock_probe 1%nat faulty_slot_segment 40) as [H _].
    destruct (H ltac:(segment_ok_by_evaluation)
                ltac:(vm_compute; split; congruence)
                {| state := Unlocked;
                   pending := [None; Some (Z.to_pos EPERM)] |}
                eq_refl) as (_ & _ & _ & _ & _ & _ & Hrefused & _).
    exact (Hrefused (Z.to_pos EPERM) [] eq_refl eq_refl ltac:(discriminate)).
Defined.

(** ** Lock state and allocation state *)

Lemma same_header_refl shm : same_header shm shm.
Proof. now repeat split. Qed.

Lemma same_header_trans a b c :
  same_header a b -> same_header b c -> same_header a c.
Proof. unfold same_header. intuition congruence. Qed.

Lemma set_slot_lock_header shm i j m : same_header shm (set_slot_lock shm i j m).
Proof.
  unfold set_slot_lock. destruct (locks shm !! Z.to_nat i); now repeat split.
Qed.

Lemma set_bitmap_header shm i b : same_header shm (set_bitmap shm i b).
Proof.
  unfold set_bitmap. destruct (locks shm !! Z.to_nat i); now repeat split.
Qed.


Lemma bitmaps_set_slot_lock shm i j m :
  bitmaps (set_slot_lock shm i j m) = bitmaps shm.
Proof.
  unfold set_slot_lock, bitmaps.
  destruct (locks shm !! Z.to_nat i) as [g|] eqn:Hg; [|reflexivity].
  cbn [locks set_locks]. rewrite list_fmap_insert. cbn [bitmap].
  apply list_insert_id. now rewrite list_lookup_fmap, Hg.
Qed.

Lemma bitmaps_set_segment_lock shm m :
  bitmaps (set_segment_lock shm m) = bitmaps shm.
Proof. reflexivity. Qed.

Lemma slot_lock_set_bitmap shm gi b i j :
  slot_lock (set_bitmap shm gi b) i j = slot_lock shm i j.
Proof.
  unfold slot_lock, set_bitmap, array_get.
  destruct (locks shm !! Z.to_nat gi) as [g|] eqn:Hg; [|reflexivity].
  cbn [locks set_locks]. destruct (i <? 0); [reflexivity|].
  destruct (decide (Z.to_nat gi = Z.to_nat i)) as [Heq|Hne].
  - rewrite <- Heq, Hg.
    rewrite list_lookup_insert_eq by (eapply lookup_lt_Some; eassumption).
    reflexivity.
  - now rewrite list_lookup_insert_ne.
Qed.

Lemma set_slot_lock_set_bitmap shm gi b i j m :
  set_slot_lock (set_bitmap shm gi b) i j m
  = set_bitmap (set_slot_lock shm i j m) gi b.
Proof.
  unfold set_slot_lock, set_bitmap.
  destruct (locks shm !! Z.to_nat gi) as [g|] eqn:Hg;
    destruct (locks shm !! Z.to_nat i) as [g'|] eqn:Hg';
    cbn [locks set_locks]; rewrite ?Hg, ?Hg'; try reflexivity.
  - destruct (decide (Z.to_nat gi = Z.to_nat i)) as [Heq|Hne].
    + rewrite Heq in *. replace g' with g in * by congruence.
      rewrite !list_lookup_insert_eq by (eapply lookup_lt_Some; eassumption).
      cbn [locks set_locks bitmap group_locks magic unused segment_lock
           num_bitmaps num_locks].
      now rewrite !list_insert_insert_eq.
    + rewrite !list_lookup_insert_ne, Hg, Hg' by congruence.
      cbn [locks set_locks bitmap group_locks magic unused segment_lock
           num_bitmaps num_locks].
      now rewrite list_insert_insert_ne by congruence.
  - rewrite list_lookup_insert_ne, Hg'; [reflexivity|]. intros Heq.
    rewrite Heq in Hg. congruence.
  - rewrite list_lookup_insert_ne, Hg; [reflexivity|]. intros Heq.
    rewrite Heq in Hg'. congruence.
Qed.

Lemma num_locks_set_bitmap shm gi b :
  num_locks (set_bitmap shm gi b) = num_locks shm.
Proof. apply set_bitmap_header. Qed.

Lemma slot_lock_set_slot_lock shm i j g m :
  0 <= i -> 0 <= j ->
  locks shm !! Z.to_nat i = Some g ->
  (Z.to_nat j < length (group_locks g))%nat ->
  slot_lock (set_slot_lock shm i j m) i j = Returns m.
Proof.
  intros Hi Hj Hg Hlen. unfold slot_lock, set_slot_lock. rewrite Hg.
  cbn [locks set_locks].
  erewrite array_get_lookup; [| assumption |].
  2: { apply list_lookup_insert_eq. eapply lookup_lt_Some; eassumption. }
  cbn [mbind outcome_bind group_locks].
  apply array_get_lookup; [assumption|].
  now apply list_lookup_insert_eq.
Qed.

Lemma slot_operation_frame self shm i op r shm' :
  In op [lock_semaphore; unlock_semaphore; try_lock] ->
  op self (Some shm) i = Returns (r, Some shm') ->
  bitmaps shm' = bitmaps shm /\ same_header shm shm'.
Proof.
  intros Hin Hop.
  assert (Hframe : forall a j k m n,
            bitmaps (set_slot_lock (set_slot_lock shm a j m) a k n) = bitmaps shm
            /\ same_header shm (set_slot_lock (set_slot_lock shm a j m) a k n)).
  { intros. rewrite !bitmaps_set_slot_lock. split; [reflexivity|].
    eapply same_header_trans; apply set_slot_lock_header. }
  assert (Hframe1 : forall a j m,
            bitmaps (set_slot_lock shm a j m) = bitmaps shm
            /\ same_header shm (set_slot_lock shm a j m)).
  { intros. rewrite bitmaps_set_slot_lock. split; [reflexivity|].
    apply set_slot_lock_header. }
  destruct Hin as [<-|[<-|[<-|[]]]];
    unfold lock_semaphore, unlock_semaphore, try_lock in Hop;
    cbv zeta in Hop;
    destruct (i >=? num_locks shm);
    try (injection Hop as <- <-; split; [reflexivity|apply same_header_refl]);
    destruct (slot_lock shm _ _) as [m| |]; cbn [mbind outcome_bind] in Hop;
    try discriminate Hop;
    along_the_code Hop; try discriminate Hop; injection Hop as <- <-; auto.
Qed.

Lemma slot_operation_ignores_bitmaps self shm i op gi b :
  In op [lock_semaphore; unlock_semaphore; try_lock] ->
  op self (Some (set_bitmap shm gi b)) i
  = with_segment (fun s => set_bitmap s gi b) <$> op self (Some shm) i.
Proof.
  intros Hin.
  destruct Hin as [<-|[<-|[<-|[]]]];
    unfold lock_semaphore, unlock_semaphore, try_lock; cbv zeta;
    rewrite num_locks_set_bitmap, slot_lock_set_bitmap;
    (destruct (i >=? num_locks shm); [reflexivity|]);
    (destruct (slot_lock shm _ _) as [m| |]; [|reflexivity..]);
    cbn [mbind outcome_bind].
  - destruct (take_mutex self m false) as [[z p]| |]; [|reflexivity..].
    cbn. now rewrite set_slot_lock_set_bitmap.
  - destruct (release_mutex self m) as [[z p]| |]; [|reflexivity..].
    cbn. now rewrite set_slot_lock_set_bitmap.
  - destruct (take_mutex self m true) as [[z p]| |]; [|reflexivity..].
    cbn [mbind outcome_bind]. rewrite !set_slot_lock_set_bitmap.
    destruct (z =? EBUSY); [reflexivity|].
    destruct (negb (z =? 0)); [reflexivity|].
    destruct (release_mutex self p) as [[z' p']| |]; [|reflexivity..].
    cbn [mbind outcome_bind]. rewrite !set_slot_lock_set_bitmap.
    now destruct (negb (z' =? 0)).
Qed.

(** C5. Lock state and allocation state are decoupled. Whatever an
    acquire, a release or a probe returns, every group's bitmap and the
    header are as before. Writing any value into any group's bitmap
    before the call gives the same return value and the same segment as
    writing it after the call: the allocation bits do not enter the
    operation. On a valid index whose lock is free the acquire returns 0
    and the caller holds the lock, and the release that follows returns 0
    and leaves the segment as it was. *)
Theorem slot_locks_decoupled (self : ctx) (shm : shm_struct_t) (i : Z) :
  (forall op r shm',
     In op [lock_semaphore; unlock_semaphore; try_lock] ->
     op self (Some shm) i = Returns (r, Some shm') ->
     bitmaps shm' = bitmaps shm /\ same_header shm shm')
  /\ (forall op gi b,
        In op [lock_semaphore; unlock_semaphore; try_lock] ->
        op self (Some (set_bitmap shm gi b)) i
        = with_segment (fun s => set_bitmap s gi b) <$> op self (Some shm) i)
  /\ (segment_ok shm -> 0 <= i < num_locks shm ->
      slot_lock shm (i / BITMAP_SIZE) (i mod BITMAP_SIZE)
      = Returns mutex_initial ->
      exists shm',
        lock_semaphore self (Some shm) i = Returns (0, Some shm')
        /\ slot_lock shm' (i / BITMAP_SIZE) (i mod BITMAP_SIZE)
           = Returns {| state := LockedConsistent self; pending := [] |}
        /\ unlock_semaphore self (Some shm') i = Returns (0, Some shm)).
Proof.
  split; [|split].
  - intros op r shm'. apply slot_operation_frame.
  - intros op gi b. apply slot_operation_ignores_bitmaps.
  - intros Hok Hi Hslot.
    destruct (slot_lock_valid shm i Hok Hi) as (g & m & Hg & Hm & Hslot').
    rewrite Hslot in Hslot'. injection Hslot' as <-.
    destruct (valid_index_split shm i Hok Hi) as [Hgi Hj].
    assert (Hlen : (Z.to_nat (i mod BITMAP_SIZE) < length (group_locks g))%nat)
      by (eapply lookup_lt_Some; eassumption).
    eexists. split; [|split].
    + unfold lock_semaphore. rewrite index_checked by lia. cbv zeta.
      rewrite Hslot. cbn [mbind outcome_bind].
      rewrite take_mutex_unlocked. reflexivity.
    + eapply slot_lock_set_slot_lock; try eassumption; lia.
    + unfold unlock_semaphore.
      rewrite (proj2 (proj2 (proj2 (set_slot_lock_header shm _ _ _)))).
      rewrite index_checked by lia. cbv zeta.
      erewrite slot_lock_set_slot_lock by (try eassumption; lia).
      cbn [mbind outcome_bind]. rewrite release_mutex_held.
      cbn [mbind outcome_bind]. rewrite set_slot_lock_twice.
      now rewrite (set_slot_lock_same shm _ _ g).
Qed.

Lemma slot_locks_decoupled_witness :
  (let allocated := set_bitmap (fresh_segment 2) 1 256 in
   lock_semaphore 1%nat (Some allocated) 40
   = with_segment (fun s => set_bitmap s 1 256)
       <$> lock_semaphore 1%nat (Some (fresh_segment 2)) 40)
  /\ exists shm',
       lock_semaphore 1%nat (Some (fresh_segment 2)) 40 = Returns (0, Some shm')
       /\ bitmaps shm' = bitmaps (fresh_segment 2)
       /\ unlock_semaphore 1%nat (Some shm') 40
          = Returns (0, Some (fresh_segment 2)).
Proof.
  destruct (slot_locks_decoupled 1%nat (fresh_segment 2) 40)
    as (Hframe & Hbits & Hfree).
  split.
  - apply (Hbits lock_semaphore 1 256). now left.
  - destruct (Hfree ltac:(segment_ok_by_evaluation)
                ltac:(vm_compute; split; congruence) eq_refl)
      as (shm' & Hlock & _ & Hunlock).
    exists shm'. split; [exact Hlock|]. split; [|exact Hunlock].
    apply (Hframe lock_semaphore 0 shm'); [now left|exact Hlock].
Defined.

(** ** Bits of a bitmap *)

Lemma uint32_pow2 k : 0 <= k < 32 -> uint32 (2 ^ k) = 2 ^ k.
Proof.
  intros Hk. apply uint32_small. split; [apply Z.pow_nonneg; lia|].
  apply Z.pow_lt_mono_r; lia.
Qed.

Lemma land_pow2 k bm :
  0 <= k -> Z.land (2 ^ k) bm = if Z.testbit bm k then 2 ^ k else 0.
Proof.
  intros Hk. apply Z.bits_inj'. intros n Hn. rewrite Z.land_spec.
  rewrite Z.pow2_bits_eqb by assumption.
  destruct (k =? n) eqn:Hkn.
  - apply Z.eqb_eq in Hkn. subst n. destruct (Z.testbit bm k).
    + rewrite Z.pow2_bits_eqb by assumption. now rewrite Z.eqb_refl.
    + now rewrite Z.bits_0.
  - destruct (Z.testbit bm k).
    + rewrite Z.pow2_bits_eqb by assumption. now rewrite Hkn.
    + now rewrite Z.bits_0.
Qed.

Lemma pow2_nonzero k : 0 <= k -> 2 ^ k <> 0.
Proof. intros. apply Z.pow_nonzero; lia. Qed.

Lemma shift_mask k :
  0 <= k <= 32 -> uint32 (Z.shiftl (uint32 (2 ^ k)) 1) = uint32 (2 ^ (k + 1)).
Proof.
  intros Hk. destruct (Z.eq_dec k 32) as [->|Hne]; [reflexivity|].
  rewrite uint32_pow2 by lia. rewrite Z.shiftl_mul_pow2 by lia.
  now rewrite Z.pow_add_r by lia.
Qed.

Lemma bits_above_uint32 bm n :
  0 <= bm < 2 ^ 32 -> 32 <= n -> Z.testbit bm n = false.
Proof.
  intros Hbm Hn. rewrite <- (Z.mod_small bm (2 ^ 32)) by assumption.
  apply Z.mod_pow2_bits_high. lia.
Qed.

Lemma full_bitmap_bits q : 0 <= q < 32 -> Z.testbit 0xFFFFFFFF q = true.
Proof. intros Hq. change 0xFFFFFFFF with (Z.ones 32). now apply Z.ones_spec_low. Qed.

Lemma all_bits_set_full bm :
  0 <= bm < 2 ^ 32 ->
  (forall q, 0 <= q < 32 -> Z.testbit bm q = true) -> bm = 0xFFFFFFFF.
Proof.
  intros Hbm Hall. apply Z.bits_inj'. intros n Hn.
  destruct (Z.lt_ge_cases n 32) as [Hlt|Hge].
  - rewrite Hall, full_bitmap_bits; lia.
  - rewrite bits_above_uint32 by (assumption || lia).
    change 0xFFFFFFFF with (Z.ones 32). rewrite Z.ones_spec_high; lia.
Qed.

(** What the inner loop of [allocate_semaphore] finds from position [k]
    on: the first clear bit, or every bit set. *)
Lemma scan_bitmap_from rounds k bm :
  0 <= k <= 32 -> Z.of_nat rounds = 33 - k ->
  match scan_bitmap rounds bm (uint32 (2 ^ k)) k with
  | Some (t, p) =>
      t = 2 ^ p /\ k <= p < 32 /\ Z.testbit bm p = false
      /\ forall q, k <= q < p -> Z.testbit bm q = true
  | None => forall q, k <= q < 32 -> Z.testbit bm q = true
  end.
Proof.
  revert k. induction rounds as [|rounds IH]; intros k Hk Hrounds; [lia|].
  cbn [scan_bitmap].
  destruct (Z.eq_dec k 32) as [->|Hne].
  { change (uint32 (2 ^ 32) =? 0) with true. cbn. intros; lia. }
  rewrite (uint32_pow2 k) by lia.
  destruct (2 ^ k =? 0) eqn:Hz.
  { apply Z.eqb_eq in Hz. now apply pow2_nonzero in Hz; [|lia]. }
  rewrite land_pow2 by lia.
  destruct (Z.testbit bm k) eqn:Hbit.
  - rewrite Hz. rewrite <- (uint32_pow2 k) by lia. rewrite shift_mask by lia.
    specialize (IH (k + 1) ltac:(lia) ltac:(lia)).
    destruct (scan_bitmap rounds bm (uint32 (2 ^ (k + 1))) (k + 1))
      as [[t p]|].
    + destruct IH as (Ht & Hp & Hclear & Hset). repeat split; try lia; try assumption.
      intros q Hq. destruct (Z.eq_dec q k) as [->|]; [assumption|].
      apply Hset. lia.
    + intros q Hq. destruct (Z.eq_dec q k) as [->|]; [assumption|].
      apply IH. lia.
  - cbn. repeat split; solve [lia | assumption | intros; lia].
Qed.

Lemma scan_bitmap_first_clear bm :
  match scan_bitmap 33 bm 1 0 with
  | Some (t, p) =>
      t = 2 ^ p /\ 0 <= p < 32 /\ Z.testbit bm p = false
      /\ forall q, 0 <= q < p -> Z.testbit bm q = true
  | None => forall q, 0 <= q < 32 -> Z.testbit bm q = true
  end.
Proof. apply (scan_bitmap_from 33 0 bm); lia. Qed.

(** Setting a clear bit, and clearing a set bit, as the code does it. *)
Lemma lor_sets_bit bm p q :
  0 <= p -> 0 <= q ->
  Z.testbit (Z.lor bm (2 ^ p)) q = if q =? p then true else Z.testbit bm q.
Proof.
  intros Hp Hq. rewrite Z.lor_spec, Z.pow2_bits_eqb by assumption.
  rewrite (Z.eqb_sym q p). destruct (p =? q); [apply orb_true_r|apply orb_false_r].
Qed.

Lemma land_clears_bit bm p :
  0 <= bm < 2 ^ 32 -> 0 <= p < 32 ->
  forall q, 0 <= q ->
  Z.testbit (Z.land bm (uint32 (Z.lnot (2 ^ p)))) q
  = if q =? p then false else Z.testbit bm q.
Proof.
  intros Hbm Hp q Hq. rewrite Z.land_spec. unfold uint32.
  destruct (Z.lt_ge_cases q 32) as [Hlt|Hge].
  - rewrite Z.mod_pow2_bits_low by lia.
    rewrite Z.lnot_spec, Z.pow2_bits_eqb by lia.
    rewrite (Z.eqb_sym q p). destruct (p =? q); cbn;
      [apply andb_false_r|apply andb_true_r].
  - rewrite bits_above_uint32 by (assumption || lia).
    destruct (q =? p) eqn:E; [reflexivity|reflexivity].
Qed.

Lemma lor_pow2_range bm p :
  0 <= bm < 2 ^ 32 -> 0 <= p < 32 -> 0 <= Z.lor bm (2 ^ p) < 2 ^ 32.
Proof.
  intros Hbm Hp. split.
  - apply Z.lor_nonneg. split; [lia|]. apply Z.pow_nonneg. lia.
  - destruct (Z.eq_dec (Z.lor bm (2 ^ p)) 0) as [->|Hnz]; [lia|].
    apply Z.log2_lt_pow2.
    + assert (0 <= Z.lor bm (2 ^ p)).
      { apply Z.lor_nonneg. split; [lia|]. apply Z.pow_nonneg. lia. }
      lia.
    + rewrite Z.log2_lor by (try lia; apply Z.pow_nonneg; lia).
      rewrite Z.log2_pow2 by lia.
      destruct (Z.eq_dec bm 0) as [->|Hb]; [cbn; lia|].
      assert (Z.log2 bm < 32) by (apply Z.log2_lt_pow2; lia). lia.
Qed.

(** ** The search of allocate_semaphore *)

Lemma allocate_scan_search self rounds i shm :
  allocate_scan self rounds i shm
  = (found ← first_free rounds i (locks shm);
     match found with
     | Some (gi, g, test_map, num_within_bitmap) =>
         release_and_return self
           (set_bitmap shm gi (Z.lor (bitmap g) test_map))
           (BITMAP_SIZE * gi + num_within_bitmap)
     | None => release_and_return self shm (-1 * ENOSPC)
     end).
Proof.
  revert i. induction rounds as [|rounds IH]; intros i; [reflexivity|].
  cbn [allocate_scan first_free].
  destruct (array_get (locks shm) i) as [g| |]; [|reflexivity..].
  cbn [mbind outcome_bind].
  destruct (negb (bitmap g =? 0xFFFFFFFF)); [|apply IH].
  destruct (scan_bitmap 33 (bitmap g) 1 0) as [[t p]|]; [reflexivity|apply IH].
Qed.

Lemma array_get_Returns {A} (l : list A) i a :
  array_get l i = Returns a -> 0 <= i /\ l !! Z.to_nat i = Some a.
Proof.
  unfold array_get. destruct (i <? 0) eqn:Hneg; [discriminate|].
  apply Z.ltb_ge in Hneg. destruct (l !! Z.to_nat i); [|discriminate].
  now intros [= ->].
Qed.

(** The search stops at the first group that is not full, on its first
    clear bit; it runs to the end only over full groups. *)
Lemma first_free_spec groups :
  Forall group_ok groups ->
  forall rounds i,
  match first_free rounds i groups with
  | Returns (Some (gi, g, t, p)) =>
      i <= gi < i + Z.of_nat rounds /\ 0 <= i
      /\ groups !! Z.to_nat gi = Some g
      /\ t = 2 ^ p /\ 0 <= p < 32 /\ Z.testbit (bitmap g) p = false
      /\ (forall q, 0 <= q < p -> Z.testbit (bitmap g) q = true)
      /\ (forall j g', i <= j < gi -> groups !! Z.to_nat j = Some g' ->
          bitmap g' = 0xFFFFFFFF)
  | Returns None =>
      forall j g', i <= j < i + Z.of_nat rounds ->
        groups !! Z.to_nat j = Some g' -> bitmap g' = 0xFFFFFFFF
  | Blocks => False
  | Undefined => ~ (0 <= i /\ i + Z.of_nat rounds <= Z.of_nat (length groups))
  end.
Proof.
  intros Hgroups. induction rounds as [|rounds IH]; intros i.
  { cbn. intros; lia. }
  cbn [first_free].
  destruct (array_get groups i) as [g| |] eqn:Hget; cbn [mbind outcome_bind].
  2: { unfold array_get in Hget. destruct (i <? 0); [discriminate|].
       destruct (groups !! Z.to_nat i); discriminate. }
  2: { unfold array_get in Hget. destruct (i <? 0) eqn:Hneg.
       - apply Z.ltb_lt in Hneg. lia.
       - destruct (groups !! Z.to_nat i) eqn:Hl; [discriminate|].
         apply lookup_ge_None_1 in Hl. lia. }
  apply array_get_Returns in Hget as [Hi Hg].
  assert (Hok : group_ok g) by (eapply Forall_lookup_1; eassumption).
  assert (Hskip : bitmap g = 0xFFFFFFFF ->
    match first_free rounds (i + 1) groups with
    | Returns (Some (gi, g0, t, p)) =>
        i <= gi < i + Z.of_nat (S rounds) /\ 0 <= i
        /\ groups !! Z.to_nat gi = Some g0
        /\ t = 2 ^ p /\ 0 <= p < 32 /\ Z.testbit (bitmap g0) p = false
        /\ (forall q, 0 <= q < p -> Z.testbit (bitmap g0) q = true)
        /\ (forall j g', i <= j < gi -> groups !! Z.to_nat j = Some g' ->
            bitmap g' = 0xFFFFFFFF)
    | Returns None =>
        forall j g', i <= j < i + Z.of_nat (S rounds) ->
          groups !! Z.to_nat j = Some g' -> bitmap g' = 0xFFFFFFFF
    | Blocks => False
    | Undefined =>
        ~ (0 <= i /\ i + Z.of_nat (S rounds) <= Z.of_nat (length groups))
    end).
  { intros Hfull. specialize (IH (i + 1)).
    destruct (first_free rounds (i + 1) groups) as [[[[[gi g0] t] p]|]| |].
    - destruct IH as (Hgi & _ & Hg0 & Ht & Hp & Hclear & Hset & Hbefore).
      repeat split; try lia; try assumption.
      intros j g' Hj Hg'. destruct (Z.eq_dec j i) as [->|Hne].
      + now replace g' with g by congruence.
      + eapply Hbefore; [|eassumption]. lia.
    - intros j g' Hj Hg'. destruct (Z.eq_dec j i) as [->|Hne].
      + now replace g' with g by congruence.
      + eapply IH; [|eassumption]. lia.
    - assumption.
    - lia. }
  destruct (bitmap g =? 0xFFFFFFFF) eqn:Hfull; cbn [negb].
  { apply Z.eqb_eq in Hfull. now apply Hskip. }
  pose proof (scan_bitmap_first_clear (bitmap g)) as Hscan.
  destruct (scan_bitmap 33 (bitmap g) 1 0) as [[t p]|].
  - destruct Hscan as (Ht & Hp & Hclear & Hset).
    repeat split; solve [lia | assumption | intros; lia].
  - apply Hskip. apply all_bits_set_full; [apply Hok|assumption].
Qed.

(** ** allocate_semaphore *)

Lemma set_bitmap_set_segment_lock shm m gi b :
  set_bitmap (set_segment_lock shm m) gi b
  = set_segment_lock (set_bitmap shm gi b) m.
Proof.
  unfold set_bitmap. cbn [locks set_segment_lock].
  now destruct (locks shm !! Z.to_nat gi).
Qed.

Lemma set_segment_lock_same shm : set_segment_lock shm (segment_lock shm) = shm.
Proof. now destruct shm. Qed.

Lemma release_and_return_ok self shm r m :
  release_mutex self (segment_lock shm) = Returns (0, m) ->
  release_and_return self shm r = Returns (r, set_segment_lock shm m).
Proof. intros Hrel. unfold release_and_return. now rewrite Hrel. Qed.

(** [allocate_semaphore] when the allocation lock is taken and released
    without a fault: the result of the search, with the bit set. *)
Lemma allocate_semaphore_found self shm m1 m2 :
  take_mutex self (segment_lock shm) false = Returns (0, m1) ->
  release_mutex self m1 = Returns (0, m2) ->
  allocate_semaphore self (Some shm)
  = (found ← first_free (Z.to_nat (num_bitmaps shm)) 0 (locks shm);
     match found with
     | Some (gi, g, test_map, num_within_bitmap) =>
         Returns (BITMAP_SIZE * gi + num_within_bitmap,
                  Some (set_segment_lock
                          (set_bitmap shm gi (Z.lor (bitmap g) test_map)) m2))
     | None => Returns (-1 * ENOSPC, Some (set_segment_lock shm m2))
     end).
Proof.
  intros Htake Hrel. unfold allocate_semaphore. rewrite Htake.
  cbn [mbind outcome_bind Z.eqb negb]. rewrite allocate_scan_search.
  cbn [locks num_bitmaps set_segment_lock].
  destruct (first_free _ 0 (locks shm)) as [[[[[gi g] t] p]|]| |];
    cbn [mbind outcome_bind]; try reflexivity.
  - rewrite set_bitmap_set_segment_lock.
    erewrite release_and_return_ok by exact Hrel. reflexivity.
  - erewrite release_and_return_ok by exact Hrel. reflexivity.
Qed.

Lemma full_bitmap_not_clear g p :
  bitmap g = 0xFFFFFFFF -> 0 <= p < 32 -> Z.testbit (bitmap g) p <> false.
Proof. intros -> Hp. now rewrite full_bitmap_bits. Qed.

(** The lowest free index: the first group that is not full, and its
    first clear bit. *)
Lemma allocate_semaphore_lowest self shm m1 m2 gi g p :
  segment_ok shm ->
  take_mutex self (segment_lock shm) false = Returns (0, m1) ->
  release_mutex self m1 = Returns (0, m2) ->
  0 <= gi -> locks shm !! Z.to_nat gi = Some g ->
  (forall j g', 0 <= j < gi -> locks shm !! Z.to_nat j = Some g' ->
     bitmap g' = 0xFFFFFFFF) ->
  0 <= p < 32 -> Z.testbit (bitmap g) p = false ->
  (forall q, 0 <= q < p -> Z.testbit (bitmap g) q = true) ->
  allocate_semaphore self (Some shm)
  = Returns (gi * 32 + p,
             Some (set_segment_lock
                     (set_bitmap shm gi (Z.lor (bitmap g) (2 ^ p))) m2)).
Proof.
  intros Hok Htake Hrel Hgi Hg Hbefore Hp Hclear Hset.
  rewrite (allocate_semaphore_found self shm m1 m2 Htake Hrel).
  pose proof (first_free_spec (locks shm) (ok_groups shm Hok)
                (Z.to_nat (num_bitmaps shm)) 0) as Hspec.
  pose proof (ok_length shm Hok) as Hlen.
  pose proof (ok_num_bitmaps shm Hok) as Hnb.
  assert (Hin : gi < num_bitmaps shm).
  { apply lookup_lt_Some in Hg. lia. }
  destruct (first_free _ 0 (locks shm)) as [[[[[gi' g'] t] p']|]| |];
    cbn [mbind outcome_bind].
  - destruct Hspec as (Hgi' & _ & Hg' & -> & Hp' & Hclear' & Hset' & Hbefore').
    assert (gi' = gi) as ->.
    { destruct (Z.lt_trichotomy gi' gi) as [Hlt|[Heq|Hgt]]; [|assumption|].
      - exfalso. eapply (full_bitmap_not_clear g'); [|exact Hp'|exact Hclear'].
        eapply Hbefore; [|exact Hg']. lia.
      - exfalso. eapply (full_bitmap_not_clear g); [|exact Hp|exact Hclear].
        eapply Hbefore'; [|exact Hg]. lia. }
    assert (g' = g) as -> by congruence.
    assert (p' = p) as ->.
    { destruct (Z.lt_trichotomy p' p) as [Hlt|[Heq|Hgt]]; [|assumption|].
      - rewrite Hset in Hclear' by lia. discriminate.
      - rewrite Hset' in Hclear by lia. discriminate. }
    unfold BITMAP_SIZE. do 3 f_equal. lia.
  - exfalso. eapply (full_bitmap_not_clear g); [|exact Hp|exact Hclear].
    eapply Hspec; [|exact Hg]. lia.
  - contradiction.
  - exfalso. apply Hspec. lia.
Qed.

Lemma allocate_semaphore_exhausted self shm m1 m2 :
  segment_ok shm ->
  take_mutex self (segment_lock shm) false = Returns (0, m1) ->
  release_mutex self m1 = Returns (0, m2) ->
  (forall g, In g (locks shm) -> bitmap g = 0xFFFFFFFF) ->
  allocate_semaphore self (Some shm)
  = Returns (-1 * ENOSPC, Some (set_segment_lock shm m2)).
Proof.
  intros Hok Htake Hrel Hfull.
  rewrite (allocate_semaphore_found self shm m1 m2 Htake Hrel).
  pose proof (first_free_spec (locks shm) (ok_groups shm Hok)
                (Z.to_nat (num_bitmaps shm)) 0) as Hspec.
  pose proof (ok_length shm Hok) as Hlen.
  destruct (first_free _ 0 (locks shm)) as [[[[[gi' g'] t] p']|]| |];
    cbn [mbind outcome_bind].
  - destruct Hspec as (_ & _ & Hg' & _ & Hp' & Hclear' & _).
    exfalso. eapply (full_bitmap_not_clear g'); [|exact Hp'|exact Hclear'].
    apply Hfull. apply list_elem_of_In. eapply list_elem_of_lookup_2. exact Hg'.
  - reflexivity.
  - contradiction.
  - exfalso. apply Hspec. lia.
Qed.

(** With the allocation lock free and nothing queued for it, the
    calling context does not matter. *)
Lemma allocate_semaphore_quiet self shm :
  segment_lock shm = mutex_initial ->
  allocate_semaphore self (Some shm)
  = (found ← first_free (Z.to_nat (num_bitmaps shm)) 0 (locks shm);
     match found with
     | Some (gi, g, test_map, num_within_bitmap) =>
         Returns (BITMAP_SIZE * gi + num_within_bitmap,
                  Some (set_segment_lock
                          (set_bitmap shm gi (Z.lor (bitmap g) test_map))
                          mutex_initial))
     | None => Returns (-1 * ENOSPC, Some (set_segment_lock shm mutex_initial))
     end).
Proof.
  intros Hlock.
  apply (allocate_semaphore_found self shm
           {| state := LockedConsistent self; pending := [] |}).
  - rewrite Hlock. apply take_mutex_unlocked.
  - apply release_mutex_held.
Qed.

Lemma allocate_repeatedly_context self n shm :
  segment_lock shm = mutex_initial ->
  allocate_repeatedly self n (Some shm)
  = allocate_repeatedly 0%nat n (Some shm).
Proof.
  revert shm. induction n as [|n IH]; intros shm Hlock; [reflexivity|].
  cbn [allocate_repeatedly].
  rewrite (allocate_semaphore_quiet self), (allocate_semaphore_quiet 0%nat)
    by assumption.
  destruct (first_free _ 0 (locks shm)) as [[[[[gi g] t] p]|]| |];
    cbn [mbind outcome_bind]; try reflexivity; f_equal; now apply IH.
Qed.

(** C1. [allocate_semaphore] returns the lowest free index: with [gi] the
    first group whose bitmap is not full and [p] the first clear bit of
    that bitmap, it sets the bit and returns [gi * 32 + p]; with every
    bitmap full it returns [-ENOSPC]. On the segment [setup_lock_shm]
    makes for 64 locks, 65 calls in a row return 0, 1, ..., 63 and then
    [-ENOSPC]. *)
Theorem allocate_semaphore_lowest_free :
  (forall (self : ctx) (shm : shm_struct_t) (m1 m2 : pthread_mutex_t),
     segment_ok shm ->
     take_mutex self (segment_lock shm) false = Returns (0, m1) ->
     release_mutex self m1 = Returns (0, m2) ->
     (forall gi g p,
        0 <= gi -> locks shm !! Z.to_nat gi = Some g ->
        (forall j g', 0 <= j < gi -> locks shm !! Z.to_nat j = Some g' ->
           bitmap g' = 0xFFFFFFFF) ->
        0 <= p < 32 -> Z.testbit (bitmap g) p = false ->
        (forall q, 0 <= q < p -> Z.testbit (bitmap g) q = true) ->
        allocate_semaphore self (Some shm)
        = Returns (gi * 32 + p,
                   Some (set_segment_lock
                           (set_bitmap shm gi (Z.lor (bitmap g) (2 ^ p))) m2)))
     /\ ((forall g, In g (locks shm) -> bitmap g = 0xFFFFFFFF) ->
         allocate_semaphore self (Some shm)
         = Returns (-1 * ENOSPC, Some (set_segment_lock shm m2))))
  /\ (forall self : ctx,
        allocate_repeatedly self 65
          (returned (setup_lock_shm linux_x86_64 willing_os
                       (Some "/libpod_lock") 64 (Some 0)))
        = (Z.of_nat <$> seq 0 64) ++ [-1 * ENOSPC]).
Proof.
  split.
  - intros self shm m1 m2 Hok Htake Hrel. split.
    + intros gi g p. now apply (allocate_semaphore_lowest self shm m1 m2).
    + now apply (allocate_semaphore_exhausted self shm m1 m2).
  - intros self.
    change (returned (setup_lock_shm linux_x86_64 willing_os
                        (Some "/libpod_lock") 64 (Some 0)))
      with (Some (fresh_segment 2)).
    rewrite allocate_repeatedly_context by reflexivity.
    vm_compute. reflexivity.
Qed.

Lemma allocate_semaphore_lowest_free_witness :
  allocate_semaphore 1%nat (Some partly_allocated_segment)
  = Returns (35, Some (set_bitmap partly_allocated_segment 1 15))
  /\ allocate_semaphore 1%nat (Some full_segment)
     = Returns (-1 * ENOSPC, Some full_segment).
Proof.
  destruct allocate_semaphore_lowest_free as [Hlowest _].
  split.
  - destruct (Hlowest 1%nat partly_allocated_segment
                {| state := LockedConsistent 1%nat; pending := [] |}
                mutex_initial
                ltac:(segment_ok_by_evaluation) eq_refl eq_refl) as [Hfound _].
    apply (Hfound 1 {| bitmap := 7;
                       group_locks := replicate 32 mutex_initial |} 3).
    + lia.
    + reflexivity.
    + intros j g' Hj. replace j with 0 by lia. intros [= <-]. reflexivity.
    + lia.
    + reflexivity.
    + intros q Hq.
      assert (q = 0 \/ q = 1 \/ q = 2) as [->|[->| ->]] by lia; reflexivity.
  - destruct (Hlowest 1%nat full_segment
                {| state := LockedConsistent 1%nat; pending := [] |}
                mutex_initial
                ltac:(segment_ok_by_evaluation) eq_refl eq_refl) as [_ Hfull].
    apply Hfull. intros g [<-|[<-|[]]]; reflexivity.
Defined.

(** ** Return codes of the lock primitive are not negative *)

Lemma platform_call_nonneg act :
  (forall s rc s', act s = Returns (rc, s') -> 0 <= rc) ->
  answers_nonneg (fun mutex => platform_call mutex act).
Proof.
  intros Hact [s q] rc mutex'. unfold platform_call. cbn [pending state].
  destruct q as [|[e|] rest].
  - destruct (act s) as [[r s']| |] eqn:Ha; cbn; try discriminate.
    intros [= <- _]. eauto.
  - intros [= <- _]. lia.
  - destruct (act s) as [[r s']| |] eqn:Ha; cbn; try discriminate.
    intros [= <- _]. eauto.
Qed.

Lemma lock_nonneg self : answers_nonneg (pthread_mutex_lock self).
Proof.
  apply platform_call_nonneg. intros [] rc s'; intros [= <- _]; unfold
    EOWNERDEAD, ENOTRECOVERABLE; lia.
Qed.

Lemma trylock_nonneg self : answers_nonneg (pthread_mutex_trylock self).
Proof.
  apply platform_call_nonneg. intros [] rc s'; intros [= <- _]; unfold
    EBUSY, EOWNERDEAD, ENOTRECOVERABLE; lia.
Qed.

Lemma consistent_nonneg self : answers_nonneg (pthread_mutex_consistent self).
Proof.
  apply platform_call_nonneg.
  intros [] rc s'; try case_decide; intros [= <- _]; unfold EINVAL; lia.
Qed.

Lemma unlock_nonneg self : answers_nonneg (pthread_mutex_unlock self).
Proof.
  apply platform_call_nonneg.
  intros [] rc s'; try case_decide; intros [= <- _]; unfold EPERM; lia.
Qed.

Lemma do_while_EAGAIN_nonneg call :
  answers_nonneg call -> answers_nonneg (do_while_EAGAIN call).
Proof.
  intros Hcall mutex. unfold do_while_EAGAIN.
  generalize (S (length (pending mutex))) as rounds. intros rounds.
  revert mutex. induction rounds as [|rounds IH]; intros mutex rc mutex';
    cbn [do_while_EAGAIN_rounds]; [discriminate|].
  destruct (call mutex) as [[r m]| |] eqn:Hc; cbn [mbind outcome_bind];
    try discriminate.
  destruct (r =? EAGAIN); [apply IH|]. intros [= <- _]. eauto.
Qed.

Lemma take_mutex_nonneg self mutex trylock rc mutex' :
  take_mutex self mutex trylock = Returns (rc, mutex') -> 0 <= rc.
Proof.
  unfold take_mutex. intros H.
  destruct trylock; cbn [negb] in H.
  - destruct (do_while_EAGAIN (pthread_mutex_trylock self) mutex)
      as [[r m]| |] eqn:Hd; cbn [mbind outcome_bind] in H; try discriminate.
    apply (do_while_EAGAIN_nonneg _ (trylock_nonneg self)) in Hd.
    destruct (r =? EOWNERDEAD).
    + destruct (pthread_mutex_consistent self m) as [[r' m']| |] eqn:Hc;
        cbn [mbind outcome_bind] in H; try discriminate.
      apply consistent_nonneg in Hc.
      destruct (negb (r' =? 0)); injection H as <- _; lia.
    + destruct (negb (r =? 0)); injection H as <- _; lia.
  - destruct (do_while_EAGAIN (pthread_mutex_lock self) mutex)
      as [[r m]| |] eqn:Hd; cbn [mbind outcome_bind] in H; try discriminate.
    apply (do_while_EAGAIN_nonneg _ (lock_nonneg self)) in Hd.
    destruct (r =? EOWNERDEAD).
    + destruct (pthread_mutex_consistent self m) as [[r' m']| |] eqn:Hc;
        cbn [mbind outcome_bind] in H; try discriminate.
      apply consistent_nonneg in Hc.
      destruct (negb (r' =? 0)); injection H as <- _; lia.
    + destruct (negb (r =? 0)); injection H as <- _; lia.
Qed.

Lemma release_mutex_nonneg self mutex rc mutex' :
  release_mutex self mutex = Returns (rc, mutex') -> 0 <= rc.
Proof.
  unfold release_mutex. intros H.
  destruct (do_while_EAGAIN (pthread_mutex_unlock self) mutex)
    as [[r m]| |] eqn:Hd; cbn [mbind outcome_bind] in H; try discriminate.
  apply (do_while_EAGAIN_nonneg _ (unlock_nonneg self)) in Hd.
  destruct (negb (r =? 0)); injection H as <- _; lia.
Qed.

(** ** The allocation operations as critical sections *)

Lemma bit_mask_pow2 j : 0 <= j < 32 -> bit_mask j = 2 ^ j.
Proof.
  intros Hj. unfold bit_mask. rewrite Z.shiftl_1_l. now apply uint32_pow2.
Qed.

Lemma group_index_checked shm i :
  segment_ok shm -> 0 <= i < num_locks shm ->
  (i / BITMAP_SIZE >=? num_bitmaps shm) = false.
Proof.
  intros Hok Hi. destruct (valid_index_split shm i Hok Hi) as [Hg _].
  rewrite Z.geb_leb. apply Z.leb_gt. lia.
Qed.

Lemma segment_lock_set_bitmap shm gi b :
  segment_lock (set_bitmap shm gi b) = segment_lock shm.
Proof. unfold set_bitmap. now destruct (locks shm !! Z.to_nat gi). Qed.

Lemma allocate_semaphore_guarded self shm :
  segment_ok shm ->
  allocate_semaphore self (Some shm)
  = guarded_update self shm
      (allocation_found (num_bitmaps shm) (locks shm)).1
      (allocation_found (num_bitmaps shm) (locks shm)).2.
Proof.
  intros Hok. unfold allocate_semaphore, guarded_update, allocation_found.
  destruct (take_mutex self (segment_lock shm) false) as [[rc m]| |];
    cbn [mbind outcome_bind]; [|reflexivity..].
  destruct (negb (rc =? 0)); [reflexivity|].
  rewrite allocate_scan_search. cbn [locks num_bitmaps set_segment_lock].
  pose proof (first_free_spec (locks shm) (ok_groups shm Hok)
                (Z.to_nat (num_bitmaps shm)) 0) as Hspec.
  pose proof (ok_length shm Hok) as Hlen.
  destruct (first_free _ 0 (locks shm)) as [[[[[gi g] t] p]|]| |];
    cbn [mbind outcome_bind fst snd apply_change]; try reflexivity.
  - contradiction.
  - exfalso. apply Hspec. lia.
Qed.

Lemma allocate_given_semaphore_guarded self shm i g :
  segment_ok shm -> 0 <= i < num_locks shm ->
  locks shm !! Z.to_nat (i / BITMAP_SIZE) = Some g ->
  allocate_given_semaphore self (Some shm) i
  = if Z.testbit (bitmap g) (i mod BITMAP_SIZE)
    then guarded_update self shm None (-1 * EEXIST)
    else guarded_update self shm
           (Some (i / BITMAP_SIZE, Z.lor (bitmap g) (2 ^ (i mod BITMAP_SIZE))))
           0.
Proof.
  intros Hok Hi Hg. destruct (valid_index_split shm i Hok Hi) as [Hgi Hj].
  unfold allocate_given_semaphore, guarded_update. cbv zeta.
  rewrite index_checked, group_index_checked by (assumption || lia).
  rewrite bit_mask_pow2 by lia.
  destruct (take_mutex self (segment_lock shm) false) as [[rc m]| |];
    cbn [mbind outcome_bind]; [|now destruct (Z.testbit _ _)..].
  destruct (negb (rc =? 0)); [now destruct (Z.testbit _ _)|].
  cbn [locks set_segment_lock].
  rewrite (array_get_lookup _ _ g) by (lia || assumption).
  cbn [mbind outcome_bind]. rewrite land_pow2 by lia.
  assert (Hpow : (2 ^ (i mod BITMAP_SIZE) =? 0) = false)
    by (apply Z.eqb_neq, pow2_nonzero; lia).
  unfold release_and_return.
  destruct (Z.testbit (bitmap g) (i mod BITMAP_SIZE));
    rewrite ?Hpow; cbn [negb Z.eqb apply_change mbind outcome_bind];
    rewrite ?segment_lock_set_bitmap; cbn [segment_lock set_segment_lock];
    (destruct (release_mutex self m) as [[rc2 m2]| |];
     cbn [mbind outcome_bind]; [now destruct (negb (rc2 =? 0))|reflexivity..]).
Qed.

Lemma deallocate_semaphore_guarded self shm i g :
  segment_ok shm -> 0 <= i < num_locks shm ->
  locks shm !! Z.to_nat (i / BITMAP_SIZE) = Some g ->
  deallocate_semaphore self (Some shm) i
  = if Z.testbit (bitmap g) (i mod BITMAP_SIZE)
    then guarded_update self shm
           (Some (i / BITMAP_SIZE,
                  Z.land (bitmap g)
                    (uint32 (Z.lnot (2 ^ (i mod BITMAP_SIZE))))))
           0
    else guarded_update self shm None (-1 * ENOENT).
Proof.
  intros Hok Hi Hg. destruct (valid_index_split shm i Hok Hi) as [Hgi Hj].
  unfold deallocate_semaphore, guarded_update. cbv zeta.
  rewrite index_checked, group_index_checked by (assumption || lia).
  rewrite bit_mask_pow2 by lia.
  destruct (take_mutex self (segment_lock shm) false) as [[rc m]| |];
    cbn [mbind outcome_bind]; [|now destruct (Z.testbit _ _)..].
  destruct (negb (rc =? 0)); [now destruct (Z.testbit _ _)|].
  cbn [locks set_segment_lock].
  rewrite (array_get_lookup _ _ g) by (lia || assumption).
  cbn [mbind outcome_bind]. rewrite land_pow2 by lia.
  assert (Hpow : (2 ^ (i mod BITMAP_SIZE) =? 0) = false)
    by (apply Z.eqb_neq, pow2_nonzero; lia).
  unfold release_and_return.
  destruct (Z.testbit (bitmap g) (i mod BITMAP_SIZE));
    rewrite ?Hpow; cbn [negb Z.eqb apply_change mbind outcome_bind];
    rewrite ?segment_lock_set_bitmap; cbn [segment_lock set_segment_lock];
    (destruct (release_mutex self m) as [[rc2 m2]| |];
     cbn [mbind outcome_bind]; [now destruct (negb (rc2 =? 0))|reflexivity..]).
Qed.

Lemma apply_change_set_segment_lock shm m change :
  apply_change (set_segment_lock shm m) change
  = set_segment_lock (apply_change shm change) m.
Proof.
  destruct change as [[gi b]|]; [apply set_bitmap_set_segment_lock|reflexivity].
Qed.

(** The critical section when the lock calls succeed. *)
Lemma guarded_update_ok self shm change r m1 m2 :
  take_mutex self (segment_lock shm) false = Returns (0, m1) ->
  release_mutex self m1 = Returns (0, m2) ->
  guarded_update self shm change r
  = Returns (r, Some (set_segment_lock (apply_change shm change) m2)).
Proof.
  intros Htake Hrel. unfold guarded_update. rewrite Htake.
  cbn [mbind outcome_bind Z.eqb negb].
  rewrite apply_change_set_segment_lock.
  erewrite release_and_return_ok by exact Hrel. reflexivity.
Qed.

(** Every way the critical section returns. *)
Lemma guarded_update_cases self shm change r r' shm' :
  guarded_update self shm change r = Returns (r', Some shm') ->
  (exists rc m, take_mutex self (segment_lock shm) false = Returns (rc, m)
     /\ 0 < rc /\ r' = - rc /\ shm' = set_segment_lock shm m)
  \/ (exists m1 m2, take_mutex self (segment_lock shm) false = Returns (0, m1)
        /\ release_mutex self m1 = Returns (0, m2)
        /\ r' = r
        /\ shm' = set_segment_lock (apply_change shm change) m2)
  \/ (exists m1 rc m2, take_mutex self (segment_lock shm) false = Returns (0, m1)
        /\ release_mutex self m1 = Returns (rc, m2)
        /\ 0 < rc /\ r' = - rc
        /\ shm' = set_segment_lock (apply_change shm change) m2).
Proof.
  unfold guarded_update. intros H.
  destruct (take_mutex self (segment_lock shm) false) as [[rc m1]| |] eqn:Htake;
    cbn [mbind outcome_bind] in H; try discriminate.
  pose proof (take_mutex_nonneg _ _ _ _ _ Htake) as Hrc.
  destruct (rc =? 0) eqn:Hz; cbn [negb] in H.
  - apply Z.eqb_eq in Hz. subst rc. right.
    rewrite apply_change_set_segment_lock in H.
    unfold release_and_return in H. cbn [segment_lock set_segment_lock] in H.
    destruct (release_mutex self m1) as [[rc2 m2]| |] eqn:Hrel;
      cbn [mbind outcome_bind] in H; try discriminate.
    pose proof (release_mutex_nonneg _ _ _ _ Hrel) as Hrc2.
    destruct (rc2 =? 0) eqn:Hz2; cbn [negb mbind outcome_bind] in H;
      injection H as <- <-.
    + apply Z.eqb_eq in Hz2. subst rc2. left. now exists m1, m2.
    + apply Z.eqb_neq in Hz2. right. exists m1, rc2, m2.
      repeat split; try assumption; lia.
  - apply Z.eqb_neq in Hz. injection H as <- <-. left. exists rc, m1.
    repeat split; lia.
Qed.

Lemma bitmaps_set_bitmap shm gi b :
  bitmaps (set_bitmap shm gi b) = <[Z.to_nat gi := b]> (bitmaps shm).
Proof.
  unfold set_bitmap, bitmaps.
  destruct (locks shm !! Z.to_nat gi) as [g|] eqn:Hg.
  - cbn [locks set_locks]. now rewrite list_fmap_insert.
  - symmetry. apply list_insert_ge. rewrite length_fmap.
    now apply lookup_ge_None_1.
Qed.

(** ** deallocate_semaphore *)

(** C8. On a valid index whose allocation bit is clear,
    [deallocate_semaphore] returns [-ENOENT] and every bitmap is as
    before; on a valid index whose bit is set it returns 0 and the bitmap
    of the index's group has that bit cleared and every other bit as
    before, the other groups' bitmaps being untouched. *)
Theorem deallocate_semaphore_checked
    (self : ctx) (shm : shm_struct_t) (m1 m2 : pthread_mutex_t)
    (i : Z) (g : lock_group_t) :
  segment_ok shm ->
  take_mutex self (segment_lock shm) false = Returns (0, m1) ->
  release_mutex self m1 = Returns (0, m2) ->
  0 <= i < num_locks shm ->
  locks shm !! Z.to_nat (i / BITMAP_SIZE) = Some g ->
  (Z.testbit (bitmap g) (i mod BITMAP_SIZE) = false ->
   deallocate_semaphore self (Some shm) i
   = Returns (-1 * ENOENT, Some (set_segment_lock shm m2))
   /\ bitmaps (set_segment_lock shm m2) = bitmaps shm)
  /\ (Z.testbit (bitmap g) (i mod BITMAP_SIZE) = true ->
      exists b,
        deallocate_semaphore self (Some shm) i
        = Returns (0, Some (set_segment_lock
                              (set_bitmap shm (i / BITMAP_SIZE) b) m2))
        /\ (forall q, 0 <= q ->
            Z.testbit b q
            = if q =? i mod BITMAP_SIZE then false
              else Z.testbit (bitmap g) q)
        /\ bitmaps (set_segment_lock (set_bitmap shm (i / BITMAP_SIZE) b) m2)
           = <[Z.to_nat (i / BITMAP_SIZE) := b]> (bitmaps shm)).
Proof.
  intros Hok Htake Hrel Hi Hg.
  destruct (valid_index_split shm i Hok Hi) as [Hgi Hj].
  rewrite (deallocate_semaphore_guarded self shm i g Hok Hi Hg).
  split; intros Hbit; rewrite Hbit.
  - rewrite (guarded_update_ok self shm None _ m1 m2 Htake Hrel).
    split; reflexivity.
  - eexists. split; [|split].
    + rewrite (guarded_update_ok self shm _ _ m1 m2 Htake Hrel). reflexivity.
    + apply land_clears_bit; [|lia].
      apply (Forall_lookup_1 _ _ _ _ (ok_groups shm Hok) Hg).
    + rewrite bitmaps_set_segment_lock. apply bitmaps_set_bitmap.
Qed.

Lemma deallocate_semaphore_checked_witness :
  deallocate_semaphore 1%nat (Some partly_allocated_segment) 40
  = Returns (-1 * ENOENT, Some partly_allocated_segment)
  /\ exists b,
       deallocate_semaphore 1%nat (Some partly_allocated_segment) 34
       = Returns (0, Some (set_bitmap partly_allocated_segment 1 b))
       /\ Z.testbit b 2 = false /\ Z.testbit b 1 = true.
Proof.
  split.
  - destruct (deallocate_semaphore_checked 1%nat partly_allocated_segment
                {| state := LockedConsistent 1%nat; pending := [] |}
                mutex_initial 40
                {| bitmap := 7; group_locks := replicate 32 mutex_initial |}
                ltac:(segment_ok_by_evaluation) eq_refl eq_refl
                ltac:(vm_compute; split; congruence) eq_refl) as [Hclear _].
    exact (proj1 (Hclear eq_refl)).
  - destruct (deallocate_semaphore_checked 1%nat partly_allocated_segment
                {| state := LockedConsistent 1%nat; pending := [] |}
                mutex_initial 34
                {| bitmap := 7; group_locks := replicate 32 mutex_initial |}
                ltac:(segment_ok_by_evaluation) eq_refl eq_refl
                ltac:(vm_compute; split; congruence) eq_refl) as [_ Hset].
    destruct (Hset eq_refl) as (b & Hfree & Hbits & _).
    exists b. split; [exact Hfree|].
    split; [apply (Hbits 2)|apply (Hbits 1)]; lia.
Defined.

(** ** What the allocation operations change *)










(** ** Counting the free slots *)

Lemma popcount_upto_double n a (b : bool) :
  popcount_upto (S n) (2 * a + Z.b2z b) = Z.b2z b + popcount_upto n a.
Proof.
  induction n as [|n IH].
  - cbn [popcount_upto Z.of_nat]. rewrite Z.testbit_0_r. now destruct b.
  - change (popcount_upto (S (S n)) (2 * a + Z.b2z b))
      with (popcount_upto (S n) (2 * a + Z.b2z b)
            + (if Z.testbit (2 * a + Z.b2z b) (Z.of_nat (S n)) then 1 else 0)).
    rewrite IH. rewrite Nat2Z.inj_succ, Z.testbit_succ_r by lia.
    cbn [popcount_upto]. lia.
Qed.

Lemma popcount_upto_range n z : 0 <= popcount_upto n z <= Z.of_nat n.
Proof.
  induction n as [|n IH]; [cbn; lia|].
  cbn [popcount_upto]. destruct (Z.testbit z (Z.of_nat n)); lia.
Qed.

Lemma popcount_upto_zero n : popcount_upto n 0 = 0.
Proof.
  induction n as [|n IH]; [reflexivity|].
  cbn [popcount_upto]. now rewrite IH, Z.bits_0.
Qed.

Lemma land_double a a' (b b' : bool) :
  Z.land (2 * a + Z.b2z b) (2 * a' + Z.b2z b')
  = 2 * Z.land a a' + Z.b2z (b && b').
Proof.
  apply Z.bits_inj'. intros n Hn. rewrite Z.land_spec.
  destruct (Z.eq_dec n 0) as [->|Hne].
  - now rewrite !Z.testbit_0_r.
  - replace n with (Z.succ (n - 1)) by lia.
    rewrite !Z.testbit_succ_r by lia. now rewrite Z.land_spec.
Qed.

Lemma halves z : z = 2 * Z.div2 z + Z.b2z (Z.odd z).
Proof. apply Z.div2_odd. Qed.

(** One round of Kernighan's loop clears one set bit. *)
Lemma kernighan_round n z :
  0 < z < 2 ^ Z.of_nat n ->
  popcount_upto n (Z.land z (z - 1)) = popcount_upto n z - 1
  /\ 0 <= Z.land z (z - 1) < z.
Proof.
  revert z. induction n as [|n IH]; intros z Hz; [cbn in Hz; lia|].
  rewrite Nat2Z.inj_succ, Z.pow_succ_r in Hz by lia.
  pose proof (halves z) as Hhalf.
  set (a := Z.div2 z) in *. destruct (Z.odd z).
  - cbn [Z.b2z] in Hhalf.
    assert (Hland : Z.land z (z - 1) = 2 * a + Z.b2z false).
    { replace (z - 1) with (2 * a + Z.b2z false) by (cbn; lia).
      rewrite Hhalf at 1. change 1 with (Z.b2z true) at 1.
      rewrite land_double, Z.land_diag. reflexivity. }
    rewrite Hland. split; [|cbn [Z.b2z]; lia].
    replace (popcount_upto (S n) z)
      with (popcount_upto (S n) (2 * a + Z.b2z true))
      by (f_equal; cbn [Z.b2z]; lia).
    rewrite !popcount_upto_double. cbn [Z.b2z]. lia.
  - cbn [Z.b2z] in Hhalf.
    destruct (IH a ltac:(lia)) as [Hpc Hrange].
    assert (Hland : Z.land z (z - 1) = 2 * Z.land a (a - 1) + Z.b2z false).
    { replace (z - 1) with (2 * (a - 1) + Z.b2z true) by (cbn; lia).
      replace z with (2 * a + Z.b2z false) at 1 by (cbn; lia).
      now rewrite land_double. }
    rewrite Hland. split; [|cbn [Z.b2z]; lia].
    replace (popcount_upto (S n) z)
      with (popcount_upto (S n) (2 * a + Z.b2z false))
      by (f_equal; cbn [Z.b2z]; lia).
    rewrite !popcount_upto_double, Hpc. cbn [Z.b2z]. lia.
Qed.

Lemma count_set_bits_popcount n rounds z count :
  0 <= z < 2 ^ Z.of_nat n ->
  popcount_upto n z < Z.of_nat rounds ->
  count_set_bits rounds z count = count + popcount_upto n z.
Proof.
  revert z count. induction rounds as [|rounds IH]; intros z count Hz Hrounds.
  { pose proof (popcount_upto_range n z). lia. }
  cbn [count_set_bits]. destruct (z =? 0) eqn:Hzero.
  - apply Z.eqb_eq in Hzero. subst z. rewrite popcount_upto_zero. lia.
  - apply Z.eqb_neq in Hzero.
    destruct (kernighan_round n z ltac:(lia)) as [Hpc Hrange].
    rewrite IH by lia. lia.
Qed.

(** The loop of [available_locks] counts the set bits of a bitmap. *)
Lemma count_set_bits_bitmap bm :
  0 <= bm < 2 ^ 32 -> count_set_bits 33 bm 0 = popcount bm.
Proof.
  intros Hbm. unfold popcount.
  rewrite (count_set_bits_popcount 32) by
    (try (pose proof (popcount_upto_range 32 bm)); lia).
  lia.
Qed.

Lemma available_scan_sum shm pre gs acc :
  locks shm = pre ++ gs -> Forall group_ok gs ->
  available_scan (length gs) (Z.of_nat (length pre)) shm acc
  = Returns (acc + free_slots gs).
Proof.
  revert pre acc. induction gs as [|g gs IH]; intros pre acc Hlocks Hok.
  { cbn. f_equal. lia. }
  cbn [length available_scan].
  rewrite (array_get_lookup _ _ g); [|lia|].
  2: { rewrite Hlocks, Nat2Z.id. apply list_lookup_middle. reflexivity. }
  cbn [mbind outcome_bind].
  apply Forall_cons in Hok as [[Hrange _] Hok].
  assert (Hnext : forall acc',
    available_scan (length gs) (Z.of_nat (length pre) + 1) shm acc'
    = Returns (acc' + free_slots gs)).
  { intros acc'.
    replace (Z.of_nat (length pre) + 1) with (Z.of_nat (length (pre ++ [g])))
      by (rewrite length_app; cbn; lia).
    apply IH; [|assumption]. now rewrite <- app_assoc. }
  rewrite !Hnext. cbn [free_slots foldr]. fold (free_slots gs).
  destruct (bitmap g =? 0) eqn:Hzero.
  - apply Z.eqb_eq in Hzero. rewrite Hzero.
    change (popcount 0) with 0. f_equal. lia.
  - rewrite count_set_bits_bitmap by assumption. f_equal. lia.
Qed.

(** [available_locks] when the allocation lock is taken and released
    without a fault. *)
Lemma available_locks_count self shm m1 m2 :
  segment_ok shm ->
  take_mutex self (segment_lock shm) false = Returns (0, m1) ->
  release_mutex self m1 = Returns (0, m2) ->
  available_locks self (Some shm)
  = Returns (free_slots (locks shm), Some (set_segment_lock shm m2)).
Proof.
  intros Hok Htake Hrel. unfold available_locks. rewrite Htake.
  cbn [mbind outcome_bind Z.eqb negb num_bitmaps set_segment_lock].
  pose proof (available_scan_sum (set_segment_lock shm m1) [] (locks shm) 0
                eq_refl (ok_groups shm Hok)) as Hscan.
  replace (Z.to_nat (num_bitmaps shm)) with (length (locks shm))
    by (pose proof (ok_length shm Hok); lia).
  change (Z.of_nat (length [])) with 0 in Hscan. rewrite Hscan.
  cbn [mbind outcome_bind segment_lock set_segment_lock]. rewrite Hrel.
  reflexivity.
Qed.

(** ** Allocation followed by deallocation *)

Lemma popcount_upto_set_bit n b p :
  0 <= p -> Z.testbit b p = false ->
  popcount_upto n (Z.lor b (2 ^ p))
  = popcount_upto n b + (if p <? Z.of_nat n then 1 else 0).
Proof.
  intros Hp Hbit. induction n as [|n IH].
  - cbn [popcount_upto]. destruct (p <? Z.of_nat 0) eqn:E; [|lia].
    apply Z.ltb_lt in E. lia.
  - cbn [popcount_upto]. rewrite IH, lor_sets_bit by lia.
    rewrite Nat2Z.inj_succ.
    destruct (Z.of_nat n =? p) eqn:Heq.
    + apply Z.eqb_eq in Heq. rewrite Heq, Hbit.
      rewrite Z.ltb_irrefl.
      replace (p <? Z.succ p) with true by (symmetry; apply Z.ltb_lt; lia).
      lia.
    + apply Z.eqb_neq in Heq.
      destruct (p <? Z.of_nat n) eqn:Hlt.
      * replace (p <? Z.succ (Z.of_nat n)) with true
          by (symmetry; apply Z.ltb_lt; apply Z.ltb_lt in Hlt; lia).
        lia.
      * replace (p <? Z.succ (Z.of_nat n)) with false
          by (symmetry; apply Z.ltb_ge; apply Z.ltb_ge in Hlt; lia).
        lia.
Qed.

(** Setting a clear bit raises the population count by one. *)
Lemma popcount_set_bit b p :
  0 <= p < 32 -> Z.testbit b p = false ->
  popcount (Z.lor b (2 ^ p)) = popcount b + 1.
Proof.
  intros Hp Hbit. unfold popcount.
  rewrite popcount_upto_set_bit by (lia || assumption).
  replace (p <? Z.of_nat 32) with true by (symmetry; apply Z.ltb_lt; lia).
  reflexivity.
Qed.

Lemma free_slots_insert groups k g g' :
  groups !! k = Some g ->
  free_slots (<[k := g']> groups)
  = free_slots groups + popcount (bitmap g) - popcount (bitmap g').
Proof.
  revert k. induction groups as [|g0 groups IH]; intros k Hk; [discriminate|].
  destruct k as [|k].
  - injection Hk as ->.
    change (free_slots (g' :: groups)
            = free_slots (g :: groups) + popcount (bitmap g)
              - popcount (bitmap g')).
    unfold free_slots. cbn [foldr]. lia.
  - change (free_slots (g0 :: <[k := g']> groups)
            = free_slots (g0 :: groups) + popcount (bitmap g)
              - popcount (bitmap g')).
    specialize (IH k Hk). unfold free_slots in *. cbn [foldr]. lia.
Qed.


Lemma set_bitmap_twice shm gi a b :
  set_bitmap (set_bitmap shm gi a) gi b = set_bitmap shm gi b.
Proof.
  unfold set_bitmap.
  destruct (locks shm !! Z.to_nat gi) as [g|] eqn:Hg; [|now rewrite Hg].
  cbn [locks set_locks].
  rewrite list_lookup_insert_eq by (eapply lookup_lt_Some; eassumption).
  cbn [group_locks magic unused segment_lock num_bitmaps num_locks].
  now rewrite list_insert_insert_eq.
Qed.

Lemma set_bitmap_same shm gi g :
  locks shm !! Z.to_nat gi = Some g -> set_bitmap shm gi (bitmap g) = shm.
Proof.
  intros Hg. unfold set_bitmap. rewrite Hg.
  replace {| bitmap := bitmap g; group_locks := group_locks g |} with g
    by now destruct g.
  rewrite list_insert_id by assumption. apply set_locks_same.
Qed.

Lemma locks_set_bitmap shm gi g b :
  locks shm !! Z.to_nat gi = Some g ->
  locks (set_bitmap shm gi b) !! Z.to_nat gi
  = Some {| bitmap := b; group_locks := group_locks g |}.
Proof.
  intros Hg. unfold set_bitmap. rewrite Hg. cbn [locks set_locks].
  apply list_lookup_insert_eq. eapply lookup_lt_Some; eassumption.
Qed.

Lemma segment_ok_set_bitmap shm gi b :
  segment_ok shm -> 0 <= b < 2 ^ 32 -> segment_ok (set_bitmap shm gi b).
Proof.
  intros [Hnb Hnl Hrange Hlen Hgroups] Hb. unfold set_bitmap.
  destruct (locks shm !! Z.to_nat gi) as [g|] eqn:Hg; [|now split].
  split; cbn [num_bitmaps num_locks locks set_locks]; try assumption.
  - now rewrite length_insert.
  - apply Forall_insert; [assumption|]. split; [assumption|].
    cbn [group_locks]. eapply Forall_lookup_1 in Hgroups; [|eassumption].
    apply Hgroups.
Qed.

Lemma lor_then_clear b p :
  0 <= b < 2 ^ 32 -> 0 <= p < 32 -> Z.testbit b p = false ->
  Z.land (Z.lor b (2 ^ p)) (uint32 (Z.lnot (2 ^ p))) = b.
Proof.
  intros Hb Hp Hbit. apply Z.bits_inj'. intros q Hq.
  rewrite land_clears_bit by (try apply lor_pow2_range; assumption || lia).
  rewrite lor_sets_bit by lia.
  destruct (q =? p) eqn:E; [|reflexivity].
  apply Z.eqb_eq in E. now subst q.
Qed.

Lemma slot_index_split gi p :
  0 <= p < 32 ->
  (BITMAP_SIZE * gi + p) / BITMAP_SIZE = gi
  /\ (BITMAP_SIZE * gi + p) mod BITMAP_SIZE = p.
Proof.
  intros Hp. unfold BITMAP_SIZE. split.
  - rewrite Z.mul_comm, Z.div_add_l by lia. rewrite Z.div_small; lia.
  - rewrite Z.add_comm, Z.mul_comm, Z.mod_add by lia. apply Z.mod_small. lia.
Qed.



(** ** Creation of the segment *)

Lemma bitmaps_required_ceil n :
  0 <= n < 2 ^ 32 -> bitmaps_required n = (n + 31) / 32.
Proof.
  intros Hn. unfold bitmaps_required, BITMAP_SIZE. cbv zeta.
  change (4 * 8) with 32.
  destruct (n mod 32 =? 0) eqn:Hrem; cbn [negb].
  - apply Z.eqb_eq in Hrem. Z.div_mod_to_equations. lia.
  - apply Z.eqb_neq in Hrem. rewrite uint32_small.
    + Z.div_mod_to_equations. lia.
    + Z.div_mod_to_equations. lia.
Qed.

Lemma uint32_to_size_t p z :
  32 <= size_t_bits p -> uint32 (to_size_t p z) = uint32 z.
Proof.
  intros Hp. unfold uint32, to_size_t.
  apply Z.mod_mod_divide.
  exists (2 ^ (size_t_bits p - 32)).
  rewrite <- Z.pow_add_r by lia. f_equal. lia.
Qed.

(** What a successful [setup_lock_shm] has stored in the header. *)
Lemma setup_lock_shm_stored p os path n ec shm :
  returned (setup_lock_shm p os path n ec) = Some shm ->
  n <> 0
  /\ magic shm = MAGIC
  /\ num_bitmaps shm = bitmaps_required n
  /\ num_locks shm = uint32 (to_size_t p (bitmaps_required n * BITMAP_SIZE)).
Proof.
  unfold setup_lock_shm. destruct ec as [ec|]; [|discriminate].
  destruct (n =? 0) eqn:Hn; [discriminate|]. apply Z.eqb_neq in Hn.
  destruct path as [path|]; [|discriminate].
  destruct (shm_open_answer os path true) as [shm_fd errno].
  destruct (shm_fd <? 0); [discriminate|].
  destruct (ftruncate_answer os _) as [ret_code errno'].
  destruct (ret_code <? 0); [discriminate|].
  destruct (mmap_errno os _); [discriminate|].
  repeat match goal with
         | |- context [if negb (?c =? 0) then _ else _] =>
             destruct (negb (c =? 0)); [discriminate|]
         end.
  destruct (init_groups os _ 0) as [e|groups]; [discriminate|].
  cbn [returned]. intros [= <-]. now repeat split.
Qed.

(** Up to [2^32 - 32] requested locks the stored capacity is the request
    rounded up to a whole number of groups. *)
Lemma setup_lock_shm_capacity p os path n ec shm :
  32 <= size_t_bits p ->
  0 < n <= 2 ^ 32 - 32 ->
  returned (setup_lock_shm p os path n ec) = Some shm ->
  num_bitmaps shm = (n + 31) / 32
  /\ num_locks shm = num_bitmaps shm * 32
  /\ n <= num_locks shm < n + 32.
Proof.
  intros Hp Hn Hret.
  apply setup_lock_shm_stored in Hret as (_ & _ & Hnb & Hnl).
  rewrite uint32_to_size_t in Hnl by assumption.
  rewrite bitmaps_required_ceil in Hnb, Hnl by lia.
  unfold BITMAP_SIZE in Hnl. change (4 * 8) with 32 in Hnl.
  rewrite uint32_small in Hnl by (Z.div_mod_to_equations; lia).
  rewrite Hnb, Hnl. repeat split; Z.div_mod_to_equations; lia.
Qed.

Lemma init_group_locks_willing os i rounds j :
  (forall slot, mutex_init_answer os slot = 0) ->
  init_group_locks os i rounds j = inr (replicate rounds mutex_initial).
Proof.
  intros Hinit. revert j. induction rounds as [|rounds IH]; intros j;
    [reflexivity|].
  cbn [init_group_locks replicate]. now rewrite Hinit, IH.
Qed.

Lemma init_groups_willing os rounds i :
  (forall slot, mutex_init_answer os slot = 0) ->
  init_groups os rounds i
  = inr (replicate rounds
           {| bitmap := 0;
              group_locks := replicate (Z.to_nat BITMAP_SIZE) mutex_initial |}).
Proof.
  intros Hinit. revert i. induction rounds as [|rounds IH]; intros i;
    [reflexivity|].
  cbn [init_groups replicate].
  now rewrite init_group_locks_willing, IH by assumption.
Qed.

Lemma init_group_locks_made os i rounds j ls :
  init_group_locks os i rounds j = inr ls ->
  ls = replicate rounds mutex_initial.
Proof.
  revert j ls. induction rounds as [|rounds IH]; intros j ls.
  - now intros [= <-].
  - cbn [init_group_locks replicate].
    destruct (negb (mutex_init_answer os (Some (i, j)) =? 0)); [discriminate|].
    destruct (init_group_locks os i rounds (j + 1)) as [e|ls'] eqn:Hrest;
      [discriminate|].
    intros [= <-]. f_equal. eapply IH. eassumption.
Qed.

Lemma init_groups_made os rounds i gs :
  init_groups os rounds i = inr gs ->
  gs = replicate rounds
         {| bitmap := 0;
            group_locks := replicate (Z.to_nat BITMAP_SIZE) mutex_initial |}.
Proof.
  revert i gs. induction rounds as [|rounds IH]; intros i gs.
  - now intros [= <-].
  - cbn [init_groups replicate].
    destruct (init_group_locks os i (Z.to_nat BITMAP_SIZE) 0) as [e|ls] eqn:Hls;
      [discriminate|].
    apply init_group_locks_made in Hls. subst ls.
    destruct (init_groups os rounds (i + 1)) as [e|gs'] eqn:Hrest;
      [discriminate|].
    intros [= <-]. f_equal. eapply IH. eassumption.
Qed.

(** The segment a successful [setup_lock_shm] returns, whatever the
    operating system answered on the way. *)
Lemma setup_lock_shm_fresh p os path n ec shm :
  32 <= size_t_bits p ->
  returned (setup_lock_shm p os path n ec) = Some shm ->
  shm = fresh_segment (bitmaps_required n).
Proof.
  intros Hp. unfold setup_lock_shm. destruct ec as [ec|]; [|discriminate].
  destruct (n =? 0); [discriminate|].
  destruct path as [path|]; [|discriminate].
  destruct (shm_open_answer os path true) as [shm_fd errno].
  destruct (shm_fd <? 0); [discriminate|].
  destruct (ftruncate_answer os _) as [ret_code errno'].
  destruct (ret_code <? 0); [discriminate|].
  destruct (mmap_errno os _); [discriminate|].
  repeat match goal with
         | |- context [if negb (?c =? 0) then _ else _] =>
             destruct (negb (c =? 0)); [discriminate|]
         end.
  destruct (init_groups os _ 0) as [e|groups] eqn:Hinit; [discriminate|].
  apply init_groups_made in Hinit. subst groups.
  cbn [returned]. intros [= <-]. unfold fresh_segment.
  now rewrite uint32_to_size_t.
Qed.

(** Up to [2^32 - 32] requested locks the segment [setup_lock_shm]
    returns is well formed. *)
Lemma setup_lock_shm_segment_ok p os path n ec shm :
  32 <= size_t_bits p ->
  0 < n <= 2 ^ 32 - 32 ->
  returned (setup_lock_shm p os path n ec) = Some shm ->
  segment_ok shm.
Proof.
  intros Hp Hn Hret. apply setup_lock_shm_fresh in Hret; [|assumption].
  subst shm. apply fresh_segment_ok.
  rewrite bitmaps_required_ceil by lia. Z.div_mod_to_equations. lia.
Qed.

(** On an operating system where every call succeeds, [setup_lock_shm]
    returns the segment with the header computed from [num_locks]. *)
Lemma setup_lock_shm_willing p path n ec :
  n <> 0 ->
  returned (setup_lock_shm p willing_os (Some path) n (Some ec))
  = Some {| magic := MAGIC; unused := 0; segment_lock := mutex_initial;
            num_bitmaps := bitmaps_required n;
            num_locks := uint32 (to_size_t p (bitmaps_required n * BITMAP_SIZE));
            locks := replicate (Z.to_nat (bitmaps_required n))
                       {| bitmap := 0;
                          group_locks :=
                            replicate (Z.to_nat BITMAP_SIZE) mutex_initial |} |}.
Proof.
  intros Hn. unfold setup_lock_shm. apply Z.eqb_neq in Hn. rewrite Hn.
  cbn [willing_os os_mapping shm_open_answer ftruncate_answer mmap_errno
       mutexattr_init_answer mutexattr_settype_answer
       mutexattr_setpshared_answer mutexattr_setrobust_answer
       mutex_init_answer].
  change (3 <? 0) with false. change (0 <? 0) with false.
  change (negb (0 =? 0)) with false. cbv iota.
  now rewrite init_groups_willing by reflexivity.
Qed.

(** [open_lock_shm] once the object is opened and mapped. *)
Lemma open_lock_shm_attached
    (p : platform) (os : os_t) (name : string) (n ec fd errno : Z) :
  0 < n < 2 ^ 32 ->
  shm_open_answer os name false = (fd, errno) -> 0 <= fd ->
  let size := compute_shm_size p (bitmaps_required n) in
  mmap_errno os size = None ->
  let region := mapped_region os in
  let rounded := to_size_t p ((n + 31) / 32 * 32) in
  let attached := [shm_open name false; mmap size; close] in
  (magic region <> MAGIC ->
   open_lock_shm p os (Some name) n (Some ec)
   = {| returned := None; error_code_cell := Some (-1 * EBADF);
        os_calls := attached ++ [munmap size] |})
  /\ (magic region = MAGIC -> to_size_t p (num_locks region) <> rounded ->
      open_lock_shm p os (Some name) n (Some ec)
      = {| returned := None; error_code_cell := Some (-1 * ERANGE);
           os_calls := attached ++ [munmap size] |})
  /\ (magic region = MAGIC -> to_size_t p (num_locks region) = rounded ->
      open_lock_shm p os (Some name) n (Some ec)
      = {| returned := Some region; error_code_cell := Some ec;
           os_calls := attached |}).
Proof.
  intros Hn Hopen Hfd size Hmap region rounded attached.
  assert (Hrounded : rounded = to_size_t p (bitmaps_required n * BITMAP_SIZE)).
  { unfold rounded. now rewrite bitmaps_required_ceil by lia. }
  unfold open_lock_shm.
  replace (n =? 0) with false by (symmetry; apply Z.eqb_neq; lia).
  rewrite Hopen.
  replace (fd <? 0) with false by (symmetry; apply Z.ltb_ge; lia).
  fold size. rewrite Hmap. fold region. rewrite <- Hrounded.
  split; [|split].
  - intros Hmagic. apply Z.eqb_neq in Hmagic. now rewrite Hmagic.
  - intros Hmagic Hcount. apply Z.eqb_eq in Hmagic. rewrite Hmagic.
    apply Z.eqb_neq in Hcount. now rewrite Hcount.
  - intros Hmagic Hcount. apply Z.eqb_eq in Hmagic. rewrite Hmagic.
    apply Z.eqb_eq in Hcount. now rewrite Hcount.
Qed.

(** C3, at the input on which the code departs from it. The request of
    4294967295 locks is accepted; 134217728 groups are stored, and the
    stored [num_locks], 134217728 * 32 in a [uint32_t], is 0: below the
    request, and not the number of groups times 32. [open_lock_shm],
    which compares the stored count with the product computed in
    [size_t], does not open that segment for the same request. *)
Theorem setup_lock_shm_capacity_wraps :
  exists shm,
    returned (setup_lock_shm linux_x86_64 willing_os (Some "/libpod_lock")
                4294967295 (Some 0))
    = Some shm
    /\ num_bitmaps shm = (4294967295 + 31) / 32
    /\ num_bitmaps shm * 32 = 2 ^ 32
    /\ num_locks shm = 0
    /\ ~ 4294967295 <= num_locks shm
    /\ error_code_cell
         (open_lock_shm linux_x86_64 (os_mapping shm) (Some "/libpod_lock")
            4294967295 (Some 0))
       = Some (-1 * ERANGE).
Proof.
  eexists. split; [apply setup_lock_shm_willing; discriminate|].
  cbn [num_bitmaps num_locks].
  assert (Hnb : bitmaps_required 4294967295 = 134217728)
    by (vm_compute; reflexivity).
  rewrite Hnb. split; [reflexivity|]. split; [reflexivity|].
  split; [reflexivity|]. split; [vm_compute; congruence|].
  match goal with
  | |- error_code_cell (open_lock_shm _ (os_mapping ?shm) _ _ _) = _ =>
      destruct (open_lock_shm_attached linux_x86_64 (os_mapping shm)
                  "/libpod_lock" 4294967295 0 3 0 ltac:(lia) eq_refl
                  ltac:(lia) eq_refl) as (_ & Hrange & _)
  end.
  rewrite Hrange; [reflexivity|reflexivity|].
  cbn [os_mapping mapped_region num_locks]. vm_compute. congruence.
Qed.

(** C7, as amended. [setup_lock_shm] rejects with [-EINVAL] a call
    whose [num_locks] is 0 or whose path is NULL, before any call on the
    operating system. Any other path is handed to [shm_open] as it is,
    in the first call made; when [shm_open] refuses it, [setup_lock_shm]
    returns NULL with the error [shm_open] gave and makes no further
    call. *)
Theorem setup_lock_shm_rejects
    (p : platform) (os : os_t) (path : option string) (n ec : Z) :
  (n = 0 \/ path = None ->
   setup_lock_shm p os path n (Some ec)
   = {| returned := None; error_code_cell := Some (-1 * EINVAL);
        os_calls := [] |})
  /\ (forall name fd errno,
        n <> 0 -> path = Some name ->
        shm_open_answer os name true = (fd, errno) ->
        hd_error (os_calls (setup_lock_shm p os path n (Some ec)))
        = Some (shm_open name true)
        /\ (fd < 0 ->
            setup_lock_shm p os path n (Some ec)
            = {| returned := None; error_code_cell := Some (-1 * errno);
                 os_calls := [shm_open name true] |})).
Proof.
  split.
  - intros [-> | ->]; [reflexivity|].
    unfold setup_lock_shm. now destruct (n =? 0).
  - intros name fd errno Hn -> Hopen. apply Z.eqb_neq in Hn.
    unfold setup_lock_shm. rewrite Hn, Hopen. split.
    + destruct (fd <? 0); [reflexivity|].
      destruct (ftruncate_answer os _) as [ret_code errno'].
      destruct (ret_code <? 0); [reflexivity|].
      destruct (mmap_errno os _); [reflexivity|].
      repeat match goal with
             | |- context [if negb (?c =? 0) then _ else _] =>
                 destruct (negb (c =? 0)); [reflexivity|]
             end.
      now destruct (init_groups os _ 0).
    + intros Hfd. apply Z.ltb_lt in Hfd. now rewrite Hfd.
Qed.

Lemma setup_lock_shm_rejects_witness :
  setup_lock_shm linux_x86_64 willing_os (Some "/libpod_lock") 0 (Some 0)
  = {| returned := None; error_code_cell := Some (-1 * EINVAL);
       os_calls := [] |}
  /\ (let refusing :=
        {| shm_open_answer := fun _ _ => (-1, EEXIST);
           ftruncate_answer := ftruncate_answer willing_os;
           mmap_errno := mmap_errno willing_os;
           mapped_region := mapped_region willing_os;
           mutexattr_init_answer := 0;
           mutexattr_settype_answer := 0;
           mutexattr_setpshared_answer := 0;
           mutexattr_setrobust_answer := 0;
           mutex_init_answer := fun _ => 0 |} in
      setup_lock_shm linux_x86_64 refusing (Some "/libpod_lock") 2048 (Some 0)
      = {| returned := None; error_code_cell := Some (-1 * EEXIST);
           os_calls := [shm_open "/libpod_lock" true] |}).
Proof.
  split.
  - apply (setup_lock_shm_rejects linux_x86_64 willing_os
             (Some "/libpod_lock") 0 0). now left.
  - intros refusing.
    apply (setup_lock_shm_rejects linux_x86_64 refusing
             (Some "/libpod_lock") 2048 0) with (fd := -1);
      [lia|reflexivity|reflexivity|lia].
Defined.

(** C7 as stated fails: a name without the leading separator is not
    rejected by [setup_lock_shm]; where [shm_open] takes it, the segment
    is created. *)
Lemma setup_lock_shm_rejects_counterexample :
  name_well_formed "libpod_lock" = false
  /\ exists shm,
       returned (setup_lock_shm linux_x86_64 willing_os (Some "libpod_lock")
                   2048 (Some 0))
       = Some shm
       /\ num_locks shm = 2048.
Proof.
  split; [reflexivity|]. eexists.
  split; [apply setup_lock_shm_willing; discriminate|]. reflexivity.
Qed.

(** ** Opening of the segment *)

(** The comparison of [open_lock_shm] is made in [size_t]: a stored
    count of 0 is not the rounded request [2^32] where [size_t] has 64
    bits, and is where it has 32. *)
Lemma open_lock_shm_size_type :
  let region := {| magic := MAGIC; unused := 0; segment_lock := mutex_initial;
                   num_bitmaps := 134217728; num_locks := 0; locks := [] |} in
  error_code_cell
    (open_lock_shm linux_x86_64 (os_mapping region) (Some "/libpod_lock")
       4294967295 (Some 0))
  = Some (-1 * ERANGE)
  /\ returned
       (open_lock_shm linux_i386 (os_mapping region) (Some "/libpod_lock")
          4294967295 (Some 0))
     = Some region.
Proof.
  intros region. split.
  - destruct (open_lock_shm_attached linux_x86_64 (os_mapping region)
                "/libpod_lock" 4294967295 0 3 0 ltac:(lia) eq_refl
                ltac:(lia) eq_refl) as (_ & Hrange & _).
    rewrite Hrange; [reflexivity|reflexivity|]. vm_compute. congruence.
  - destruct (open_lock_shm_attached linux_i386 (os_mapping region)
                "/libpod_lock" 4294967295 0 3 0 ltac:(lia) eq_refl
                ltac:(lia) eq_refl) as (_ & _ & Hsame).
    rewrite Hsame; reflexivity.
Qed.

(** C2, as amended. Once the object is opened and mapped,
    [open_lock_shm] checks the magic first and fails with [-EBADF] on a
    mismatch; then it fails with [-ERANGE] when the stored [num_locks]
    differs from the requested count rounded up to a whole number of
    groups (computed in [size_t]), and returns the segment when the two
    agree, also for a request that is not the stored count itself. On
    either failure the mapping is removed ([munmap]) and NULL is
    returned. *)
Theorem open_lock_shm_checks
    (p : platform) (os : os_t) (name : string) (n ec fd errno : Z) :
  0 < n < 2 ^ 32 ->
  shm_open_answer os name false = (fd, errno) -> 0 <= fd ->
  let size := compute_shm_size p (bitmaps_required n) in
  mmap_errno os size = None ->
  let region := mapped_region os in
  let rounded := to_size_t p ((n + 31) / 32 * 32) in
  let attached := [shm_open name false; mmap size; close] in
  (magic region <> MAGIC ->
   open_lock_shm p os (Some name) n (Some ec)
   = {| returned := None; error_code_cell := Some (-1 * EBADF);
        os_calls := attached ++ [munmap size] |})
  /\ (magic region = MAGIC -> to_size_t p (num_locks region) <> rounded ->
      open_lock_shm p os (Some name) n (Some ec)
      = {| returned := None; error_code_cell := Some (-1 * ERANGE);
           os_calls := attached ++ [munmap size] |})
  /\ (magic region = MAGIC -> to_size_t p (num_locks region) = rounded ->
      open_lock_shm p os (Some name) n (Some ec)
      = {| returned := Some region; error_code_cell := Some ec;
           os_calls := attached |}).
Proof.
  intros Hn Hopen Hfd size Hmap.
  exact (open_lock_shm_attached p os name n ec fd errno Hn Hopen Hfd Hmap).
Qed.

Lemma open_lock_shm_checks_witness :
  (let foreign :=
     {| magic := 0x1234; unused := 0; segment_lock := mutex_initial;
        num_bitmaps := 3; num_locks := 96; locks := [] |} in
   open_lock_shm linux_x86_64 (os_mapping foreign) (Some "/libpod_lock")
     64 (Some 0)
   = {| returned := None; error_code_cell := Some (-1 * EBADF);
        os_calls := [shm_open "/libpod_lock" false; mmap 2632; close;
                     munmap 2632] |})
  /\ open_lock_shm linux_x86_64 (os_mapping (fresh_segment 2))
       (Some "/libpod_lock") 2048 (Some 0)
     = {| returned := None; error_code_cell := Some (-1 * ERANGE);
          os_calls := [shm_open "/libpod_lock" false; mmap 82488; close;
                       munmap 82488] |}
  /\ open_lock_shm linux_x86_64 (os_mapping (fresh_segment 2))
       (Some "/libpod_lock") 64 (Some 0)
     = {| returned := Some (fresh_segment 2); error_code_cell := Some 0;
          os_calls := [shm_open "/libpod_lock" false; mmap 2632; close] |}.
Proof.
  split; [|split].
  - intros foreign.
    apply (open_lock_shm_checks linux_x86_64 (os_mapping foreign)
             "/libpod_lock" 64 0 3 0 ltac:(lia) eq_refl ltac:(lia) eq_refl).
    discriminate.
  - apply (open_lock_shm_checks linux_x86_64 (os_mapping (fresh_segment 2))
             "/libpod_lock" 2048 0 3 0 ltac:(lia) eq_refl ltac:(lia) eq_refl);
      [reflexivity|discriminate].
  - apply (open_lock_shm_checks linux_x86_64 (os_mapping (fresh_segment 2))
             "/libpod_lock" 64 0 3 0 ltac:(lia) eq_refl ltac:(lia) eq_refl);
      reflexivity.
Defined.

(** C2 as stated fails: the stored count is 64, the request is 33, and
    [open_lock_shm] returns the segment. *)
Lemma open_lock_shm_checks_counterexample :
  num_locks (fresh_segment 2) = 64
  /\ 64 <> 33
  /\ open_lock_shm linux_x86_64 (os_mapping (fresh_segment 2))
       (Some "/libpod_lock") 33 (Some 0)
     = {| returned := Some (fresh_segment 2); error_code_cell := Some 0;
          os_calls := [shm_open "/libpod_lock" false; mmap 2632; close] |}.
Proof. split; [reflexivity|]. split; [lia|reflexivity]. Qed.

(** ** Well-formedness is kept *)

Lemma land_range bm m : 0 <= bm < 2 ^ 32 -> 0 <= m -> 0 <= Z.land bm m < 2 ^ 32.
Proof.
  intros Hbm Hm. split; [apply Z.land_nonneg; lia|].
  destruct (Z.eq_dec (Z.land bm m) 0) as [->|Hnz]; [lia|].
  assert (0 <= Z.land bm m) by (apply Z.land_nonneg; lia).
  apply Z.log2_lt_pow2; [lia|].
  pose proof (Z.log2_land bm m ltac:(lia) Hm).
  destruct (Z.eq_dec bm 0) as [->|Hb]; [now rewrite Z.land_0_l in Hnz|].
  assert (Z.log2 bm < 32) by (apply Z.log2_lt_pow2; lia). lia.
Qed.

Lemma segment_ok_set_segment_lock shm m :
  segment_ok shm -> segment_ok (set_segment_lock shm m).
Proof. intros []. now split. Qed.

Lemma segment_ok_set_slot_lock shm i j m :
  segment_ok shm -> segment_ok (set_slot_lock shm i j m).
Proof.
  intros [Hnb Hnl Hrange Hlen Hgroups]. unfold set_slot_lock.
  destruct (locks shm !! Z.to_nat i) as [g|] eqn:Hg; [|now split].
  split; cbn [num_bitmaps num_locks locks set_locks]; try assumption.
  - now rewrite length_insert.
  - apply Forall_insert; [assumption|].
    eapply Forall_lookup_1 in Hgroups; [|eassumption].
    destruct Hgroups as [Hb Hl]. split; cbn [bitmap group_locks];
      [assumption|]. now rewrite length_insert.
Qed.

Lemma guarded_update_segment_ok self shm change r r' shm' :
  segment_ok shm ->
  (forall gi b, change = Some (gi, b) -> 0 <= b < 2 ^ 32) ->
  guarded_update self shm change r = Returns (r', Some shm') ->
  segment_ok shm'.
Proof.
  intros Hok Hchange H.
  assert (Hchanged : segment_ok (apply_change shm change)).
  { destruct change as [[gi b]|]; cbn [apply_change]; [|assumption].
    apply segment_ok_set_bitmap; [assumption|]. now apply (Hchange gi). }
  apply guarded_update_cases in H
    as [(rc & m & _ & _ & _ & ->)
       |[(m1 & m2 & _ & _ & _ & ->)|(m1 & rc & m2 & _ & _ & _ & _ & ->)]];
    now apply segment_ok_set_segment_lock.
Qed.

(** The six operations on a segment keep it well formed. *)
Lemma operations_keep_segment_ok self shm i r shm' :
  segment_ok shm -> 0 <= i ->
  allocate_semaphore self (Some shm) = Returns (r, Some shm')
  \/ allocate_given_semaphore self (Some shm) i = Returns (r, Some shm')
  \/ deallocate_semaphore self (Some shm) i = Returns (r, Some shm')
  \/ lock_semaphore self (Some shm) i = Returns (r, Some shm')
  \/ unlock_semaphore self (Some shm) i = Returns (r, Some shm')
  \/ try_lock self (Some shm) i = Returns (r, Some shm') ->
  segment_ok shm'.
Proof.
  intros Hok Hi0 [H|[H|[H|H]]].
  - rewrite (allocate_semaphore_guarded self shm Hok) in H.
    eapply guarded_update_segment_ok; [exact Hok| |exact H].
    intros gi b. unfold allocation_found.
    pose proof (first_free_spec (locks shm) (ok_groups shm Hok)
                  (Z.to_nat (num_bitmaps shm)) 0) as Hspec.
    destruct (first_free _ 0 (locks shm)) as [[[[[gi' g] t] p]|]| |];
      cbn [fst]; try discriminate.
    destruct Hspec as (_ & _ & Hg & -> & Hp & _). intros [= _ <-].
    apply lor_pow2_range; [|assumption].
    apply (Forall_lookup_1 _ _ _ _ (ok_groups shm Hok) Hg).
  - destruct (Z.lt_ge_cases i (num_locks shm)) as [Hlt|Hge].
    2: { unfold allocate_given_semaphore in H.
         rewrite index_rejected in H by assumption. now injection H as _ <-. }
    assert (Hi : 0 <= i < num_locks shm) by lia.
    destruct (valid_index_split shm i Hok Hi) as [Hgi Hj].
    destruct (group_at shm _ Hok Hgi) as (g & Hg & [Hrange _]).
    rewrite (allocate_given_semaphore_guarded self shm i g Hok Hi Hg) in H.
    destruct (Z.testbit (bitmap g) (i mod BITMAP_SIZE));
      (eapply guarded_update_segment_ok; [exact Hok| |exact H]);
      intros gi b; [discriminate|]. intros [= _ <-].
    now apply lor_pow2_range.
  - destruct (Z.lt_ge_cases i (num_locks shm)) as [Hlt|Hge].
    2: { unfold deallocate_semaphore in H.
         rewrite index_rejected in H by assumption. now injection H as _ <-. }
    assert (Hi : 0 <= i < num_locks shm) by lia.
    destruct (valid_index_split shm i Hok Hi) as [Hgi Hj].
    destruct (group_at shm _ Hok Hgi) as (g & Hg & [Hrange _]).
    rewrite (deallocate_semaphore_guarded self shm i g Hok Hi Hg) in H.
    destruct (Z.testbit (bitmap g) (i mod BITMAP_SIZE));
      (eapply guarded_update_segment_ok; [exact Hok| |exact H]);
      intros gi b; [|discriminate]. intros [= _ <-].
    apply land_range; [assumption|]. unfold uint32.
    apply Z.mod_pos_bound. lia.
  - assert (Hone : forall a j m, segment_ok (set_slot_lock shm a j m))
      by (intros; now apply segment_ok_set_slot_lock).
    assert (Htwo : forall a j k m n,
              segment_ok (set_slot_lock (set_slot_lock shm a j m) a k n))
      by (intros; now apply segment_ok_set_slot_lock).
    destruct H as [H|[H|H]];
      unfold lock_semaphore, unlock_semaphore, try_lock in H;
      cbv zeta in H;
      (destruct (i >=? num_locks shm); [now injection H as _ <-|]);
      destruct (slot_lock shm _ _) as [m| |]; cbn [mbind outcome_bind] in H;
      try discriminate H;
      along_the_code H; try discriminate H; injection H as _ <-; auto.
Qed.

(** ** Release of every slot *)

Lemma reset_bitmaps_clears gs :
  forall shm pre,
    locks shm = pre ++ gs ->
    reset_bitmaps (length gs) (Z.of_nat (length pre)) shm
    = Returns (set_locks shm (pre ++ clear_bitmaps gs)).
Proof.
  induction gs as [|g gs IH]; intros shm pre Hlocks.
  { cbn. rewrite app_nil_r, <- (app_nil_r pre), <- Hlocks.
    now rewrite set_locks_same. }
  cbn [length reset_bitmaps].
  assert (Hg : locks shm !! Z.to_nat (Z.of_nat (length pre)) = Some g)
    by (rewrite Hlocks, Nat2Z.id; now apply list_lookup_middle).
  rewrite (array_get_lookup _ _ g) by (lia || assumption).
  cbn [mbind outcome_bind].
  set (g0 := {| bitmap := 0; group_locks := group_locks g |}).
  assert (Hset : set_bitmap shm (Z.of_nat (length pre)) 0
                 = set_locks shm ((pre ++ [g0]) ++ gs)).
  { unfold set_bitmap. rewrite Hg. f_equal. rewrite Hlocks, Nat2Z.id.
    rewrite insert_app_r_alt by lia. rewrite Nat.sub_diag. cbn.
    now rewrite <- app_assoc. }
  rewrite Hset.
  replace (Z.of_nat (length pre) + 1) with (Z.of_nat (length (pre ++ [g0])))
    by (rewrite length_app; cbn; lia).
  rewrite IH by reflexivity.
  f_equal. unfold set_locks. cbn. f_equal. now rewrite <- app_assoc.
Qed.

Lemma deallocate_all_semaphores_ok self shm m1 m2 :
  segment_ok shm ->
  take_mutex self (segment_lock shm) false = Returns (0, m1) ->
  release_mutex self m1 = Returns (0, m2) ->
  deallocate_all_semaphores self (Some shm)
  = Returns (0, Some (set_segment_lock
                        (set_locks shm (clear_bitmaps (locks shm))) m2)).
Proof.
  intros Hok Htake Hrel. unfold deallocate_all_semaphores. rewrite Htake.
  cbn [mbind outcome_bind Z.eqb negb num_bitmaps set_segment_lock].
  replace (Z.to_nat (num_bitmaps shm)) with (length (locks shm))
    by (pose proof (ok_length shm Hok); lia).
  pose proof (reset_bitmaps_clears (locks shm) (set_segment_lock shm m1) []
                eq_refl) as Hreset.
  change (Z.of_nat (length [])) with 0 in Hreset. rewrite Hreset.
  cbn [mbind outcome_bind segment_lock set_segment_lock set_locks app].
  rewrite Hrel. reflexivity.
Qed.

Lemma bitmaps_clear_bitmaps gs :
  bitmap <$> clear_bitmaps gs = replicate (length gs) 0.
Proof. induction gs as [|g gs IH]; [reflexivity|]. cbn. now rewrite <- IH. Qed.

Lemma group_locks_clear_bitmaps gs :
  group_locks <$> clear_bitmaps gs = group_locks <$> gs.
Proof. induction gs as [|g gs IH]; [reflexivity|]. cbn. now rewrite <- IH. Qed.

Lemma clear_bitmaps_ok gs :
  Forall group_ok gs -> Forall group_ok (clear_bitmaps gs).
Proof.
  intros H. unfold clear_bitmaps. apply Forall_fmap.
  eapply Forall_impl; [exact H|]. intros g [_ Hl]. split; [cbn; lia|exact Hl].
Qed.

Lemma segment_ok_clear_bitmaps shm :
  segment_ok shm -> segment_ok (set_locks shm (clear_bitmaps (locks shm))).
Proof.
  intros [Hnb Hnl Hrange Hlen Hgroups].
  split; cbn [num_bitmaps num_locks locks set_locks]; try assumption.
  - unfold clear_bitmaps. now rewrite length_fmap.
  - now apply clear_bitmaps_ok.
Qed.

(** X1. With the allocation lock taken and released without a fault,
    [deallocate_all_semaphores] returns 0 and leaves every bitmap of the
    segment at zero, whatever was allocated; the lock of every slot, held
    or not, and the header are as before, and the segment stays well
    formed. *)
Theorem deallocate_all_semaphores_frees_all
    (self : ctx) (shm : shm_struct_t) (m1 m2 : pthread_mutex_t) :
  segment_ok shm ->
  take_mutex self (segment_lock shm) false = Returns (0, m1) ->
  release_mutex self m1 = Returns (0, m2) ->
  exists shm',
    deallocate_all_semaphores self (Some shm) = Returns (0, Some shm')
    /\ bitmaps shm' = replicate (length (locks shm)) 0
    /\ slot_locks shm' = slot_locks shm
    /\ same_header shm shm'
    /\ segment_lock shm' = m2
    /\ segment_ok shm'.
Proof.
  intros Hok Htake Hrel.
  exists (set_segment_lock (set_locks shm (clear_bitmaps (locks shm))) m2).
  split; [now apply deallocate_all_semaphores_ok with m1|].
  split; [apply bitmaps_clear_bitmaps|].
  split; [apply group_locks_clear_bitmaps|].
  split; [now repeat split|]. split; [reflexivity|].
  now apply segment_ok_set_segment_lock, segment_ok_clear_bitmaps.
Qed.

Lemma deallocate_all_semaphores_frees_all_witness :
  exists shm',
    deallocate_all_semaphores 1%nat (Some full_segment) = Returns (0, Some shm')
    /\ bitmaps shm' = [0; 0]
    /\ slot_locks shm' = slot_locks full_segment.
Proof.
  destruct (deallocate_all_semaphores_frees_all 1%nat full_segment
              (held_by 1%nat) mutex_initial
              ltac:(segment_ok_by_evaluation) eq_refl eq_refl)
    as (shm' & Hcall & Hbits & Hlocks & _).
  exists shm'. split; [exact Hcall|]. split; [exact Hbits|exact Hlocks].
Defined.

(** ** The allocation lock at rest *)

Lemma quiet_take self shm :
  segment_lock shm = mutex_initial ->
  take_mutex self (segment_lock shm) false = Returns (0, held_by self).
Proof. intros ->. apply take_mutex_unlocked. Qed.

Lemma set_segment_lock_quiet shm :
  segment_lock shm = mutex_initial -> set_segment_lock shm mutex_initial = shm.
Proof. intros <-. apply set_segment_lock_same. Qed.

Lemma segment_lock_apply_change shm change :
  segment_lock (apply_change shm change) = segment_lock shm.
Proof.
  destruct change as [[gi b]|]; [apply segment_lock_set_bitmap|reflexivity].
Qed.

Lemma guarded_update_quiet self shm change r :
  segment_lock shm = mutex_initial ->
  guarded_update self shm change r = Returns (r, Some (apply_change shm change)).
Proof.
  intros Hq.
  rewrite (guarded_update_ok self shm change r (held_by self) mutex_initial)
    by (apply quiet_take, Hq || apply release_mutex_held).
  rewrite set_segment_lock_quiet; [reflexivity|].
  now rewrite segment_lock_apply_change.
Qed.

Lemma available_locks_quiet self shm :
  segment_ok shm -> segment_lock shm = mutex_initial ->
  available_locks self (Some shm) = Returns (free_slots (locks shm), Some shm).
Proof.
  intros Hok Hq.
  rewrite (available_locks_count self shm (held_by self) mutex_initial Hok)
    by (apply quiet_take, Hq || apply release_mutex_held).
  now rewrite set_segment_lock_quiet.
Qed.

Lemma free_slots_clear_bitmaps gs :
  free_slots (clear_bitmaps gs) = 32 * Z.of_nat (length gs).
Proof.
  induction gs as [|g gs IH]; [reflexivity|].
  change (free_slots (clear_bitmaps (g :: gs)))
    with (32 - popcount 0 + free_slots (clear_bitmaps gs)).
  rewrite IH. change (popcount 0) with 0. cbn [length]. lia.
Qed.

(** X2. After [deallocate_all_semaphores] on a segment with at least one
    group, [available_locks] returns the whole capacity [num_locks] and
    [allocate_semaphore] starts again at index 0, whatever was allocated
    before. *)
Theorem deallocate_all_then_fresh (self : ctx) (shm : shm_struct_t) :
  segment_ok shm -> segment_lock shm = mutex_initial ->
  0 < num_bitmaps shm ->
  exists shm',
    deallocate_all_semaphores self (Some shm) = Returns (0, Some shm')
    /\ available_locks self (Some shm') = Returns (num_locks shm, Some shm')
    /\ allocate_semaphore self (Some shm')
       = Returns (0, Some (set_bitmap shm' 0 1)).
Proof.
  intros Hok Hq Hnb.
  set (shm' := set_locks shm (clear_bitmaps (locks shm))).
  assert (Hq' : segment_lock shm' = mutex_initial) by exact Hq.
  assert (Hok' : segment_ok shm') by now apply segment_ok_clear_bitmaps.
  exists shm'. split; [|split].
  - rewrite (deallocate_all_semaphores_ok self shm (held_by self) mutex_initial)
      by (assumption || apply quiet_take, Hq || apply release_mutex_held).
    fold shm'. now rewrite set_segment_lock_quiet.
  - rewrite available_locks_quiet by assumption.
    do 2 f_equal. unfold shm'. cbn [locks set_locks].
    rewrite free_slots_clear_bitmaps.
    pose proof (ok_length shm Hok). pose proof (ok_num_locks shm Hok).
    unfold BITMAP_SIZE in *. lia.
  - pose proof (ok_length shm Hok) as Hlen.
    destruct (locks shm) as [|g gs] eqn:Hlocks; [cbn in Hlen; lia|].
    rewrite (allocate_semaphore_lowest self shm' (held_by self) mutex_initial
               0 {| bitmap := 0; group_locks := group_locks g |} 0 Hok').
    + cbn [bitmap]. change (0 * 32 + 0) with 0.
      change (Z.lor 0 (2 ^ 0)) with 1.
      rewrite set_segment_lock_quiet; [reflexivity|].
      now rewrite segment_lock_set_bitmap.
    + apply quiet_take, Hq'.
    + apply release_mutex_held.
    + lia.
    + unfold shm'. cbn [locks set_locks]. rewrite ?Hlocks. reflexivity.
    + intros j g' Hj. lia.
    + lia.
    + reflexivity.
    + intros q Hq0. lia.
Qed.

Lemma deallocate_all_then_fresh_witness :
  exists shm',
    deallocate_all_semaphores 1%nat (Some partly_allocated_segment)
    = Returns (0, Some shm')
    /\ available_locks 1%nat (Some shm') = Returns (64, Some shm')
    /\ allocate_semaphore 1%nat (Some shm')
       = Returns (0, Some (set_bitmap shm' 0 1)).
Proof.
  destruct (deallocate_all_then_fresh 1%nat partly_allocated_segment
              ltac:(segment_ok_by_evaluation) eq_refl eq_refl)
    as (shm' & Hcall & Hcount & Halloc).
  exists shm'. split; [exact Hcall|]. split; [exact Hcount|exact Halloc].
Defined.

(** ** allocate_given_semaphore *)

(** X3. On a valid index whose allocation bit is set,
    [allocate_given_semaphore] returns [-EEXIST] and writes no bitmap; on
    a valid index whose bit is clear it returns 0 and the bitmap of the
    index's group has that bit set and every other bit as before, the
    other groups' bitmaps being untouched. *)
Theorem allocate_given_semaphore_checked
    (self : ctx) (shm : shm_struct_t) (m1 m2 : pthread_mutex_t)
    (i : Z) (g : lock_group_t) :
  segment_ok shm ->
  take_mutex self (segment_lock shm) false = Returns (0, m1) ->
  release_mutex self m1 = Returns (0, m2) ->
  0 <= i < num_locks shm ->
  locks shm !! Z.to_nat (i / BITMAP_SIZE) = Some g ->
  (Z.testbit (bitmap g) (i mod BITMAP_SIZE) = true ->
   allocate_given_semaphore self (Some shm) i
   = Returns (-1 * EEXIST, Some (set_segment_lock shm m2))
   /\ bitmaps (set_segment_lock shm m2) = bitmaps shm)
  /\ (Z.testbit (bitmap g) (i mod BITMAP_SIZE) = false ->
      exists b,
        allocate_given_semaphore self (Some shm) i
        = Returns (0, Some (set_segment_lock
                              (set_bitmap shm (i / BITMAP_SIZE) b) m2))
        /\ 0 <= b < 2 ^ 32
        /\ (forall q, 0 <= q ->
            Z.testbit b q
            = if q =? i mod BITMAP_SIZE then true
              else Z.testbit (bitmap g) q)
        /\ bitmaps (set_segment_lock (set_bitmap shm (i / BITMAP_SIZE) b) m2)
           = <[Z.to_nat (i / BITMAP_SIZE) := b]> (bitmaps shm)).
Proof.
  intros Hok Htake Hrel Hi Hg.
  destruct (valid_index_split shm i Hok Hi) as [Hgi Hj].
  assert (Hrange : 0 <= bitmap g < 2 ^ 32)
    by apply (Forall_lookup_1 _ _ _ _ (ok_groups shm Hok) Hg).
  rewrite (allocate_given_semaphore_guarded self shm i g Hok Hi Hg).
  split; intros Hbit; rewrite Hbit.
  - rewrite (guarded_update_ok self shm _ _ m1 m2 Htake Hrel). now split.
  - exists (Z.lor (bitmap g) (2 ^ (i mod BITMAP_SIZE))).
    rewrite (guarded_update_ok self shm _ _ m1 m2 Htake Hrel).
    split; [reflexivity|]. split; [apply lor_pow2_range; assumption|].
    split; [intros q Hq0; apply lor_sets_bit; lia|].
    cbn [apply_change]. rewrite bitmaps_set_segment_lock.
    apply bitmaps_set_bitmap.
Qed.

Lemma allocate_given_semaphore_checked_witness :
  allocate_given_semaphore 1%nat (Some partly_allocated_segment) 34
  = Returns (-1 * EEXIST, Some partly_allocated_segment)
  /\ exists b,
       allocate_given_semaphore 1%nat (Some partly_allocated_segment) 40
       = Returns (0, Some (set_bitmap partly_allocated_segment 1 b))
       /\ Z.testbit b 8 = true /\ Z.testbit b 2 = true /\ Z.testbit b 9 = false.
Proof.
  split.
  - apply (allocate_given_semaphore_checked 1%nat partly_allocated_segment
             (held_by 1%nat) mutex_initial 34
             {| bitmap := 7; group_locks := replicate 32 mutex_initial |}
             ltac:(segment_ok_by_evaluation) eq_refl eq_refl
             ltac:(vm_compute; split; congruence) eq_refl).
    reflexivity.
  - destruct (allocate_given_semaphore_checked 1%nat partly_allocated_segment
                (held_by 1%nat) mutex_initial 40
                {| bitmap := 7; group_locks := replicate 32 mutex_initial |}
                ltac:(segment_ok_by_evaluation) eq_refl eq_refl
                ltac:(vm_compute; split; congruence) eq_refl)
      as [_ Hclear].
    destruct (Hclear eq_refl) as (b & Hcall & _ & Hbits & _).
    exists b. split; [exact Hcall|].
    split; [exact (Hbits 8 ltac:(lia))|].
    split; [exact (Hbits 2 ltac:(lia))|exact (Hbits 9 ltac:(lia))].
Defined.

Lemma allocate_given_semaphore_quiet self shm i g :
  segment_ok shm -> segment_lock shm = mutex_initial ->
  0 <= i < num_locks shm ->
  locks shm !! Z.to_nat (i / BITMAP_SIZE) = Some g ->
  allocate_given_semaphore self (Some shm) i
  = if Z.testbit (bitmap g) (i mod BITMAP_SIZE)
    then Returns (-1 * EEXIST, Some shm)
    else Returns (0, Some (set_bitmap shm (i / BITMAP_SIZE)
                             (Z.lor (bitmap g) (2 ^ (i mod BITMAP_SIZE))))).
Proof.
  intros Hok Hq Hi Hg.
  rewrite (allocate_given_semaphore_guarded self shm i g Hok Hi Hg).
  destruct (Z.testbit _ _); now rewrite guarded_update_quiet.
Qed.

Lemma deallocate_semaphore_quiet self shm i g :
  segment_ok shm -> segment_lock shm = mutex_initial ->
  0 <= i < num_locks shm ->
  locks shm !! Z.to_nat (i / BITMAP_SIZE) = Some g ->
  deallocate_semaphore self (Some shm) i
  = if Z.testbit (bitmap g) (i mod BITMAP_SIZE)
    then Returns (0, Some (set_bitmap shm (i / BITMAP_SIZE)
                             (Z.land (bitmap g)
                                (uint32 (Z.lnot (2 ^ (i mod BITMAP_SIZE)))))))
    else Returns (-1 * ENOENT, Some shm).
Proof.
  intros Hok Hq Hi Hg.
  rewrite (deallocate_semaphore_guarded self shm i g Hok Hi Hg).
  destruct (Z.testbit _ _); now rewrite guarded_update_quiet.
Qed.

Lemma clear_then_lor b p :
  0 <= b < 2 ^ 32 -> 0 <= p < 32 -> Z.testbit b p = true ->
  Z.lor (Z.land b (uint32 (Z.lnot (2 ^ p)))) (2 ^ p) = b.
Proof.
  intros Hb Hp Hbit. apply Z.bits_inj'. intros q Hq.
  rewrite lor_sets_bit by lia.
  destruct (q =? p) eqn:E.
  - apply Z.eqb_eq in E. now subst q.
  - rewrite land_clears_bit by (assumption || lia). now rewrite E.
Qed.

Lemma cleared_range b p :
  0 <= b < 2 ^ 32 -> 0 <= Z.land b (uint32 (Z.lnot (2 ^ p))) < 2 ^ 32.
Proof.
  intros Hb. apply land_range; [assumption|].
  unfold uint32. apply Z.mod_pos_bound. lia.
Qed.

(** The segment after one bitmap was written: well formed, the
    allocation lock and the capacity as before, the group written at its
    place. *)
Lemma after_set_bitmap shm gi g b :
  segment_ok shm -> segment_lock shm = mutex_initial ->
  locks shm !! Z.to_nat gi = Some g -> 0 <= b < 2 ^ 32 ->
  let shm1 := set_bitmap shm gi b in
  segment_ok shm1 /\ segment_lock shm1 = mutex_initial
  /\ num_locks shm1 = num_locks shm
  /\ locks shm1 !! Z.to_nat gi
     = Some {| bitmap := b; group_locks := group_locks g |}.
Proof.
  intros Hok Hq Hg Hb. cbv zeta.
  split; [now apply segment_ok_set_bitmap|].
  split; [now rewrite segment_lock_set_bitmap|].
  split; [apply num_locks_set_bitmap|now apply locks_set_bitmap].
Qed.

(** X4. Allocation of a given free index followed by its deallocation
    gives back the segment as it was, and so does deallocation of an
    allocated index followed by its allocation; in between, a second
    allocation of the index fails with [-EEXIST] and a second
    deallocation with [-ENOENT]. *)
Theorem allocate_given_deallocate_round_trip
    (self : ctx) (shm : shm_struct_t) (i : Z) (g : lock_group_t) :
  segment_ok shm -> segment_lock shm = mutex_initial ->
  0 <= i < num_locks shm ->
  locks shm !! Z.to_nat (i / BITMAP_SIZE) = Some g ->
  (Z.testbit (bitmap g) (i mod BITMAP_SIZE) = false ->
   exists shm1,
     allocate_given_semaphore self (Some shm) i = Returns (0, Some shm1)
     /\ allocate_given_semaphore self (Some shm1) i
        = Returns (-1 * EEXIST, Some shm1)
     /\ deallocate_semaphore self (Some shm1) i = Returns (0, Some shm))
  /\ (Z.testbit (bitmap g) (i mod BITMAP_SIZE) = true ->
      exists shm1,
        deallocate_semaphore self (Some shm) i = Returns (0, Some shm1)
        /\ deallocate_semaphore self (Some shm1) i
           = Returns (-1 * ENOENT, Some shm1)
        /\ allocate_given_semaphore self (Some shm1) i = Returns (0, Some shm)).
Proof.
  intros Hok Hq Hi Hg.
  destruct (valid_index_split shm i Hok Hi) as [Hgi Hj].
  assert (Hrange : 0 <= bitmap g < 2 ^ 32)
    by apply (Forall_lookup_1 _ _ _ _ (ok_groups shm Hok) Hg).
  split; intros Hbit.
  - set (b := Z.lor (bitmap g) (2 ^ (i mod BITMAP_SIZE))).
    destruct (after_set_bitmap shm (i / BITMAP_SIZE) g b Hok Hq Hg)
      as (Hok1 & Hq1 & Hnl1 & Hg1); [now apply lor_pow2_range|].
    exists (set_bitmap shm (i / BITMAP_SIZE) b).
    rewrite (allocate_given_semaphore_quiet self shm i g Hok Hq Hi Hg), Hbit.
    split; [reflexivity|].
    rewrite (allocate_given_semaphore_quiet self _ i _ Hok1 Hq1
               ltac:(rewrite Hnl1; exact Hi) Hg1).
    rewrite (deallocate_semaphore_quiet self _ i _ Hok1 Hq1
               ltac:(rewrite Hnl1; exact Hi) Hg1).
    cbn [bitmap].
    assert (Hb : Z.testbit b (i mod BITMAP_SIZE) = true)
      by (unfold b; now rewrite lor_sets_bit, Z.eqb_refl by lia).
    rewrite Hb. split; [reflexivity|].
    rewrite set_bitmap_twice. unfold b.
    rewrite lor_then_clear by (assumption || lia).
    now rewrite (set_bitmap_same shm _ g Hg).
  - set (b := Z.land (bitmap g) (uint32 (Z.lnot (2 ^ (i mod BITMAP_SIZE))))).
    destruct (after_set_bitmap shm (i / BITMAP_SIZE) g b Hok Hq Hg)
      as (Hok1 & Hq1 & Hnl1 & Hg1); [now apply cleared_range|].
    exists (set_bitmap shm (i / BITMAP_SIZE) b).
    rewrite (deallocate_semaphore_quiet self shm i g Hok Hq Hi Hg), Hbit.
    split; [reflexivity|].
    rewrite (allocate_given_semaphore_quiet self _ i _ Hok1 Hq1
               ltac:(rewrite Hnl1; exact Hi) Hg1).
    rewrite (deallocate_semaphore_quiet self _ i _ Hok1 Hq1
               ltac:(rewrite Hnl1; exact Hi) Hg1).
    cbn [bitmap].
    assert (Hb : Z.testbit b (i mod BITMAP_SIZE) = false)
      by (unfold b; now rewrite land_clears_bit, Z.eqb_refl
            by (assumption || lia)).
    rewrite Hb. split; [reflexivity|].
    rewrite set_bitmap_twice. unfold b.
    rewrite clear_then_lor by (assumption || lia).
    now rewrite (set_bitmap_same shm _ g Hg).
Qed.

Lemma allocate_given_deallocate_round_trip_witness :
  (exists shm1,
     allocate_given_semaphore 1%nat (Some partly_allocated_segment) 40
     = Returns (0, Some shm1)
     /\ allocate_given_semaphore 1%nat (Some shm1) 40
        = Returns (-1 * EEXIST, Some shm1)
     /\ deallocate_semaphore 1%nat (Some shm1) 40
        = Returns (0, Some partly_allocated_segment))
  /\ (exists shm1,
        deallocate_semaphore 1%nat (Some partly_allocated_segment) 33
        = Returns (0, Some shm1)
        /\ deallocate_semaphore 1%nat (Some shm1) 33
           = Returns (-1 * ENOENT, Some shm1)
        /\ allocate_given_semaphore 1%nat (Some shm1) 33
           = Returns (0, Some partly_allocated_segment)).
Proof.
  split.
  - apply (allocate_given_deallocate_round_trip 1%nat partly_allocated_segment
             40 {| bitmap := 7; group_locks := replicate 32 mutex_initial |}
             ltac:(segment_ok_by_evaluation) eq_refl
             ltac:(vm_compute; split; congruence) eq_refl).
    reflexivity.
  - apply (allocate_given_deallocate_round_trip 1%nat partly_allocated_segment
             33 {| bitmap := 7; group_locks := replicate 32 mutex_initial |}
             ltac:(segment_ok_by_evaluation) eq_refl
             ltac:(vm_compute; split; congruence) eq_refl).
    reflexivity.
Defined.

(** ** The order of allocation *)

Lemma locks_set_bitmap_other shm gi b (k : nat) :
  k <> Z.to_nat gi -> locks (set_bitmap shm gi b) !! k = locks shm !! k.
Proof.
  intros Hk. unfold set_bitmap.
  destruct (locks shm !! Z.to_nat gi); [|reflexivity].
  cbn [locks set_locks]. apply list_lookup_insert_ne. congruence.
Qed.

(** What [allocate_semaphore] found when it returns an index, on a
    segment whose allocation lock is at rest. *)
Lemma allocate_semaphore_quiet_result self shm idx shm1 :
  segment_ok shm -> segment_lock shm = mutex_initial ->
  allocate_semaphore self (Some shm) = Returns (idx, Some shm1) ->
  0 <= idx ->
  exists gi g p,
    0 <= gi /\ locks shm !! Z.to_nat gi = Some g /\ 0 <= p < 32
    /\ idx = BITMAP_SIZE * gi + p
    /\ Z.testbit (bitmap g) p = false
    /\ (forall q, 0 <= q < p -> Z.testbit (bitmap g) q = true)
    /\ (forall j g', 0 <= j < gi -> locks shm !! Z.to_nat j = Some g' ->
        bitmap g' = 0xFFFFFFFF)
    /\ shm1 = set_bitmap shm gi (Z.lor (bitmap g) (2 ^ p)).
Proof.
  intros Hok Hq Hcall Hidx.
  rewrite (allocate_semaphore_quiet self shm Hq) in Hcall.
  pose proof (first_free_spec (locks shm) (ok_groups shm Hok)
                (Z.to_nat (num_bitmaps shm)) 0) as Hspec.
  destruct (first_free _ 0 (locks shm)) as [[[[[gi g] t] p]|]| |];
    cbn [mbind outcome_bind] in Hcall; try discriminate.
  - destruct Hspec as (Hgi & _ & Hg & -> & Hp & Hclear & Hbelow & Hfull).
    injection Hcall as <- <-. exists gi, g, p.
    repeat split; try assumption; try lia.
    rewrite set_segment_lock_quiet; [reflexivity|].
    now rewrite segment_lock_set_bitmap.
  - injection Hcall as <- _. unfold ENOSPC in Hidx. lia.
Qed.

(** X5. On a well-formed segment whose allocation lock is at rest, an
    index [allocate_semaphore] has returned is allocated: asking
    for it with [allocate_given_semaphore] fails with [-EEXIST], and the
    next [allocate_semaphore] returns a strictly higher index. *)
Theorem allocate_semaphore_increasing
    (self : ctx) (shm shm1 : shm_struct_t) (idx : Z) :
  segment_ok shm -> segment_lock shm = mutex_initial ->
  allocate_semaphore self (Some shm) = Returns (idx, Some shm1) ->
  0 <= idx ->
  allocate_given_semaphore self (Some shm1) idx
  = Returns (-1 * EEXIST, Some shm1)
  /\ forall idx' shm2,
       allocate_semaphore self (Some shm1) = Returns (idx', Some shm2) ->
       0 <= idx' -> idx < idx'.
Proof.
  intros Hok Hq Hcall Hidx.
  destruct (allocate_semaphore_quiet_result self shm idx shm1 Hok Hq Hcall Hidx)
    as (gi & g & p & Hgi & Hg & Hp & -> & Hclear & Hbelow & Hfull & ->).
  assert (Hrange : 0 <= bitmap g < 2 ^ 32)
    by apply (Forall_lookup_1 _ _ _ _ (ok_groups shm Hok) Hg).
  set (b := Z.lor (bitmap g) (2 ^ p)).
  destruct (after_set_bitmap shm gi g b Hok Hq Hg)
    as (Hok1 & Hq1 & Hnl1 & Hg1); [now apply lor_pow2_range|].
  destruct (slot_index_split gi p Hp) as [Hdiv Hmod].
  assert (Hlt : (Z.to_nat gi < length (locks shm))%nat)
    by (eapply lookup_lt_Some; eassumption).
  pose proof (ok_length shm Hok) as Hlen.
  pose proof (ok_num_locks shm Hok) as Hnl.
  assert (Hi : 0 <= BITMAP_SIZE * gi + p < num_locks shm)
    by (unfold BITMAP_SIZE in *; lia).
  split.
  - rewrite (allocate_given_semaphore_quiet self _ _
               {| bitmap := b; group_locks := group_locks g |} Hok1 Hq1).
    + rewrite Hmod. cbn [bitmap]. unfold b at 1.
      now rewrite lor_sets_bit, Z.eqb_refl by lia.
    + now rewrite Hnl1.
    + now rewrite Hdiv.
  - intros idx' shm2 Hcall' Hidx'.
    destruct (allocate_semaphore_quiet_result self _ idx' shm2 Hok1 Hq1
                Hcall' Hidx')
      as (gi' & g' & p' & Hgi' & Hg' & Hp' & -> & Hclear' & Hbelow' & Hfull' & _).
    destruct (Z.lt_trichotomy gi' gi) as [Hless|[Heq|Hmore]].
    + exfalso. rewrite locks_set_bitmap_other in Hg' by lia.
      apply (full_bitmap_not_clear g' p' (Hfull gi' g' ltac:(lia) Hg') Hp').
      exact Hclear'.
    + subst gi'. rewrite Hg1 in Hg'. injection Hg' as <-.
      cbn [bitmap] in Hclear', Hbelow'.
      destruct (Z.lt_trichotomy p' p) as [Hpl|[Hpe|Hpm]].
      * exfalso. unfold b in Hclear'. rewrite lor_sets_bit in Hclear' by lia.
        replace (p' =? p) with false in Hclear' by (symmetry; apply Z.eqb_neq; lia).
        rewrite Hbelow in Hclear' by lia. discriminate.
      * exfalso. subst p'. unfold b in Hclear'.
        rewrite lor_sets_bit, Z.eqb_refl in Hclear' by lia. discriminate.
      * unfold BITMAP_SIZE. lia.
    + unfold BITMAP_SIZE. lia.
Qed.

Lemma allocate_semaphore_increasing_witness :
  allocate_given_semaphore 1%nat
    (Some (set_bitmap partly_allocated_segment 1 15)) 35
  = Returns (-1 * EEXIST, Some (set_bitmap partly_allocated_segment 1 15))
  /\ forall idx' shm2,
       allocate_semaphore 1%nat (Some (set_bitmap partly_allocated_segment 1 15))
       = Returns (idx', Some shm2) ->
       0 <= idx' -> 35 < idx'.
Proof.
  apply (allocate_semaphore_increasing 1%nat partly_allocated_segment
           (set_bitmap partly_allocated_segment 1 15) 35
           ltac:(segment_ok_by_evaluation) eq_refl eq_refl).
  discriminate.
Defined.

(** X6. A slot that [deallocate_semaphore] has freed is found again: the
    next [allocate_semaphore] succeeds with an index that is not above
    the one freed. *)
Theorem freed_slot_reused (self : ctx) (shm shm1 : shm_struct_t) (i : Z) :
  segment_ok shm -> segment_lock shm = mutex_initial -> 0 <= i ->
  deallocate_semaphore self (Some shm) i = Returns (0, Some shm1) ->
  exists r shm2,
    allocate_semaphore self (Some shm1) = Returns (r, Some shm2)
    /\ 0 <= r <= i.
Proof.
  intros Hok Hq Hi0 Hfree.
  destruct (Z.lt_ge_cases i (num_locks shm)) as [Hlt|Hge].
  2: { unfold deallocate_semaphore in Hfree.
       rewrite index_rejected in Hfree by assumption. discriminate. }
  assert (Hi : 0 <= i < num_locks shm) by lia.
  destruct (valid_index_split shm i Hok Hi) as [Hgi Hj].
  destruct (group_at shm _ Hok Hgi) as (g & Hg & [Hrange _]).
  rewrite (deallocate_semaphore_quiet self shm i g Hok Hq Hi Hg) in Hfree.
  destruct (Z.testbit (bitmap g) (i mod BITMAP_SIZE)) eqn:Hbit;
    [|discriminate].
  injection Hfree as <-.
  set (b := Z.land (bitmap g) (uint32 (Z.lnot (2 ^ (i mod BITMAP_SIZE))))).
  destruct (after_set_bitmap shm (i / BITMAP_SIZE) g b Hok Hq Hg)
    as (Hok1 & Hq1 & Hnl1 & Hg1); [now apply cleared_range|].
  assert (Hb : Z.testbit b (i mod BITMAP_SIZE) = false)
    by (unfold b; now rewrite land_clears_bit, Z.eqb_refl by (assumption || lia)).
  rewrite (allocate_semaphore_quiet self _ Hq1).
  pose proof (first_free_spec _ (ok_groups _ Hok1)
                (Z.to_nat (num_bitmaps (set_bitmap shm (i / BITMAP_SIZE) b))) 0)
    as Hspec.
  pose proof (ok_length _ Hok1) as Hlen1.
  pose proof (ok_num_bitmaps _ Hok1) as Hnb1.
  assert (Hsame : num_bitmaps (set_bitmap shm (i / BITMAP_SIZE) b)
                  = num_bitmaps shm) by apply set_bitmap_header.
  destruct (first_free _ 0 _) as [[[[[gi' g'] t] p']|]| |];
    cbn [mbind outcome_bind].
  - destruct Hspec as (Hgi' & _ & Hg' & -> & Hp' & Hclear' & Hbelow' & Hfull').
    eexists _, _. split; [reflexivity|].
    pose proof (Z.div_mod i BITMAP_SIZE ltac:(unfold BITMAP_SIZE; lia)) as Hdm.
    destruct (Z.lt_trichotomy gi' (i / BITMAP_SIZE)) as [Hless|[Heq|Hmore]].
    + unfold BITMAP_SIZE in *. lia.
    + subst gi'. rewrite Hg1 in Hg'. injection Hg' as <-.
      cbn [bitmap] in Hclear', Hbelow'.
      destruct (Z_le_gt_dec p' (i mod BITMAP_SIZE)) as [Hle|Hgt].
      * unfold BITMAP_SIZE in *. lia.
      * exfalso. rewrite Hbelow' in Hb by lia. discriminate.
    + exfalso.
      apply (full_bitmap_not_clear _ (i mod BITMAP_SIZE)
               (Hfull' (i / BITMAP_SIZE) _ ltac:(lia) Hg1) Hj).
      exact Hb.
  - exfalso.
    apply (full_bitmap_not_clear _ (i mod BITMAP_SIZE)
             (Hspec (i / BITMAP_SIZE) _ ltac:(lia) Hg1) Hj).
    exact Hb.
  - contradiction.
  - exfalso. apply Hspec. lia.
Qed.

Lemma freed_slot_reused_witness :
  exists r shm2,
    allocate_semaphore 1%nat (Some (set_bitmap full_segment 0 0xFFFFFDFF))
    = Returns (r, Some shm2)
    /\ 0 <= r <= 9.
Proof.
  apply (freed_slot_reused 1%nat full_segment
           (set_bitmap full_segment 0 0xFFFFFDFF) 9
           ltac:(segment_ok_by_evaluation) eq_refl ltac:(lia) eq_refl).
Defined.

(** ** The count of free slots *)

Lemma available_locks_guarded self shm :
  segment_ok shm ->
  available_locks self (Some shm)
  = guarded_update self shm None (free_slots (locks shm)).
Proof.
  intros Hok. unfold available_locks, guarded_update.
  destruct (take_mutex self (segment_lock shm) false) as [[rc m]| |];
    cbn [mbind outcome_bind]; [|reflexivity..].
  destruct (negb (rc =? 0)); [reflexivity|].
  cbn [num_bitmaps set_segment_lock apply_change].
  pose proof (available_scan_sum (set_segment_lock shm m) [] (locks shm) 0
                eq_refl (ok_groups shm Hok)) as Hscan.
  replace (Z.to_nat (num_bitmaps shm)) with (length (locks shm))
    by (pose proof (ok_length shm Hok); lia).
  change (Z.of_nat (length [])) with 0 in Hscan. rewrite Hscan.
  cbn [mbind outcome_bind]. unfold release_and_return.
  destruct (release_mutex self _) as [[rc2 m2]| |];
    cbn [mbind outcome_bind]; [|reflexivity..].
  now destruct (negb (rc2 =? 0)).
Qed.

Lemma popcount_range b : 0 <= popcount b <= 32.
Proof. unfold popcount. apply (popcount_upto_range 32 b). Qed.

Lemma free_slots_range gs : 0 <= free_slots gs <= 32 * Z.of_nat (length gs).
Proof.
  induction gs as [|g gs IH]; [cbn; lia|].
  change (free_slots (g :: gs)) with (32 - popcount (bitmap g) + free_slots gs).
  pose proof (popcount_range (bitmap g)). cbn [length]. lia.
Qed.

(** X7. Whenever [available_locks] returns, the value is at most the
    capacity [num_locks], a value that is not negative is the number of
    clear bits of the bitmaps, and no bitmap and no header field has been
    written. *)
Theorem available_locks_range
    (self : ctx) (shm shm' : shm_struct_t) (r : Z) :
  segment_ok shm ->
  available_locks self (Some shm) = Returns (r, Some shm') ->
  r <= num_locks shm
  /\ (0 <= r -> r = free_slots (locks shm))
  /\ bitmaps shm' = bitmaps shm
  /\ slot_locks shm' = slot_locks shm
  /\ same_header shm shm'.
Proof.
  intros Hok Hcall. rewrite (available_locks_guarded self shm Hok) in Hcall.
  pose proof (free_slots_range (locks shm)) as Hfree.
  pose proof (ok_length shm Hok) as Hlen.
  pose proof (ok_num_locks shm Hok) as Hnl.
  pose proof (ok_num_bitmaps shm Hok) as Hnb.
  unfold BITMAP_SIZE in Hnl.
  apply guarded_update_cases in Hcall
    as [(rc & m & _ & Hrc & -> & ->)
       |[(m1 & m2 & _ & _ & -> & ->)|(m1 & rc & m2 & _ & _ & Hrc & -> & ->)]];
    cbn [apply_change]; repeat split; lia.
Qed.

Lemma available_locks_range_witness :
  29 <= num_locks partly_allocated_segment
  /\ (0 <= 29 -> 29 = free_slots (locks partly_allocated_segment))
  /\ bitmaps partly_allocated_segment = bitmaps partly_allocated_segment
  /\ slot_locks partly_allocated_segment = slot_locks partly_allocated_segment
  /\ same_header partly_allocated_segment partly_allocated_segment.
Proof.
  apply (available_locks_range 1%nat partly_allocated_segment
           partly_allocated_segment 29 ltac:(segment_ok_by_evaluation) eq_refl).
Defined.

Lemma popcount_upto_full n b :
  popcount_upto n b = Z.of_nat n ->
  forall q, 0 <= q < Z.of_nat n -> Z.testbit b q = true.
Proof.
  induction n as [|n IH]; intros Hfull q Hq; [lia|].
  cbn [popcount_upto] in Hfull. pose proof (popcount_upto_range n b) as Hr.
  destruct (Z.testbit b (Z.of_nat n)) eqn:Hbit; [|lia].
  destruct (Z.eq_dec q (Z.of_nat n)) as [->|Hne]; [assumption|].
  apply IH; lia.
Qed.

Lemma popcount_upto_32_full b :
  0 <= b < 2 ^ 32 -> popcount_upto 32 b = 32 -> b = 0xFFFFFFFF.
Proof.
  intros Hb Hfull. apply all_bits_set_full; [assumption|].
  intros q Hq. apply (popcount_upto_full 32 b); [exact Hfull|lia].
Qed.

Lemma popcount_full b :
  0 <= b < 2 ^ 32 -> popcount b = 32 -> b = 0xFFFFFFFF.
Proof. exact (popcount_upto_32_full b). Qed.

Lemma free_slots_none gs :
  Forall group_ok gs ->
  (free_slots gs = 0 <-> forall g, In g gs -> bitmap g = 0xFFFFFFFF).
Proof.
  induction gs as [|g gs IH]; intros Hok.
  { split; [intros _ g []|reflexivity]. }
  apply Forall_cons in Hok as [[Hrange _] Hok]. specialize (IH Hok).
  change (free_slots (g :: gs)) with (32 - popcount (bitmap g) + free_slots gs).
  pose proof (popcount_range (bitmap g)).
  pose proof (free_slots_range gs).
  split.
  - intros Hzero g' [<-|Hin].
    + apply popcount_full; [assumption|lia].
    + apply IH; [lia|assumption].
  - intros Hall.
    rewrite (Hall g (or_introl eq_refl)).
    change (popcount 0xFFFFFFFF) with 32.
    assert (free_slots gs = 0) by (apply IH; intros; apply Hall; now right).
    lia.
Qed.

(** X8. [allocate_semaphore] reports [-ENOSPC] exactly when
    [available_locks] counts no free slot. *)
Theorem exhausted_iff_none_available (self : ctx) (shm : shm_struct_t) :
  segment_ok shm -> segment_lock shm = mutex_initial ->
  (allocate_semaphore self (Some shm) = Returns (-1 * ENOSPC, Some shm)
   <-> available_locks self (Some shm) = Returns (0, Some shm)).
Proof.
  intros Hok Hq. rewrite (available_locks_quiet self shm Hok Hq).
  pose proof (free_slots_none (locks shm) (ok_groups shm Hok)) as Hnone.
  split.
  - intros Hcall. do 2 f_equal. apply Hnone.
    rewrite (allocate_semaphore_quiet self shm Hq) in Hcall.
    pose proof (first_free_spec (locks shm) (ok_groups shm Hok)
                  (Z.to_nat (num_bitmaps shm)) 0) as Hspec.
    pose proof (ok_length shm Hok) as Hlen.
    destruct (first_free _ 0 (locks shm)) as [[[[[gi g] t] p]|]| |];
      cbn [mbind outcome_bind] in Hcall; try discriminate.
    + destruct Hspec as (Hgi & _ & _ & _ & Hp & _).
      injection Hcall as Hneg _. unfold BITMAP_SIZE, ENOSPC in Hneg. lia.
    + intros g Hin.
      apply list_elem_of_In, list_elem_of_lookup_1 in Hin as [k Hk].
      apply (Hspec (Z.of_nat k) g).
      * apply lookup_lt_Some in Hk. lia.
      * now rewrite Nat2Z.id.
  - intros [= Hzero].
    rewrite (allocate_semaphore_exhausted self shm (held_by self) mutex_initial
               Hok (quiet_take self shm Hq) (release_mutex_held self)).
    + now rewrite set_segment_lock_quiet.
    + now apply Hnone.
Qed.

Lemma exhausted_iff_none_available_witness :
  (allocate_semaphore 1%nat (Some full_segment)
   = Returns (-1 * ENOSPC, Some full_segment)
   <-> available_locks 1%nat (Some full_segment)
       = Returns (0, Some full_segment))
  /\ available_locks 1%nat (Some full_segment) = Returns (0, Some full_segment).
Proof.
  split; [|reflexivity].
  apply (exhausted_iff_none_available 1%nat full_segment
           ltac:(segment_ok_by_evaluation) eq_refl).
Defined.

Lemma popcount_clear_bit b p :
  0 <= b < 2 ^ 32 -> 0 <= p < 32 -> Z.testbit b p = true ->
  popcount (Z.land b (uint32 (Z.lnot (2 ^ p)))) = popcount b - 1.
Proof.
  intros Hb Hp Hbit.
  assert (Hc : Z.testbit (Z.land b (uint32 (Z.lnot (2 ^ p)))) p = false)
    by now rewrite land_clears_bit, Z.eqb_refl by (assumption || lia).
  pose proof (popcount_set_bit _ p Hp Hc) as Hset.
  rewrite clear_then_lor in Hset by assumption.
  rewrite Hset. symmetry. apply Z.add_simpl_r.
Qed.

Lemma free_slots_set_bitmap shm gi g b :
  locks shm !! Z.to_nat gi = Some g ->
  free_slots (locks (set_bitmap shm gi b))
  = free_slots (locks shm) + popcount (bitmap g) - popcount b.
Proof.
  intros Hg. unfold set_bitmap. rewrite Hg. cbn [locks set_locks].
  now rewrite (free_slots_insert _ _ g) by assumption.
Qed.

(** X9. A successful [allocate_given_semaphore] lowers what
    [available_locks] returns by exactly one, a successful
    [deallocate_semaphore] raises it by exactly one. *)
Theorem given_index_moves_count
    (self : ctx) (shm shm' : shm_struct_t) (i : Z) :
  segment_ok shm -> segment_lock shm = mutex_initial -> 0 <= i ->
  (allocate_given_semaphore self (Some shm) i = Returns (0, Some shm') ->
   available_locks self (Some shm')
   = Returns (free_slots (locks shm) - 1, Some shm'))
  /\ (deallocate_semaphore self (Some shm) i = Returns (0, Some shm') ->
      available_locks self (Some shm')
      = Returns (free_slots (locks shm) + 1, Some shm')).
Proof.
  intros Hok Hq Hi0.
  destruct (Z.lt_ge_cases i (num_locks shm)) as [Hlt|Hge].
  2: { unfold allocate_given_semaphore, deallocate_semaphore.
       rewrite index_rejected by assumption. split; discriminate. }
  assert (Hi : 0 <= i < num_locks shm) by lia.
  destruct (valid_index_split shm i Hok Hi) as [Hgi Hj].
  destruct (group_at shm _ Hok Hgi) as (g & Hg & [Hrange _]).
  rewrite (allocate_given_semaphore_quiet self shm i g Hok Hq Hi Hg).
  rewrite (deallocate_semaphore_quiet self shm i g Hok Hq Hi Hg).
  destruct (Z.testbit (bitmap g) (i mod BITMAP_SIZE)) eqn:Hbit;
    split; try discriminate; intros [= <-].
  - destruct (after_set_bitmap shm (i / BITMAP_SIZE) g _ Hok Hq Hg
                (cleared_range (bitmap g) (i mod BITMAP_SIZE) Hrange))
      as (Hok1 & Hq1 & _).
    rewrite (available_locks_quiet self _ Hok1 Hq1). do 2 f_equal.
    rewrite (free_slots_set_bitmap shm _ g _ Hg).
    rewrite popcount_clear_bit by assumption. lia.
  - destruct (after_set_bitmap shm (i / BITMAP_SIZE) g _ Hok Hq Hg
                (lor_pow2_range (bitmap g) (i mod BITMAP_SIZE) Hrange Hj))
      as (Hok1 & Hq1 & _).
    rewrite (available_locks_quiet self _ Hok1 Hq1). do 2 f_equal.
    rewrite (free_slots_set_bitmap shm _ g _ Hg).
    rewrite popcount_set_bit by assumption. lia.
Qed.

Lemma given_index_moves_count_witness :
  available_locks 1%nat (Some (set_bitmap partly_allocated_segment 1 263))
  = Returns (free_slots (locks partly_allocated_segment) - 1,
             Some (set_bitmap partly_allocated_segment 1 263))
  /\ available_locks 1%nat (Some (set_bitmap partly_allocated_segment 1 5))
     = Returns (free_slots (locks partly_allocated_segment) + 1,
                Some (set_bitmap partly_allocated_segment 1 5)).
Proof.
  split.
  - apply (given_index_moves_count 1%nat partly_allocated_segment
             (set_bitmap partly_allocated_segment 1 263) 40
             ltac:(segment_ok_by_evaluation) eq_refl ltac:(lia)).
    reflexivity.
  - apply (given_index_moves_count 1%nat partly_allocated_segment
             (set_bitmap partly_allocated_segment 1 5) 33
             ltac:(segment_ok_by_evaluation) eq_refl ltac:(lia)).
    reflexivity.
Defined.

(** ** The allocation lock guards every allocation operation *)

(** X10. When the allocation lock cannot be taken, each of the five
    operations that take it returns the error of the acquisition,
    negated, and nothing of the segment but the lock itself is
    touched. *)
Theorem allocation_lock_failure
    (self : ctx) (shm : shm_struct_t) (i rc : Z) (m : pthread_mutex_t) :
  segment_ok shm -> 0 <= i < num_locks shm ->
  take_mutex self (segment_lock shm) false = Returns (rc, m) -> rc <> 0 ->
  let failed := Returns (-1 * rc, Some (set_segment_lock shm m)) in
  allocate_semaphore self (Some shm) = failed
  /\ allocate_given_semaphore self (Some shm) i = failed
  /\ deallocate_semaphore self (Some shm) i = failed
  /\ deallocate_all_semaphores self (Some shm) = failed
  /\ available_locks self (Some shm) = failed
  /\ -1 * rc < 0
  /\ locks (set_segment_lock shm m) = locks shm.
Proof.
  intros Hok Hi Htake Hrc. cbv zeta.
  assert (Hz : negb (rc =? 0) = true)
    by (apply negb_true_iff, Z.eqb_neq, Hrc).
  pose proof (take_mutex_nonneg _ _ _ _ _ Htake) as Hpos.
  unfold allocate_semaphore, allocate_given_semaphore, deallocate_semaphore,
    deallocate_all_semaphores, available_locks. cbv zeta.
  rewrite index_checked, group_index_checked by (assumption || lia).
  rewrite Htake. cbn [mbind outcome_bind]. rewrite Hz.
  repeat split; lia.
Qed.

Lemma allocation_lock_failure_witness :
  let failed := Returns (-1 * ENOTRECOVERABLE, Some unusable_lock_segment) in
  allocate_semaphore 1%nat (Some unusable_lock_segment) = failed
  /\ allocate_given_semaphore 1%nat (Some unusable_lock_segment) 40 = failed
  /\ deallocate_semaphore 1%nat (Some unusable_lock_segment) 40 = failed
  /\ deallocate_all_semaphores 1%nat (Some unusable_lock_segment) = failed
  /\ available_locks 1%nat (Some unusable_lock_segment) = failed
  /\ -1 * ENOTRECOVERABLE < 0
  /\ locks unusable_lock_segment = locks unusable_lock_segment.
Proof.
  apply (allocation_lock_failure 1%nat unusable_lock_segment 40
           ENOTRECOVERABLE {| state := Unusable; pending := [] |}
           ltac:(segment_ok_by_evaluation)
           ltac:(vm_compute; split; congruence) eq_refl).
  discriminate.
Defined.

(** X11. While a context is inside an allocation operation, holding the
    allocation lock, each of the five operations that take it blocks its
    caller, the holder itself included; none of them returns early. *)
Theorem allocation_lock_held_blocks
    (self h : ctx) (shm : shm_struct_t) (i : Z) :
  segment_ok shm -> 0 <= i < num_locks shm ->
  segment_lock shm = held_by h ->
  allocate_semaphore self (Some shm) = Blocks
  /\ allocate_given_semaphore self (Some shm) i = Blocks
  /\ deallocate_semaphore self (Some shm) i = Blocks
  /\ deallocate_all_semaphores self (Some shm) = Blocks
  /\ available_locks self (Some shm) = Blocks.
Proof.
  intros Hok Hi Hheld.
  assert (Htake : take_mutex self (segment_lock shm) false = Blocks)
    by now rewrite Hheld.
  unfold allocate_semaphore, allocate_given_semaphore, deallocate_semaphore,
    deallocate_all_semaphores, available_locks. cbv zeta.
  rewrite index_checked, group_index_checked by (assumption || lia).
  rewrite Htake. now repeat split.
Qed.

Lemma allocation_lock_held_blocks_witness :
  allocate_semaphore 1%nat (Some busy_segment) = Blocks
  /\ allocate_given_semaphore 1%nat (Some busy_segment) 40 = Blocks
  /\ deallocate_semaphore 1%nat (Some busy_segment) 40 = Blocks
  /\ deallocate_all_semaphores 1%nat (Some busy_segment) = Blocks
  /\ available_locks 1%nat (Some busy_segment) = Blocks.
Proof.
  apply (allocation_lock_held_blocks 1%nat 2%nat busy_segment 40
           ltac:(segment_ok_by_evaluation)
           ltac:(vm_compute; split; congruence) eq_refl).
Defined.

(** X12. On a well-formed segment whose allocation lock is at rest,
    [allocate_given_semaphore] and [deallocate_semaphore] return for
    every index; the first returns 0, [-EEXIST] or [-EINVAL], the second
    0, [-ENOENT] or [-EINVAL], never the [-EFAULT] of the second index
    check; and a call that does not return 0 leaves the segment exactly
    as it was. *)
Theorem given_index_return_codes (self : ctx) (shm : shm_struct_t) (i : Z) :
  segment_ok shm -> segment_lock shm = mutex_initial -> 0 <= i ->
  (exists r shm',
     allocate_given_semaphore self (Some shm) i = Returns (r, Some shm')
     /\ In r [0; -1 * EEXIST; -1 * EINVAL] /\ (r <> 0 -> shm' = shm))
  /\ (exists r shm',
        deallocate_semaphore self (Some shm) i = Returns (r, Some shm')
        /\ In r [0; -1 * ENOENT; -1 * EINVAL] /\ (r <> 0 -> shm' = shm)).
Proof.
  intros Hok Hq Hi0.
  destruct (Z.lt_ge_cases i (num_locks shm)) as [Hlt|Hge].
  2: { unfold allocate_given_semaphore, deallocate_semaphore.
       rewrite index_rejected by assumption.
       split; eexists _, _; (split; [reflexivity|]);
         (split; [right; right; now left|reflexivity]). }
  assert (Hi : 0 <= i < num_locks shm) by lia.
  destruct (valid_index_split shm i Hok Hi) as [Hgi Hj].
  destruct (group_at shm _ Hok Hgi) as (g & Hg & _).
  rewrite (allocate_given_semaphore_quiet self shm i g Hok Hq Hi Hg).
  rewrite (deallocate_semaphore_quiet self shm i g Hok Hq Hi Hg).
  destruct (Z.testbit (bitmap g) (i mod BITMAP_SIZE));
    split; eexists _, _; (split; [reflexivity|]); split;
    try (now left); try (right; now left); try reflexivity;
    intros Hnz; now contradiction Hnz.
Qed.

Lemma given_index_return_codes_witness :
  (exists r shm',
     allocate_given_semaphore 1%nat (Some partly_allocated_segment) 64
     = Returns (r, Some shm')
     /\ In r [0; -1 * EEXIST; -1 * EINVAL]
     /\ (r <> 0 -> shm' = partly_allocated_segment))
  /\ (exists r shm',
        deallocate_semaphore 1%nat (Some partly_allocated_segment) 64
        = Returns (r, Some shm')
        /\ In r [0; -1 * ENOENT; -1 * EINVAL]
        /\ (r <> 0 -> shm' = partly_allocated_segment)).
Proof.
  apply (given_index_return_codes 1%nat partly_allocated_segment 64
           ltac:(segment_ok_by_evaluation) eq_refl).
  discriminate.
Defined.

(** ** The retry loops *)

(** X13. Transient answers of the lock primitive are retried: a run of
    [EAGAIN] answers queued on a lock changes nothing in what
    [take_mutex], blocking or not, and [release_mutex] return and leave
    behind. *)
Theorem transient_answers_retried
    (self : ctx) (s : lock_state) (k : nat)
    (rest : list (option positive)) (trylock : bool) :
  take_mutex self
    {| state := s; pending := replicate k transient ++ rest |} trylock
  = take_mutex self {| state := s; pending := rest |} trylock
  /\ release_mutex self
       {| state := s; pending := replicate k transient ++ rest |}
     = release_mutex self {| state := s; pending := rest |}.
Proof.
  split.
  - unfold take_mutex. destruct trylock; cbn [negb].
    + unfold pthread_mutex_trylock.
      now rewrite do_while_EAGAIN_transient by apply trylock_never_EAGAIN.
    + unfold pthread_mutex_lock.
      now rewrite do_while_EAGAIN_transient by apply lock_never_EAGAIN.
  - unfold release_mutex, pthread_mutex_unlock.
    now rewrite do_while_EAGAIN_transient by apply unlock_never_EAGAIN.
Qed.

(** ** The per-slot operations *)

Lemma take_mutex_held_blocks self h :
  take_mutex self (held_by h) false = Blocks.
Proof. reflexivity. Qed.

Lemma release_mutex_foreign self h :
  h <> self ->
  release_mutex self (held_by h) = Returns (EPERM, held_by h).
Proof.
  intros Hne. unfold release_mutex.
  erewrite do_while_EAGAIN_once with (r := EPERM); [reflexivity| |discriminate].
  unfold pthread_mutex_unlock, platform_call, held_by. simpl.
  now rewrite decide_False.
Qed.

(** X16. A slot's lock excludes: once [lock_semaphore] has returned 0 to
    a context, [try_lock] by another context returns 0 and changes
    nothing, [lock_semaphore] blocks the other context and the holder
    alike, [unlock_semaphore] by the other context is refused with
    [-EPERM], and [unlock_semaphore] by the holder gives back the segment
    as it was before the lock was taken. *)
Theorem slot_mutual_exclusion (a b : ctx) (shm : shm_struct_t) (i : Z) :
  segment_ok shm -> 0 <= i < num_locks shm -> a <> b ->
  slot_lock shm (i / BITMAP_SIZE) (i mod BITMAP_SIZE) = Returns mutex_initial ->
  exists held,
    lock_semaphore a (Some shm) i = Returns (0, Some held)
    /\ slot_lock held (i / BITMAP_SIZE) (i mod BITMAP_SIZE)
       = Returns (held_by a)
    /\ try_lock b (Some held) i = Returns (0, Some held)
    /\ lock_semaphore b (Some held) i = Blocks
    /\ lock_semaphore a (Some held) i = Blocks
    /\ unlock_semaphore b (Some held) i = Returns (-1 * EPERM, Some held)
    /\ unlock_semaphore a (Some held) i = Returns (0, Some shm).
Proof.
  intros Hok Hi Hab Hslot.
  destruct (valid_index_split shm i Hok Hi) as [Hgi Hj].
  destruct (slot_lock_valid shm i Hok Hi) as (g & m & Hg & Hm & Hslot').
  rewrite Hslot in Hslot'. injection Hslot' as <-.
  set (held := set_slot_lock shm (i / BITMAP_SIZE) (i mod BITMAP_SIZE)
                 (held_by a)).
  assert (Hheld : slot_lock held (i / BITMAP_SIZE) (i mod BITMAP_SIZE)
                  = Returns (held_by a)).
  { apply (slot_lock_set_slot_lock shm _ _ g); try lia; [assumption|].
    eapply lookup_lt_Some; eassumption. }
  assert (Hnl : num_locks held = num_locks shm) by apply set_slot_lock_header.
  assert (Hsame : set_slot_lock held (i / BITMAP_SIZE) (i mod BITMAP_SIZE)
                    (held_by a) = held) by apply set_slot_lock_twice.
  exists held. split; [|split; [exact Hheld|]].
  { unfold lock_semaphore. rewrite index_checked by lia. cbv zeta.
    rewrite Hslot. cbn [mbind outcome_bind]. now rewrite take_mutex_unlocked. }
  unfold try_lock, lock_semaphore, unlock_semaphore.
  rewrite index_checked by lia. cbv zeta. rewrite Hheld.
  cbn [mbind outcome_bind].
  rewrite !take_mutex_held_blocks, release_mutex_held,
    (release_mutex_foreign b a Hab).
  unfold held_by at 1. rewrite take_mutex_busy. fold (held_by a).
  cbn [mbind outcome_bind]. rewrite Hsame.
  repeat split.
  unfold held. rewrite set_slot_lock_twice.
  cbn [Z.mul Z.opp]. now rewrite (set_slot_lock_same shm _ _ g).
Qed.

Lemma slot_mutual_exclusion_witness :
  exists held,
    lock_semaphore 1%nat (Some (fresh_segment 2)) 40 = Returns (0, Some held)
    /\ slot_lock held (40 / BITMAP_SIZE) (40 mod BITMAP_SIZE)
       = Returns (held_by 1%nat)
    /\ try_lock 2%nat (Some held) 40 = Returns (0, Some held)
    /\ lock_semaphore 2%nat (Some held) 40 = Blocks
    /\ lock_semaphore 1%nat (Some held) 40 = Blocks
    /\ unlock_semaphore 2%nat (Some held) 40 = Returns (-1 * EPERM, Some held)
    /\ unlock_semaphore 1%nat (Some held) 40
       = Returns (0, Some (fresh_segment 2)).
Proof.
  apply (slot_mutual_exclusion 1%nat 2%nat (fresh_segment 2) 40
           (fresh_segment_ok 2 ltac:(lia))
           ltac:(vm_compute; split; congruence)
           ltac:(discriminate) eq_refl).
Defined.

Lemma take_mutex_abandoned_quiet self trylock :
  take_mutex self {| state := LockedAbandoned; pending := [] |} trylock
  = Returns (0, held_by self).
Proof.
  unfold take_mutex.
  pose proof (acquire_abandoned_quiet self trylock 0) as H.
  cbv zeta in H. cbn [replicate app] in H. rewrite H.
  cbn [mbind outcome_bind]. change (EOWNERDEAD =? EOWNERDEAD) with true.
  unfold pthread_mutex_consistent, platform_call. cbn [pending state].
  rewrite decide_True by reflexivity. reflexivity.
Qed.

(** X17. A slot whose holder terminated without releasing it is
    recovered through the slot operations: [lock_semaphore] returns 0 and
    leaves the caller as the holder of a consistent lock, and [try_lock]
    returns 1 and leaves the lock free. *)
Theorem abandoned_slot_recovered
    (self : ctx) (shm : shm_struct_t) (i : Z) (m : pthread_mutex_t) :
  segment_ok shm -> 0 <= i < num_locks shm ->
  slot_lock shm (i / BITMAP_SIZE) (i mod BITMAP_SIZE) = Returns m ->
  state m = LockedAbandoned -> pending m = [] ->
  lock_semaphore self (Some shm) i
  = Returns (0, Some (set_slot_lock shm (i / BITMAP_SIZE) (i mod BITMAP_SIZE)
                        (held_by self)))
  /\ try_lock self (Some shm) i
     = Returns (1, Some (set_slot_lock shm (i / BITMAP_SIZE)
                           (i mod BITMAP_SIZE) mutex_initial)).
Proof.
  intros Hok Hi Hslot Hstate Hpending.
  destruct m as [s q]. cbn [state pending] in *. subst s q.
  pose proof (take_mutex_abandoned_quiet self) as Htake.
  unfold lock_semaphore, try_lock. rewrite index_checked by lia. cbv zeta.
  rewrite Hslot. cbn [mbind outcome_bind]. rewrite !Htake.
  cbn [mbind outcome_bind]. split; [reflexivity|].
  replace (0 =? EBUSY) with false by reflexivity. cbn [Z.eqb negb].
  unfold held_by at 1. rewrite release_mutex_held.
  cbn [mbind outcome_bind Z.eqb negb]. now rewrite set_slot_lock_twice.
Qed.

Lemma abandoned_slot_recovered_witness :
  lock_semaphore 1%nat (Some abandoned_slot_segment) 40
  = Returns (0, Some (set_slot_lock abandoned_slot_segment
                        (40 / BITMAP_SIZE) (40 mod BITMAP_SIZE)
                        (held_by 1%nat)))
  /\ try_lock 1%nat (Some abandoned_slot_segment) 40
     = Returns (1, Some (set_slot_lock abandoned_slot_segment
                           (40 / BITMAP_SIZE) (40 mod BITMAP_SIZE)
                           mutex_initial)).
Proof.
  apply (abandoned_slot_recovered 1%nat abandoned_slot_segment 40
           (holder_terminates (held_by 2%nat))
           ltac:(segment_ok_by_evaluation)
           ltac:(vm_compute; split; congruence) eq_refl eq_refl eq_refl).
Defined.

Lemma slot_lock_set_slot_lock_other shm a b c d m :
  0 <= a -> 0 <= b -> 0 <= c -> 0 <= d -> (a, b) <> (c, d) ->
  slot_lock (set_slot_lock shm a b m) c d = slot_lock shm c d.
Proof.
  intros Ha Hb Hc Hd Hne. unfold slot_lock, set_slot_lock, array_get.
  destruct (locks shm !! Z.to_nat a) as [g|] eqn:Hg; [|reflexivity].
  cbn [locks set_locks].
  replace (c <? 0) with false by (symmetry; apply Z.ltb_ge; lia).
  replace (d <? 0) with false by (symmetry; apply Z.ltb_ge; lia).
  destruct (Z.eq_dec a c) as [->|Hac].
  - rewrite list_lookup_insert_eq by (eapply lookup_lt_Some; eassumption).
    rewrite Hg. cbn [mbind outcome_bind group_locks].
    rewrite list_lookup_insert_ne; [reflexivity|].
    intros Heq. apply Hne. f_equal. lia.
  - rewrite list_lookup_insert_ne by lia. reflexivity.
Qed.

Lemma index_pair_differs i j :
  i <> j -> (i / BITMAP_SIZE, i mod BITMAP_SIZE)
            <> (j / BITMAP_SIZE, j mod BITMAP_SIZE).
Proof.
  intros Hne [= Hd Hm]. apply Hne.
  rewrite (Z.div_mod i BITMAP_SIZE), (Z.div_mod j BITMAP_SIZE)
    by (unfold BITMAP_SIZE; lia).
  now rewrite Hd, Hm.
Qed.

(** X18. A slot operation touches the lock of its own slot only: after
    [lock_semaphore], [unlock_semaphore] or [try_lock] on one index, the
    lock of every other slot and the allocation lock are as before. *)
Theorem slot_operations_local
    (self : ctx) (shm shm' : shm_struct_t) (i j r : Z)
    (op : ctx -> option shm_struct_t -> Z -> outcome (Z * option shm_struct_t)) :
  In op [lock_semaphore; unlock_semaphore; try_lock] ->
  0 <= i -> 0 <= j -> i <> j ->
  op self (Some shm) i = Returns (r, Some shm') ->
  slot_lock shm' (j / BITMAP_SIZE) (j mod BITMAP_SIZE)
  = slot_lock shm (j / BITMAP_SIZE) (j mod BITMAP_SIZE)
  /\ segment_lock shm' = segment_lock shm.
Proof.
  intros Hop Hi Hj Hne H.
  pose proof (index_pair_differs i j Hne) as Hpair.
  assert (Hdiv : forall k, 0 <= k -> 0 <= k / BITMAP_SIZE)
    by (intros; apply Z.div_pos; unfold BITMAP_SIZE; lia).
  assert (Hmod : forall k, 0 <= k mod BITMAP_SIZE)
    by (intros; apply Z.mod_pos_bound; unfold BITMAP_SIZE; lia).
  assert (Hone : forall m,
            slot_lock (set_slot_lock shm (i / BITMAP_SIZE) (i mod BITMAP_SIZE) m)
              (j / BITMAP_SIZE) (j mod BITMAP_SIZE)
            = slot_lock shm (j / BITMAP_SIZE) (j mod BITMAP_SIZE)
            /\ segment_lock
                 (set_slot_lock shm (i / BITMAP_SIZE) (i mod BITMAP_SIZE) m)
               = segment_lock shm).
  { intros m. split; [apply slot_lock_set_slot_lock_other; auto|].
    unfold set_slot_lock. now destruct (locks shm !! _). }
  assert (Htwo : forall m n,
            slot_lock
              (set_slot_lock
                 (set_slot_lock shm (i / BITMAP_SIZE) (i mod BITMAP_SIZE) m)
                 (i / BITMAP_SIZE) (i mod BITMAP_SIZE) n)
              (j / BITMAP_SIZE) (j mod BITMAP_SIZE)
            = slot_lock shm (j / BITMAP_SIZE) (j mod BITMAP_SIZE)
            /\ segment_lock
                 (set_slot_lock
                    (set_slot_lock shm (i / BITMAP_SIZE) (i mod BITMAP_SIZE) m)
                    (i / BITMAP_SIZE) (i mod BITMAP_SIZE) n)
               = segment_lock shm)
    by (intros m n; rewrite set_slot_lock_twice; apply Hone).
  cbn [In] in Hop. destruct Hop as [<-|[<-|[<-|[]]]];
    unfold lock_semaphore, unlock_semaphore, try_lock in H; cbv zeta in H;
    (destruct (i >=? num_locks shm); [now injection H as _ <-|]);
    destruct (slot_lock shm (i / BITMAP_SIZE) _) as [m| |];
    cbn [mbind outcome_bind] in H; try discriminate H;
    along_the_code H; try discriminate H; injection H as _ <-; auto.
Qed.

Lemma slot_operations_local_witness :
  slot_lock (set_slot_lock (fresh_segment 2) 1 8 (held_by 1%nat))
    (41 / BITMAP_SIZE) (41 mod BITMAP_SIZE)
  = slot_lock (fresh_segment 2) (41 / BITMAP_SIZE) (41 mod BITMAP_SIZE)
  /\ segment_lock (set_slot_lock (fresh_segment 2) 1 8 (held_by 1%nat))
     = segment_lock (fresh_segment 2).
Proof.
  apply (slot_operations_local 1%nat (fresh_segment 2)
           (set_slot_lock (fresh_segment 2) 1 8 (held_by 1%nat)) 40 41 0
           lock_semaphore ltac:(now left) ltac:(lia) ltac:(lia)
           ltac:(discriminate) eq_refl).
Defined.

(** ** Every operation keeps the segment well formed *)

Lemma deallocate_all_semaphores_cases self shm r shm' :
  segment_ok shm ->
  deallocate_all_semaphores self (Some shm) = Returns (r, Some shm') ->
  exists m,
    shm' = set_segment_lock shm m
    \/ shm' = set_segment_lock (set_locks shm (clear_bitmaps (locks shm))) m.
Proof.
  intros Hok H. unfold deallocate_all_semaphores in H.
  destruct (take_mutex self (segment_lock shm) false) as [[rc m1]| |];
    cbn [mbind outcome_bind] in H; try discriminate.
  destruct (negb (rc =? 0)); [injection H as _ <-; eauto|].
  cbn [num_bitmaps set_segment_lock] in H.
  replace (Z.to_nat (num_bitmaps shm)) with (length (locks shm)) in H
    by (pose proof (ok_length shm Hok); lia).
  pose proof (reset_bitmaps_clears (locks shm) (set_segment_lock shm m1) []
                eq_refl) as Hreset.
  change (Z.of_nat (length [])) with 0 in Hreset.
  cbn [set_segment_lock] in Hreset. rewrite Hreset in H.
  cbn [mbind outcome_bind segment_lock set_segment_lock set_locks app] in H.
  destruct (release_mutex self m1) as [[rc2 m2]| |];
    cbn [mbind outcome_bind] in H; try discriminate.
  destruct (negb (rc2 =? 0)); injection H as _ <-; eauto.
Qed.

Lemma slot_locks_set_bitmap shm gi b :
  slot_locks (set_bitmap shm gi b) = slot_locks shm.
Proof.
  unfold slot_locks, set_bitmap.
  destruct (locks shm !! Z.to_nat gi) as [g|] eqn:Hg; [|reflexivity].
  cbn [locks set_locks]. rewrite list_fmap_insert. cbn [group_locks].
  apply list_insert_id. now rewrite list_lookup_fmap, Hg.
Qed.

Lemma slot_locks_apply_change shm change :
  slot_locks (apply_change shm change) = slot_locks shm.
Proof.
  destruct change as [[gi b]|]; [apply slot_locks_set_bitmap|reflexivity].
Qed.

Lemma guarded_update_slot_locks self shm change r r' shm' :
  guarded_update self shm change r = Returns (r', Some shm') ->
  slot_locks shm' = slot_locks shm.
Proof.
  intros H.
  apply guarded_update_cases in H
    as [(rc & m & _ & _ & _ & ->)
       |[(m1 & m2 & _ & _ & _ & ->)|(m1 & rc & m2 & _ & _ & _ & _ & ->)]];
    try reflexivity; apply slot_locks_apply_change.
Qed.

(** X19. No allocation operation touches the lock of a slot: whatever
    [allocate_semaphore], [allocate_given_semaphore],
    [deallocate_semaphore], [deallocate_all_semaphores] or
    [available_locks] returns, the locks of all slots are as before; a
    slot held by a context stays held by it when the slot is deallocated
    or all slots are. *)
Theorem allocation_operations_leave_locks
    (self : ctx) (shm shm' : shm_struct_t) (i r : Z) :
  segment_ok shm -> 0 <= i ->
  In (Returns (r, Some shm')) (allocation_calls self shm i) ->
  slot_locks shm' = slot_locks shm.
Proof.
  intros Hok Hi0 Hin. cbn [In allocation_calls] in Hin.
  destruct Hin as [H|[H|[H|[H|[H|[]]]]]].
  - rewrite (allocate_semaphore_guarded self shm Hok) in H.
    now apply guarded_update_slot_locks in H.
  - destruct (Z.lt_ge_cases i (num_locks shm)) as [Hlt|Hge].
    2: { unfold allocate_given_semaphore in H.
         rewrite index_rejected in H by assumption. now injection H as _ <-. }
    assert (Hi : 0 <= i < num_locks shm) by lia.
    destruct (valid_index_split shm i Hok Hi) as [Hgi Hj].
    destruct (group_at shm _ Hok Hgi) as (g & Hg & _).
    rewrite (allocate_given_semaphore_guarded self shm i g Hok Hi Hg) in H.
    destruct (Z.testbit _ _); now apply guarded_update_slot_locks in H.
  - destruct (Z.lt_ge_cases i (num_locks shm)) as [Hlt|Hge].
    2: { unfold deallocate_semaphore in H.
         rewrite index_rejected in H by assumption. now injection H as _ <-. }
    assert (Hi : 0 <= i < num_locks shm) by lia.
    destruct (valid_index_split shm i Hok Hi) as [Hgi Hj].
    destruct (group_at shm _ Hok Hgi) as (g & Hg & _).
    rewrite (deallocate_semaphore_guarded self shm i g Hok Hi Hg) in H.
    destruct (Z.testbit _ _); now apply guarded_update_slot_locks in H.
  - apply deallocate_all_semaphores_cases in H as [m [->| ->]];
      [reflexivity|apply group_locks_clear_bitmaps|assumption].
  - rewrite (available_locks_guarded self shm Hok) in H.
    now apply guarded_update_slot_locks in H.
Qed.

Lemma allocation_operations_leave_locks_witness :
  slot_locks (set_locks abandoned_slot_segment
                (clear_bitmaps (locks abandoned_slot_segment)))
  = slot_locks abandoned_slot_segment.
Proof.
  apply (allocation_operations_leave_locks 1%nat abandoned_slot_segment
           (set_locks abandoned_slot_segment
              (clear_bitmaps (locks abandoned_slot_segment))) 40 0
           ltac:(segment_ok_by_evaluation) ltac:(lia)).
  right. right. right. left. reflexivity.
Defined.

(** X20. Every operation on a mapped segment keeps it well formed: the
    counts of the header, the number of groups, the 32 locks of each
    group and the 32-bit range of each bitmap hold after any of the eight
    operations returns, with whatever value. *)
Theorem operations_preserve_segment_ok
    (self : ctx) (shm shm' : shm_struct_t) (i r : Z) :
  segment_ok shm -> 0 <= i ->
  In (Returns (r, Some shm'))
    (allocation_calls self shm i
     ++ [lock_semaphore self (Some shm) i;
         unlock_semaphore self (Some shm) i;
         try_lock self (Some shm) i]) ->
  segment_ok shm'.
Proof.
  intros Hok Hi0 Hin. cbn [In allocation_calls app] in Hin.
  destruct Hin as [H|[H|[H|[H|[H|[H|[H|[H|[]]]]]]]]];
    try (apply (operations_keep_segment_ok self shm i r shm' Hok Hi0); tauto).
  - apply deallocate_all_semaphores_cases in H as [m [->| ->]];
      [| |assumption]; apply segment_ok_set_segment_lock;
      [assumption|now apply segment_ok_clear_bitmaps].
  - rewrite (available_locks_guarded self shm Hok) in H.
    eapply guarded_update_segment_ok; [exact Hok| |exact H]. discriminate.
Qed.

Lemma operations_preserve_segment_ok_witness :
  segment_ok (set_bitmap partly_allocated_segment 1 15).
Proof.
  apply (operations_preserve_segment_ok 1%nat partly_allocated_segment
           (set_bitmap partly_allocated_segment 1 15) 0 35
           ltac:(segment_ok_by_evaluation) ltac:(lia)).
  left. reflexivity.
Defined.

(** ** The calls made by setup_lock_shm and open_lock_shm *)







(** X22. The failures of [open_lock_shm] before the segment is looked
    at: a count of zero or a NULL path gives [-EINVAL] with no call made;
    a refused [shm_open] gives its error, negated, and nothing else is
    called; a failed mapping gives its error, negated, and the descriptor
    is closed all the same. Nothing is unmapped, and nothing is ever
    created or unlinked. *)
Theorem open_lock_shm_failures
    (p : platform) (os : os_t) (path : option string) (n ec : Z) :
  (n = 0 \/ path = None ->
   open_lock_shm p os path n (Some ec)
   = {| returned := None; error_code_cell := Some (-1 * EINVAL);
        os_calls := [] |})
  /\ (forall name fd errno,
        n <> 0 -> path = Some name ->
        shm_open_answer os name false = (fd, errno) ->
        let size := compute_shm_size p (bitmaps_required n) in
        (fd < 0 ->
         open_lock_shm p os path n (Some ec)
         = {| returned := None; error_code_cell := Some (-1 * errno);
              os_calls := [shm_open name false] |})
        /\ (forall e,
              0 <= fd -> mmap_errno os size = Some e ->
              open_lock_shm p os path n (Some ec)
              = {| returned := None; error_code_cell := Some (-1 * e);
                   os_calls := [shm_open name false; mmap size; close] |}))
  /\ (forall c, In c (os_calls (open_lock_shm p os path n (Some ec))) ->
      match c with
      | shm_open _ create_excl => create_excl = false
      | ftruncate _ | shm_unlink _ => False
      | _ => True
      end).
Proof.
  split; [|split].
  - intros [->| ->]; unfold open_lock_shm; [reflexivity|].
    now destruct (n =? 0).
  - intros name fd errno Hn -> Hopen size. unfold open_lock_shm.
    replace (n =? 0) with false by (symmetry; now apply Z.eqb_neq).
    rewrite Hopen. fold size. split.
    + intros Hfd.
      now replace (fd <? 0) with true by (symmetry; apply Z.ltb_lt; lia).
    + intros e Hfd Hmap.
      replace (fd <? 0) with false by (symmetry; apply Z.ltb_ge; lia).
      now rewrite Hmap.
  - intros c. unfold open_lock_shm.
    destruct (n =? 0); [intros []|].
    destruct path as [name|]; [|intros []].
    destruct (shm_open_answer os name false) as [fd errno].
    destruct (fd <? 0); [cbn; intros [<-|[]]; reflexivity|].
    destruct (mmap_errno os _);
      [cbn; intros [<-|[<-|[<-|[]]]]; reflexivity || exact I|].
    destruct (negb (magic (mapped_region os) =? MAGIC));
      [cbn; intros [<-|[<-|[<-|[<-|[]]]]]; reflexivity || exact I|].
    destruct (negb _);
      cbn; intuition (subst; reflexivity || exact I).
Qed.

Lemma open_lock_shm_failures_witness :
  open_lock_shm linux_x86_64 os_without_memory None 64 (Some 0)
  = {| returned := None; error_code_cell := Some (-1 * EINVAL);
       os_calls := [] |}
  /\ open_lock_shm linux_x86_64 os_without_memory (Some "/libpod_lock") 64
       (Some 0)
     = {| returned := None; error_code_cell := Some (-1 * 12);
          os_calls := [shm_open "/libpod_lock" false; mmap 2632; close] |}.
Proof.
  destruct (open_lock_shm_failures linux_x86_64 os_without_memory None 64 0)
    as (Hnull & _).
  destruct (open_lock_shm_failures linux_x86_64 os_without_memory
              (Some "/libpod_lock") 64 0) as (_ & Hcalls & _).
  split; [apply Hnull; now right|].
  apply (Hcalls "/libpod_lock" 3 0 ltac:(discriminate) eq_refl eq_refl);
    [discriminate|reflexivity].
Defined.

(** ** A created segment *)

Lemma to_size_t_small p z :
  32 <= size_t_bits p -> 0 <= z < 2 ^ 32 -> to_size_t p z = z.
Proof.
  intros Hp Hz. unfold to_size_t. apply Z.mod_small.
  assert (2 ^ 32 <= 2 ^ size_t_bits p) by (apply Z.pow_le_mono_r; lia). lia.
Qed.

Lemma rounded_count_range n :
  0 < n <= 2 ^ 32 - 32 -> 0 <= (n + 31) / 32 * 32 < 2 ^ 32.
Proof.
  intros Hn. pose proof (Z.div_mod (n + 31) 32 ltac:(lia)).
  pose proof (Z.mod_pos_bound (n + 31) 32 ltac:(lia)). lia.
Qed.

(** X23. A segment created for [n] locks is opened by every request that
    rounds up to the same multiple of 32, with the length it was created
    with, and is refused with [-ERANGE], and unmapped, for every request
    that rounds differently. *)
Theorem setup_then_open
    (p : platform) (os os' : os_t) (name : string) (n n' ec fd errno : Z)
    (shm : shm_struct_t) :
  32 <= size_t_bits p ->
  0 < n <= 2 ^ 32 - 32 -> 0 < n' <= 2 ^ 32 - 32 ->
  returned (setup_lock_shm p os (Some name) n (Some ec)) = Some shm ->
  mapped_region os' = shm ->
  shm_open_answer os' name false = (fd, errno) -> 0 <= fd ->
  mmap_errno os' (compute_shm_size p (bitmaps_required n')) = None ->
  ((n' + 31) / 32 = (n + 31) / 32 ->
   open_lock_shm p os' (Some name) n' (Some ec)
   = {| returned := Some shm; error_code_cell := Some ec;
        os_calls := [shm_open name false;
                     mmap (compute_shm_size p (bitmaps_required n));
                     close] |})
  /\ ((n' + 31) / 32 <> (n + 31) / 32 ->
      open_lock_shm p os' (Some name) n' (Some ec)
      = {| returned := None; error_code_cell := Some (-1 * ERANGE);
           os_calls := [shm_open name false;
                        mmap (compute_shm_size p (bitmaps_required n'));
                        close;
                        munmap (compute_shm_size p (bitmaps_required n'))] |}).
Proof.
  intros Hp Hn Hn' Hsetup Hregion Hopen Hfd Hmap.
  destruct (setup_lock_shm_capacity p os _ n _ shm Hp Hn Hsetup)
    as (Hnb & Hnl & _).
  destruct (setup_lock_shm_stored p os _ n _ shm Hsetup) as (_ & Hmagic & _).
  destruct (open_lock_shm_attached p os' name n' ec fd errno
              ltac:(lia) Hopen Hfd Hmap) as (_ & Hrange & Hsame).
  rewrite Hregion in Hrange, Hsame.
  pose proof (rounded_count_range n Hn) as Hr.
  pose proof (rounded_count_range n' Hn') as Hr'.
  rewrite (to_size_t_small p (num_locks shm)) in Hrange, Hsame
    by (assumption || (rewrite Hnl, Hnb; exact Hr)).
  rewrite (to_size_t_small p _ Hp Hr') in Hrange, Hsame.
  rewrite Hnl, Hnb in Hrange, Hsame.
  split; intros Hround.
  - rewrite (Hsame Hmagic) by (rewrite Hround; reflexivity).
    now rewrite !bitmaps_required_ceil, Hround by lia.
  - apply (Hrange Hmagic). lia.
Qed.

Lemma setup_then_open_witness :
  open_lock_shm linux_x86_64 (os_mapping (fresh_segment 2))
    (Some "/libpod_lock") 33 (Some 0)
  = {| returned := Some (fresh_segment 2); error_code_cell := Some 0;
       os_calls := [shm_open "/libpod_lock" false;
                    mmap (compute_shm_size linux_x86_64 (bitmaps_required 64));
                    close] |}
  /\ open_lock_shm linux_x86_64 (os_mapping (fresh_segment 2))
       (Some "/libpod_lock") 65 (Some 0)
     = {| returned := None; error_code_cell := Some (-1 * ERANGE);
          os_calls := [shm_open "/libpod_lock" false;
                       mmap (compute_shm_size linux_x86_64 (bitmaps_required 65));
                       close;
                       munmap (compute_shm_size linux_x86_64
                                 (bitmaps_required 65))] |}.
Proof.
  split.
  - apply (setup_then_open linux_x86_64 willing_os
             (os_mapping (fresh_segment 2)) "/libpod_lock" 64 33 0 3 0
             (fresh_segment 2) ltac:(discriminate)
             ltac:(split; [reflexivity|discriminate])
             ltac:(split; [reflexivity|discriminate])
             eq_refl eq_refl eq_refl ltac:(discriminate) eq_refl).
    reflexivity.
  - apply (setup_then_open linux_x86_64 willing_os
             (os_mapping (fresh_segment 2)) "/libpod_lock" 64 65 0 3 0
             (fresh_segment 2) ltac:(discriminate)
             ltac:(split; [reflexivity|discriminate])
             ltac:(split; [reflexivity|discriminate])
             eq_refl eq_refl eq_refl ltac:(discriminate) eq_refl).
    discriminate.
Defined.

Lemma free_slots_replicate k g :
  bitmap g = 0 -> free_slots (replicate k g) = 32 * Z.of_nat k.
Proof.
  intros Hg. induction k as [|k IH]; [reflexivity|].
  change (free_slots (replicate (S k) g))
    with (32 - popcount (bitmap g) + free_slots (replicate k g)).
  rewrite IH, Hg. change (popcount 0) with 0. lia.
Qed.

Lemma slot_lock_fresh nb i :
  0 <= i < nb * 32 ->
  slot_lock (fresh_segment nb) (i / BITMAP_SIZE) (i mod BITMAP_SIZE)
  = Returns mutex_initial.
Proof.
  intros Hi. unfold BITMAP_SIZE. change (4 * 8) with 32.
  pose proof (Z.div_mod i 32 ltac:(lia)).
  pose proof (Z.mod_pos_bound i 32 ltac:(lia)).
  assert (0 <= i / 32 < nb) by (split; [apply Z.div_pos; lia|
    apply Z.div_lt_upper_bound; lia]).
  unfold slot_lock, fresh_segment. cbn [locks].
  erewrite array_get_lookup; [|lia|apply lookup_replicate_2; lia].
  cbn [mbind outcome_bind group_locks].
  apply array_get_lookup; [lia|]. apply lookup_replicate_2.
  unfold BITMAP_SIZE. lia.
Qed.

(** X24. A segment [setup_lock_shm] has created for [n] locks, [n] at
    most [2^32 - 32], is well formed and holds the least multiple of 32
    that is at least [n]; all of it is free: [available_locks] returns
    the whole capacity, the lock of every slot is as initialised, and
    the first [allocate_semaphore] returns index 0. *)
Theorem setup_lock_shm_all_free
    (p : platform) (os : os_t) (path : option string) (n : Z)
    (ec : option Z) (shm : shm_struct_t) (self : ctx) :
  32 <= size_t_bits p -> 0 < n <= 2 ^ 32 - 32 ->
  returned (setup_lock_shm p os path n ec) = Some shm ->
  segment_ok shm
  /\ n <= num_locks shm < n + 32 /\ num_locks shm mod 32 = 0
  /\ available_locks self (Some shm) = Returns (num_locks shm, Some shm)
  /\ (forall i, 0 <= i < num_locks shm ->
      slot_lock shm (i / BITMAP_SIZE) (i mod BITMAP_SIZE)
      = Returns mutex_initial)
  /\ allocate_semaphore self (Some shm) = Returns (0, Some (set_bitmap shm 0 1)).
Proof.
  intros Hp Hn Hsetup.
  pose proof (setup_lock_shm_segment_ok p os path n ec shm Hp Hn Hsetup) as Hok.
  destruct (setup_lock_shm_capacity p os path n ec shm Hp Hn Hsetup)
    as (Hnb & Hnl & Hcap).
  pose proof (setup_lock_shm_fresh p os path n ec shm Hp Hsetup) as Hfresh.
  pose proof (rounded_count_range n Hn) as Hr.
  assert (Hq : segment_lock shm = mutex_initial) by now rewrite Hfresh.
  assert (Hpos : 0 < num_bitmaps shm) by lia.
  split; [exact Hok|]. split; [exact Hcap|].
  split; [rewrite Hnl; apply Z.mod_mul; lia|].
  split; [|split].
  - rewrite (available_locks_quiet self shm Hok Hq). do 2 f_equal.
    rewrite Hnl. subst shm. unfold fresh_segment in *.
    cbn [locks num_bitmaps] in *.
    rewrite free_slots_replicate by reflexivity. lia.
  - intros i Hi. rewrite Hnl in Hi. subst shm. apply slot_lock_fresh.
    exact Hi.
  - pose proof (ok_length shm Hok) as Hlen.
    destruct (group_at shm 0 Hok ltac:(lia)) as (g & Hg & _).
    assert (Hzero : bitmap g = 0).
    { rewrite Hfresh in Hg. unfold fresh_segment in Hg. cbn [locks] in Hg.
      apply lookup_replicate_1 in Hg as [-> _]. reflexivity. }
    rewrite (allocate_semaphore_lowest self shm (held_by self) mutex_initial
               0 g 0 Hok (quiet_take self shm Hq) (release_mutex_held self)
               ltac:(lia) Hg).
    + rewrite Hzero. change (0 * 32 + 0) with 0.
      change (Z.lor 0 (2 ^ 0)) with 1.
      rewrite set_segment_lock_quiet; [reflexivity|].
      now rewrite segment_lock_set_bitmap.
    + intros j g' Hj. lia.
    + lia.
    + now rewrite Hzero.
    + intros q Hq0. lia.
Qed.

Lemma setup_lock_shm_all_free_witness :
  segment_ok (fresh_segment 2)
  /\ 33 <= num_locks (fresh_segment 2) < 33 + 32
  /\ num_locks (fresh_segment 2) mod 32 = 0
  /\ available_locks 1%nat (Some (fresh_segment 2))
     = Returns (num_locks (fresh_segment 2), Some (fresh_segment 2))
  /\ (forall i, 0 <= i < num_locks (fresh_segment 2) ->
      slot_lock (fresh_segment 2) (i / BITMAP_SIZE) (i mod BITMAP_SIZE)
      = Returns mutex_initial)
  /\ allocate_semaphore 1%nat (Some (fresh_segment 2))
     = Returns (0, Some (set_bitmap (fresh_segment 2) 0 1)).
Proof.
  apply (setup_lock_shm_all_free linux_x86_64 willing_os (Some "/libpod_lock")
           33 (Some 0) (fresh_segment 2) 1%nat ltac:(discriminate)
           ltac:(split; [reflexivity|discriminate]) eq_refl).
Defined.

(** ** Detaching *)

(** X25. [close_lock_shm] unmaps what was mapped: for a segment
    [setup_lock_shm] has returned, and for a well-formed segment
    [open_lock_shm] has returned, the one call it makes is [munmap] with
    the length the segment was mapped with; it returns 0 when [munmap]
    does and the negated error otherwise. For NULL it returns [-EINVAL]
    and makes no call. *)
Theorem close_lock_shm_unmaps_mapping
    (p : platform) (os : os_t) (name : string) (n ec : Z)
    (munmap_answer : Z -> Z * Z) (shm : shm_struct_t) :
  let size := compute_shm_size p (bitmaps_required n) in
  let unmaps calls :=
    In (mmap size) calls
    /\ close_lock_shm p munmap_answer (Some shm)
       = ((if (munmap_answer size).1 =? 0 then 0
           else -1 * (munmap_answer size).2),
          [munmap size]) in
  (returned (setup_lock_shm p os (Some name) n (Some ec)) = Some shm ->
   unmaps (os_calls (setup_lock_shm p os (Some name) n (Some ec))))
  /\ (32 <= size_t_bits p -> 0 < n <= 2 ^ 32 - 32 -> segment_ok shm ->
      returned (open_lock_shm p os (Some name) n (Some ec)) = Some shm ->
      unmaps (os_calls (open_lock_shm p os (Some name) n (Some ec))))
  /\ close_lock_shm p munmap_answer None = (-1 * EINVAL, []).
Proof.
  cbv zeta.
  assert (Hclose : num_bitmaps shm = bitmaps_required n ->
            close_lock_shm p munmap_answer (Some shm)
            = ((if (munmap_answer (compute_shm_size p (bitmaps_required n))).1
                   =? 0 then 0
                else -1 * (munmap_answer
                             (compute_shm_size p (bitmaps_required n))).2),
               [munmap (compute_shm_size p (bitmaps_required n))])).
  { intros Hnb. unfold close_lock_shm. rewrite Hnb.
    destruct (munmap_answer _) as [rc e]. cbn [fst snd].
    now destruct (rc =? 0). }
  split; [|split; [|reflexivity]].
  - intros Hsetup.
    destruct (setup_lock_shm_stored p os _ n _ shm Hsetup) as (Hn & _ & Hnb & _).
    split; [|now apply Hclose].
    revert Hsetup. unfold setup_lock_shm.
    destruct (n =? 0); [discriminate|].
    destruct (shm_open_answer os name true) as [shm_fd errno].
    destruct (shm_fd <? 0); [discriminate|].
    destruct (ftruncate_answer os _) as [ret_code errno'].
    destruct (ret_code <? 0); [discriminate|].
    destruct (mmap_errno os _); [discriminate|].
    repeat match goal with
           | |- context [if negb (?c =? 0) then _ else _] =>
               destruct (negb (c =? 0)); [discriminate|]
           end.
    destruct (init_groups os _ 0) as [e|groups]; [discriminate|].
    intros _. cbn. tauto.
  - intros Hp Hn Hok Hopen.
    pose proof (rounded_count_range n Hn) as Hr.
    revert Hopen. unfold open_lock_shm.
    replace (n =? 0) with false by (symmetry; apply Z.eqb_neq; lia).
    destruct (shm_open_answer os name false) as [shm_fd errno].
    destruct (shm_fd <? 0); [discriminate|].
    destruct (mmap_errno os _); [discriminate|].
    destruct (negb (magic (mapped_region os) =? MAGIC)); [discriminate|].
    destruct (negb _) eqn:Hcount; [discriminate|].
    cbn [returned]. intros [= Hregion]. rewrite Hregion in Hcount.
    apply negb_false_iff, Z.eqb_eq in Hcount.
    pose proof (ok_num_locks shm Hok) as Hnl.
    pose proof (ok_num_locks_range shm Hok) as Hrange.
    pose proof (ok_num_bitmaps shm Hok) as Hnb0.
    rewrite bitmaps_required_ceil in Hcount by lia.
    unfold BITMAP_SIZE in Hcount, Hnl. change (4 * 8) with 32 in Hcount, Hnl.
    rewrite !to_size_t_small in Hcount by (assumption || lia).
    split.
    + cbn. tauto.
    + apply Hclose. rewrite bitmaps_required_ceil by lia. lia.
Qed.

Lemma close_lock_shm_unmaps_mapping_witness :
  (In (mmap 2632)
     (os_calls (setup_lock_shm linux_x86_64 (os_mapping (fresh_segment 2))
                  (Some "/libpod_lock") 64 (Some 0)))
   /\ close_lock_shm linux_x86_64 (fun _ => (0, 0)) (Some (fresh_segment 2))
      = (0, [munmap 2632]))
  /\ (In (mmap 2632)
        (os_calls (open_lock_shm linux_x86_64 (os_mapping (fresh_segment 2))
                     (Some "/libpod_lock") 64 (Some 0)))
      /\ close_lock_shm linux_x86_64 (fun _ => (-1, EINVAL))
           (Some (fresh_segment 2))
         = (-1 * EINVAL, [munmap 2632])).
Proof.
  destruct (close_lock_shm_unmaps_mapping linux_x86_64
              (os_mapping (fresh_segment 2)) "/libpod_lock" 64 0
              (fun _ => (0, 0)) (fresh_segment 2)) as (Hsetup & _ & _).
  destruct (close_lock_shm_unmaps_mapping linux_x86_64
              (os_mapping (fresh_segment 2)) "/libpod_lock" 64 0
              (fun _ => (-1, EINVAL)) (fresh_segment 2)) as (_ & Hopen & _).
  split; [exact (Hsetup eq_refl)|].
  exact (Hopen ltac:(discriminate)
           ltac:(split; [reflexivity|discriminate])
           (fresh_segment_ok 2 ltac:(lia)) eq_refl).
Defined.

(** X26. The length [compute_shm_size] gives is the size of the header
    and of the groups exactly when that size fits the platform's
    [size_t]; on Linux on x86-64 it does for every count of groups a
    32-bit lock count can ask for, on 32-bit x86 it does up to 5563429
    groups and no further. *)
Theorem compute_shm_size_exact (p : platform) (nb : Z) :
  0 < size_t_bits p -> 0 <= sizeof_shm_struct p ->
  0 <= sizeof_lock_group p -> 0 <= nb ->
  let needed := sizeof_shm_struct p + nb * sizeof_lock_group p in
  (compute_shm_size p nb = needed <-> needed < 2 ^ size_t_bits p)
  /\ compute_shm_size p nb <= needed
  /\ (p = linux_x86_64 -> nb <= 2 ^ 27 -> compute_shm_size p nb = needed)
  /\ (p = linux_i386 -> (compute_shm_size p nb = needed <-> nb <= 5563429)).
Proof.
  intros Hbits Hs Hg Hnb. cbv zeta.
  set (needed := sizeof_shm_struct p + nb * sizeof_lock_group p).
  assert (Hneeded : 0 <= needed) by (unfold needed; nia).
  assert (Hpow : 0 < 2 ^ size_t_bits p) by (apply Z.pow_pos_nonneg; lia).
  assert (Hsize : compute_shm_size p nb = needed mod 2 ^ size_t_bits p).
  { unfold compute_shm_size, to_size_t, needed.
    now rewrite Z.add_mod_idemp_r by lia. }
  assert (Hiff : compute_shm_size p nb = needed
                 <-> needed < 2 ^ size_t_bits p).
  { rewrite Hsize. split.
    - intros Heq. rewrite <- Heq. now apply Z.mod_pos_bound.
    - intros Hlt. apply Z.mod_small. lia. }
  split; [exact Hiff|]. split; [|split].
  - rewrite Hsize. apply Z.mod_le; lia.
  - intros -> Hle. apply Hiff. unfold needed. cbn. lia.
  - intros ->. rewrite Hiff. unfold needed. cbn. lia.
Qed.

Lemma compute_shm_size_exact_witness :
  compute_shm_size linux_x86_64 (2 ^ 27) = 56 + 2 ^ 27 * 1288
  /\ compute_shm_size linux_i386 5563430 < 36 + 5563430 * 772.
Proof.
  destruct (compute_shm_size_exact linux_x86_64 (2 ^ 27)
              ltac:(reflexivity) ltac:(discriminate) ltac:(discriminate)
              ltac:(discriminate)) as (_ & _ & Hwide & _).
  split; [exact (Hwide eq_refl ltac:(discriminate))|reflexivity].
Defined.

(** ** What the slot operations report *)

(** X27. What the slot operations report is so: when [lock_semaphore]
    returns 0 the caller holds the slot's lock in a consistent state;
    when [try_lock] returns 1 the slot's lock is left free; when
    [unlock_semaphore] returns 0 the caller was the holder and the lock
    is left without one. This holds for every state of the lock and
    every run of answers of the lock primitive. *)
Theorem slot_success_postconditions
    (self : ctx) (shm shm' : shm_struct_t) (i : Z) :
  segment_ok shm -> 0 <= i ->
  (lock_semaphore self (Some shm) i = Returns (0, Some shm') ->
   exists m,
     slot_lock shm' (i / BITMAP_SIZE) (i mod BITMAP_SIZE) = Returns m
     /\ state m = LockedConsistent self)
  /\ (try_lock self (Some shm) i = Returns (1, Some shm') ->
      exists m,
        slot_lock shm' (i / BITMAP_SIZE) (i mod BITMAP_SIZE) = Returns m
        /\ state m = Unlocked)
  /\ (unlock_semaphore self (Some shm) i = Returns (0, Some shm') ->
      exists m0 m,
        slot_lock shm (i / BITMAP_SIZE) (i mod BITMAP_SIZE) = Returns m0
        /\ holder_of m0 = Some self
        /\ slot_lock shm' (i / BITMAP_SIZE) (i mod BITMAP_SIZE) = Returns m
        /\ holder_of m = None).
Proof.
  intros Hok Hi0.
  destruct (Z.lt_ge_cases i (num_locks shm)) as [Hlt|Hge].
  2: { unfold lock_semaphore, try_lock, unlock_semaphore.
       rewrite index_rejected by assumption. repeat split; discriminate. }
  assert (Hi : 0 <= i < num_locks shm) by lia.
  destruct (valid_index_split shm i Hok Hi) as [Hgi Hj].
  destruct (slot_lock_valid shm i Hok Hi) as (g & m0 & Hg & Hm0 & Hslot).
  assert (Hset : forall m,
            slot_lock (set_slot_lock shm (i / BITMAP_SIZE) (i mod BITMAP_SIZE) m)
              (i / BITMAP_SIZE) (i mod BITMAP_SIZE) = Returns m).
  { intros m. apply (slot_lock_set_slot_lock shm _ _ g); try lia;
      [assumption|]. eapply lookup_lt_Some; eassumption. }
  unfold lock_semaphore, try_lock, unlock_semaphore.
  rewrite index_checked by lia. cbv zeta. rewrite Hslot.
  cbn [mbind outcome_bind]. split; [|split].
  - destruct (take_mutex self m0 false) as [[rc m1]| |] eqn:Htake;
      cbn [mbind outcome_bind]; try discriminate.
    intros [= Hrc <-]. assert (rc = 0) by lia. subst rc.
    exists m1. split; [apply Hset|].
    exact (take_mutex_success _ _ _ _ Htake).
  - destruct (take_mutex self m0 true) as [[rc m1]| |] eqn:Htake;
      cbn [mbind outcome_bind]; try discriminate.
    pose proof (take_mutex_nonneg _ _ _ _ _ Htake) as Hrc.
    destruct (rc =? EBUSY); [discriminate|].
    destruct (rc =? 0) eqn:Hz; cbn [negb]; [|intros [= Hneg]; lia].
    apply Z.eqb_eq in Hz. subst rc.
    destruct (release_mutex self m1) as [[rc2 m2]| |] eqn:Hrel;
      cbn [mbind outcome_bind]; try discriminate.
    pose proof (release_mutex_nonneg _ _ _ _ Hrel) as Hrc2.
    destruct (rc2 =? 0) eqn:Hz2; cbn [negb]; [|intros [= Hneg]; lia].
    apply Z.eqb_eq in Hz2. subst rc2. intros [= <-].
    exists m2. rewrite set_slot_lock_twice. split; [apply Hset|].
    apply take_mutex_success in Htake.
    unfold release_mutex in Hrel.
    destruct (do_while_EAGAIN (pthread_mutex_unlock self) m1)
      as [[r m]| |] eqn:Hloop; cbn [mbind outcome_bind] in Hrel;
      try discriminate.
    assert (r = 0 /\ m = m2) as [-> ->].
    { destruct (r =? 0) eqn:Hz; cbn [negb] in Hrel.
      - apply Z.eqb_eq in Hz. now injection Hrel as <-.
      - injection Hrel as -> <-. now rewrite Z.eqb_refl in Hz. }
    apply do_while_EAGAIN_answer in Hloop; [|apply unlock_never_EAGAIN].
    destruct Hloop as [(Hpos & _)|Hloop]; [lia|].
    rewrite Htake in Hloop. case_decide; [|discriminate].
    now injection Hloop as <-.
  - destruct (release_mutex self m0) as [[rc m1]| |] eqn:Hrel;
      cbn [mbind outcome_bind]; try discriminate.
    intros [= Hrc <-]. assert (rc = 0) by lia. subst rc.
    apply release_mutex_success in Hrel as [Hheld Hfree].
    exists m0, m1. split; [reflexivity|]. split; [exact Hheld|].
    split; [apply Hset|exact Hfree].
Qed.

Lemma slot_success_postconditions_witness :
  (exists m,
     slot_lock (set_slot_lock abandoned_slot_segment 1 8 (held_by 1%nat))
       (40 / BITMAP_SIZE) (40 mod BITMAP_SIZE) = Returns m
     /\ state m = LockedConsistent 1%nat)
  /\ (exists m,
        slot_lock (set_slot_lock abandoned_slot_segment 1 8 mutex_initial)
          (40 / BITMAP_SIZE) (40 mod BITMAP_SIZE) = Returns m
        /\ state m = Unlocked).
Proof.
  destruct (slot_success_postconditions 1%nat abandoned_slot_segment
              (set_slot_lock abandoned_slot_segment 1 8 (held_by 1%nat)) 40
              ltac:(segment_ok_by_evaluation) ltac:(lia)) as (Hlock & _).
  destruct (slot_success_postconditions 1%nat abandoned_slot_segment
              (set_slot_lock abandoned_slot_segment 1 8 mutex_initial) 40
              ltac:(segment_ok_by_evaluation) ltac:(lia)) as (_ & Hprobe & _).
  split; [exact (Hlock eq_refl)|exact (Hprobe eq_refl)].
Defined.

(** ** Allocation in sequence *)

Lemma slot_allocated_at shm gi g q :
  0 <= q < 32 -> locks shm !! Z.to_nat gi = Some g ->
  slot_allocated shm (BITMAP_SIZE * gi + q) = Z.testbit (bitmap g) q.
Proof.
  intros Hq Hg. unfold slot_allocated.
  destruct (slot_index_split gi q Hq) as [-> ->]. now rewrite Hg.
Qed.

Lemma prefix_allocated_fresh nb :
  0 <= nb < 2 ^ 27 -> prefix_allocated 0 (fresh_segment nb).
Proof.
  intros Hnb i Hi. pose proof (fresh_segment_ok nb Hnb) as Hok.
  destruct (valid_index_split _ i Hok Hi) as [Hgi Hj].
  destruct (group_at _ _ Hok Hgi) as (g & Hg & _).
  unfold slot_allocated. rewrite Hg.
  unfold fresh_segment in Hg. cbn [locks] in Hg.
  apply lookup_replicate_1 in Hg as [-> _]. cbn [bitmap].
  rewrite Z.bits_0. symmetry. apply Z.ltb_ge. lia.
Qed.

(** One allocation on a segment whose slots below [n] are the
    allocated ones. *)
Lemma allocate_prefix_step self shm n :
  segment_ok shm -> segment_lock shm = mutex_initial ->
  0 <= n < num_locks shm -> prefix_allocated n shm ->
  exists shm',
    allocate_semaphore self (Some shm) = Returns (n, Some shm')
    /\ segment_ok shm' /\ segment_lock shm' = mutex_initial
    /\ num_locks shm' = num_locks shm
    /\ prefix_allocated (n + 1) shm'.
Proof.
  intros Hok Hq Hn Hprefix.
  destruct (valid_index_split shm n Hok Hn) as [Hgi Hp].
  destruct (group_at shm _ Hok Hgi) as (g & Hg & [Hrange _]).
  pose proof (Z.div_mod n BITMAP_SIZE ltac:(unfold BITMAP_SIZE; lia)) as Hdm.
  pose proof (ok_num_locks shm Hok) as Hnl.
  set (gi := n / BITMAP_SIZE) in *. set (p := n mod BITMAP_SIZE) in *.
  set (b := Z.lor (bitmap g) (2 ^ p)).
  destruct (after_set_bitmap shm gi g b Hok Hq Hg)
    as (Hok1 & Hq1 & Hnl1 & Hg1); [now apply lor_pow2_range|].
  assert (Hbits : forall q, 0 <= q < 32 ->
            Z.testbit (bitmap g) q = (q <? p)).
  { intros q Hq0. rewrite <- (slot_allocated_at shm gi g q Hq0 Hg).
    rewrite Hprefix by (unfold BITMAP_SIZE in *; lia).
    destruct (q <? p) eqn:E; [apply Z.ltb_lt in E; apply Z.ltb_lt
                             |apply Z.ltb_ge in E; apply Z.ltb_ge];
      unfold BITMAP_SIZE in *; lia. }
  exists (set_bitmap shm gi b).
  split; [|split; [exact Hok1|split; [exact Hq1|split; [exact Hnl1|]]]].
  - rewrite (allocate_semaphore_lowest self shm (held_by self) mutex_initial
               gi g p Hok (quiet_take self shm Hq) (release_mutex_held self)
               ltac:(lia) Hg).
    + fold b. rewrite set_segment_lock_quiet by exact Hq1.
      do 2 f_equal. unfold BITMAP_SIZE in Hdm. lia.
    + intros j g' Hj Hg'.
      apply all_bits_set_full;
        [apply (Forall_lookup_1 _ _ _ _ (ok_groups shm Hok) Hg')|].
      intros q Hq0. rewrite <- (slot_allocated_at shm j g' q Hq0 Hg').
      rewrite Hprefix by (unfold BITMAP_SIZE in *; lia).
      apply Z.ltb_lt. unfold BITMAP_SIZE in *. lia.
    + exact Hp.
    + rewrite Hbits by exact Hp. apply Z.ltb_irrefl.
    + intros q Hq0. rewrite Hbits by lia. apply Z.ltb_lt. lia.
  - intros i Hi. rewrite Hnl1 in Hi.
    destruct (valid_index_split shm i Hok Hi) as [Hgi' Hj].
    pose proof (Z.div_mod i BITMAP_SIZE ltac:(unfold BITMAP_SIZE; lia)) as Hdi.
    unfold slot_allocated.
    destruct (Z.eq_dec (i / BITMAP_SIZE) gi) as [Hsame|Hother].
    + rewrite Hsame, Hg1. cbn [bitmap]. unfold b.
      rewrite lor_sets_bit, Hbits by lia.
      destruct (i mod BITMAP_SIZE =? p) eqn:E.
      * apply Z.eqb_eq in E. symmetry. apply Z.ltb_lt.
        unfold BITMAP_SIZE in *. lia.
      * apply Z.eqb_neq in E.
        destruct (i mod BITMAP_SIZE <? p) eqn:E2;
          [apply Z.ltb_lt in E2; symmetry; apply Z.ltb_lt
          |apply Z.ltb_ge in E2; symmetry; apply Z.ltb_ge];
          unfold BITMAP_SIZE in *; lia.
    + rewrite locks_set_bitmap_other by lia.
      specialize (Hprefix i Hi). unfold slot_allocated in Hprefix.
      rewrite Hprefix.
      assert (i <> n) by (intros ->; now apply Hother).
      destruct (i <? n) eqn:E;
        [apply Z.ltb_lt in E; symmetry; apply Z.ltb_lt
        |apply Z.ltb_ge in E; symmetry; apply Z.ltb_ge]; lia.
Qed.

Lemma allocate_prefix_full self shm :
  segment_ok shm -> segment_lock shm = mutex_initial ->
  prefix_allocated (num_locks shm) shm ->
  allocate_semaphore self (Some shm) = Returns (-1 * ENOSPC, Some shm).
Proof.
  intros Hok Hq Hprefix.
  rewrite (allocate_semaphore_exhausted self shm (held_by self) mutex_initial
             Hok (quiet_take self shm Hq) (release_mutex_held self)).
  - now rewrite set_segment_lock_quiet.
  - intros g Hin.
    apply list_elem_of_In, list_elem_of_lookup_1 in Hin as [k Hk].
    pose proof (lookup_lt_Some _ _ _ Hk) as Hlt.
    pose proof (ok_length shm Hok) as Hlen.
    pose proof (ok_num_locks shm Hok) as Hnl.
    apply all_bits_set_full;
      [apply (Forall_lookup_1 _ _ _ _ (ok_groups shm Hok) Hk)|].
    intros q Hq0.
    rewrite <- (slot_allocated_at shm (Z.of_nat k) g q Hq0)
      by now rewrite Nat2Z.id.
    rewrite Hprefix by (unfold BITMAP_SIZE in *; lia).
    apply Z.ltb_lt. unfold BITMAP_SIZE in *. lia.
Qed.

Lemma allocate_repeatedly_prefix self k :
  forall shm n extra,
    segment_ok shm -> segment_lock shm = mutex_initial ->
    0 <= n -> prefix_allocated n shm ->
    n + Z.of_nat k <= num_locks shm ->
    exists shm',
      segment_ok shm' /\ segment_lock shm' = mutex_initial
      /\ num_locks shm' = num_locks shm
      /\ prefix_allocated (n + Z.of_nat k) shm'
      /\ allocate_repeatedly self (k + extra) (Some shm)
         = ((fun j => n + Z.of_nat j) <$> seq 0 k)
           ++ allocate_repeatedly self extra (Some shm').
Proof.
  induction k as [|k IH]; intros shm n extra Hok Hq Hn Hprefix Hroom.
  { exists shm. change (Z.of_nat 0) with 0. rewrite Z.add_0_r.
    split; [assumption|]. split; [assumption|]. split; [reflexivity|].
    split; [assumption|reflexivity]. }
  destruct (allocate_prefix_step self shm n Hok Hq ltac:(lia) Hprefix)
    as (shm1 & Hcall & Hok1 & Hq1 & Hnl1 & Hprefix1).
  destruct (IH shm1 (n + 1) extra Hok1 Hq1 ltac:(lia) Hprefix1 ltac:(lia))
    as (shm' & Hok' & Hq' & Hnl' & Hprefix' & Hrun).
  exists shm'. split; [exact Hok'|]. split; [exact Hq'|].
  split; [congruence|]. split.
  - now replace (n + Z.of_nat (S k)) with (n + 1 + Z.of_nat k) by lia.
  - cbn [Nat.add allocate_repeatedly]. rewrite Hcall, Hrun.
    cbn [seq fmap list_fmap app]. rewrite Z.add_0_r. f_equal. f_equal.
    rewrite <- fmap_S_seq, <- list_fmap_compose.
    apply list_fmap_ext. intros _ j _. cbn. lia.
Qed.

(** X28. Allocation runs through the indices in order: on a segment
    whose allocated slots are those below [n] (none, for a segment just
    created), [k] calls of [allocate_semaphore] in a row return
    [n], [n+1], ..., [n+k-1] as long as the capacity is not exceeded, and
    the call after the last slot was handed out returns [-ENOSPC]. *)
Theorem allocate_semaphore_sequence
    (self : ctx) (shm : shm_struct_t) (n : Z) (k : nat) :
  segment_ok shm -> segment_lock shm = mutex_initial ->
  0 <= n -> prefix_allocated n shm ->
  n + Z.of_nat k <= num_locks shm ->
  allocate_repeatedly self k (Some shm)
  = (fun j => n + Z.of_nat j) <$> seq 0 k
  /\ (n + Z.of_nat k = num_locks shm ->
      allocate_repeatedly self (k + 1) (Some shm)
      = ((fun j => n + Z.of_nat j) <$> seq 0 k) ++ [-1 * ENOSPC]).
Proof.
  intros Hok Hq Hn Hprefix Hroom. split.
  - destruct (allocate_repeatedly_prefix self k shm n 0%nat Hok Hq Hn Hprefix
                Hroom) as (shm' & _ & _ & _ & _ & Hrun).
    rewrite Nat.add_0_r in Hrun. rewrite Hrun. apply app_nil_r.
  - intros Hall.
    destruct (allocate_repeatedly_prefix self k shm n 1%nat Hok Hq Hn Hprefix
                Hroom) as (shm' & Hok' & Hq' & Hnl' & Hprefix' & Hrun).
    rewrite Hrun. f_equal. cbn [allocate_repeatedly].
    rewrite allocate_prefix_full; [reflexivity|assumption..|].
    now rewrite Hnl', <- Hall.
Qed.

Lemma allocate_semaphore_sequence_witness :
  allocate_repeatedly 1%nat 3 (Some (fresh_segment 1))
  = (fun j => 0 + Z.of_nat j) <$> seq 0 3
  /\ allocate_repeatedly 1%nat (32 + 1) (Some (fresh_segment 1))
     = ((fun j => 0 + Z.of_nat j) <$> seq 0 32) ++ [-1 * ENOSPC].
Proof.
  split.
  - apply (allocate_semaphore_sequence 1%nat (fresh_segment 1) 0 3
             (fresh_segment_ok 1 ltac:(lia)) eq_refl ltac:(lia)
             (prefix_allocated_fresh 1 ltac:(lia)) ltac:(discriminate)).
  - apply (allocate_semaphore_sequence 1%nat (fresh_segment 1) 0 32
             (fresh_segment_ok 1 ltac:(lia)) eq_refl ltac:(lia)
             (prefix_allocated_fresh 1 ltac:(lia)) ltac:(discriminate)).
    reflexivity.
Defined.

(** X29. On the segment [setup_lock_shm] has created for [n] locks, [n]
    at most [2^32 - 32], [allocate_semaphore] called over and over
    returns 0, 1, 2, ... up to the capacity [num_locks], and [-ENOSPC]
    on the call after the last slot. *)
Theorem created_segment_allocation_sequence
    (p : platform) (os : os_t) (path : option string) (n : Z)
    (ec : option Z) (shm : shm_struct_t) (self : ctx) (k : nat) :
  32 <= size_t_bits p -> 0 < n <= 2 ^ 32 - 32 ->
  returned (setup_lock_shm p os path n ec) = Some shm ->
  Z.of_nat k <= num_locks shm ->
  allocate_repeatedly self k (Some shm) = Z.of_nat <$> seq 0 k
  /\ (Z.of_nat k = num_locks shm ->
      allocate_repeatedly self (k + 1) (Some shm)
      = (Z.of_nat <$> seq 0 k) ++ [-1 * ENOSPC]).
Proof.
  intros Hp Hn Hsetup Hroom.
  pose proof (setup_lock_shm_segment_ok p os path n ec shm Hp Hn Hsetup) as Hok.
  pose proof (setup_lock_shm_fresh p os path n ec shm Hp Hsetup) as Hfresh.
  assert (Hq : segment_lock shm = mutex_initial) by now rewrite Hfresh.
  assert (Hprefix : prefix_allocated 0 shm).
  { rewrite Hfresh. apply prefix_allocated_fresh.
    rewrite bitmaps_required_ceil by lia.
    pose proof (Z.div_mod (n + 31) 32 ltac:(lia)).
    pose proof (Z.mod_pos_bound (n + 31) 32 ltac:(lia)). lia. }
  split.
  - destruct (allocate_repeatedly_prefix self k shm 0 0%nat Hok Hq
                ltac:(lia) Hprefix ltac:(lia))
      as (shm' & _ & _ & _ & _ & Hrun).
    rewrite Nat.add_0_r in Hrun. rewrite Hrun. apply app_nil_r.
  - intros Hall.
    destruct (allocate_repeatedly_prefix self k shm 0 1%nat Hok Hq
                ltac:(lia) Hprefix ltac:(lia))
      as (shm' & Hok' & Hq' & Hnl' & Hprefix' & Hrun).
    rewrite Hrun. f_equal. cbn [allocate_repeatedly].
    rewrite allocate_prefix_full; [reflexivity|assumption..|].
    now rewrite Hnl', <- Hall.
Qed.

Lemma created_segment_allocation_sequence_witness :
  allocate_repeatedly 1%nat 64 (Some (fresh_segment 2))
  = Z.of_nat <$> seq 0 64
  /\ allocate_repeatedly 1%nat (64 + 1) (Some (fresh_segment 2))
     = (Z.of_nat <$> seq 0 64) ++ [-1 * ENOSPC].
Proof.
  destruct (created_segment_allocation_sequence linux_x86_64 willing_os
              (Some "/libpod_lock") 33 (Some 0) (fresh_segment 2) 1%nat 64
              ltac:(discriminate) ltac:(split; [reflexivity|discriminate])
              eq_refl ltac:(vm_compute; discriminate)) as [Hrun Hlast].
  split; [exact Hrun|exact (Hlast eq_refl)].
Defined.

(** ** The segment whose stored count has wrapped *)










